(** * iwallet/utils.go: account keys, signer checks, amount limits, multi-signature

    A shallow embedding of the helper functions of the iwallet command line
    tool (package [iwallet], file [utils.go]) and the properties its
    specification states about them.

    Layout:
    - [Go]: the pieces of the Go library the file leans on (error values,
      [strings.Split], [strconv.ParseFloat]);
    - [Data]: the records utils.go handles;
    - [IOModel]: programs that call the operating system and the key file
      readers, as trees of calls; how such a tree runs against a machine;
      package [os] over the calls;
    - [Posix]: one machine, a small file store with a fault schedule;
    - [Iwallet]: the functions of utils.go that deal with keys, signers,
      amount limits and signatures;
    - [GoMore]: more of the Go library ([strings.LastIndex],
      [strings.HasSuffix], slice expressions and their panics);
    - [IwalletMore]: the other functions of utils.go (the checks of the
      command line, [actionsFromFlags], [getAccountNameFromKeyPath],
      [getFilesAndDirs], [LoadAndSetAccountForSDK], [InitAccount]);
    - [Sample]: sample keys, files and machines;
    - the vocabulary of the statements, then the theorems. *)

From Stdlib Require Import ZArith List String Ascii Lia Bool Eqdep_dec.
From Stdlib Require Import Floats.SpecFloat.
From stdpp Require Import gmap strings.

Import ListNotations.
Set Warnings "-register-all".
Local Open Scope string_scope.
Local Open Scope list_scope.
Local Open Scope Z_scope.

(* ===================================================================== *)
(** ** Go values *)
(* ===================================================================== *)

Module Go.

(** [syscall.Errno]. *)
Definition Errno := Z.

(** Go's [float64]: IEEE 754 binary64, in the representation of the
    Standard Library's specification of floating-point numbers. *)
Definition float64 := spec_float.

(** An operand of [fmt.Errorf]. *)
Inductive arg (E : Type) : Type :=
| VString (s : string)
| VFloat (f : float64)
| VError (e : E).
Arguments VString {E} s.
Arguments VFloat {E} f.
Arguments VError {E} e.

(** Go's [error] values, as far as utils.go can meet them: [errors.New]
    strings (also used for the errors of collaborators, which utils.go only
    passes on or prints), [*os.PathError], [*strconv.NumError] and what
    [fmt.Errorf] builds, kept as the format with its operands. *)
Inductive error : Type :=
| errorString (s : string)
| PathError (Op Path : string) (Err : Errno)
| NumError (Func Num : string) (Err : error)
| Errorf (format : string) (a : list (arg error)).

(** The strings an error value holds besides its fixed text: paths of path
    errors, the operands of [Errorf], and those of the errors it wraps. *)
Fixpoint error_strings (e : error) : list string :=
  match e with
  | errorString _ => []
  | PathError _ p _ => [p]
  | NumError _ n e' => n :: error_strings e'
  | Errorf _ a =>
      (fix operands (l : list (arg error)) : list string :=
         match l with
         | [] => []
         | VString s :: l' => s :: operands l'
         | VFloat _ :: l' => operands l'
         | VError e' :: l' => error_strings e' ++ operands l'
         end) a
  end.

(** [err] names [s]: it carries [s] among its strings. *)
Definition names (err : error) (s : string) : Prop := In s (error_strings err).

(* --------------------------------------------------------------------- *)
(** *** package strings *)

(** [strings.Count(s, sep)] for a one-byte separator. *)
Fixpoint Count (s : string) (sep : ascii) : nat :=
  match s with
  | EmptyString => 0%nat
  | String c s' => if Ascii.eqb c sep then S (Count s' sep) else Count s' sep
  end.

(** [strings.Split(s, sep)] for a one-byte separator (every call of utils.go
    passes one): the substrings between the separators, all of them, so the
    result has one element more than [s] has separators. *)
Fixpoint Split (s : string) (sep : ascii) : list string :=
  match s with
  | EmptyString => [EmptyString]
  | String c s' =>
      if Ascii.eqb c sep then EmptyString :: Split s' sep
      else match Split s' sep with
           | x :: xs => String c x :: xs
           | [] => [String c EmptyString]
           end
  end.

(* --------------------------------------------------------------------- *)
(** *** package strconv: ParseFloat

    Modelled on the standard library's atof.go: [special] recognises the
    infinities and NaN, [readFloat] reads a decimal or hexadecimal literal
    (digits may be separated by underscores), and the value read is rounded
    to the nearest float, ties to even; a value that rounds past the largest
    float is a range error.  The model rounds the exact value of the literal,
    where the library first tries faster routes to the same float. *)

Definition ErrSyntax : error := errorString "invalid syntax".
Definition ErrRange : error := errorString "value out of range".
Definition syntaxError (fn str : string) : error := NumError fn str ErrSyntax.
Definition rangeError (fn str : string) : error := NumError fn str ErrRange.

Definition code (c : ascii) : Z := Z.of_N (N_of_ascii c).
Definition lower (c : ascii) : ascii := ascii_of_N (N.lor (N_of_ascii c) 32).
Definition is_digit (c : ascii) : bool := (code "0" <=? code c) && (code c <=? code "9").
Definition is_hex_letter (c : ascii) : bool :=
  (code "a" <=? code (lower c)) && (code (lower c) <=? code "f").

(** [commonPrefixLenIgnoreCase(s, prefix)], [prefix] in lower case. *)
Fixpoint commonPrefixLenIgnoreCase (s prefix : string) : Z :=
  match s, prefix with
  | String c s', String p prefix' =>
      let c := if (code "A" <=? code c) && (code c <=? code "Z")
               then ascii_of_N (N_of_ascii c + 32) else c in
      if Ascii.eqb c p then 1 + commonPrefixLenIgnoreCase s' prefix' else 0
  | _, _ => 0
  end.

Definition strlen (s : string) : Z := Z.of_nat (String.length s).

(** [special(s)]: the float and the number of bytes read, when [s] starts
    with an infinity or NaN. *)
Definition special (s : string) : option (float64 * Z) :=
  let inf (sign : bool) (nsign : Z) (s : string) :=
    let n := commonPrefixLenIgnoreCase s "infinity" in
    let n := if (3 <? n) && (n <? 8) then 3 else n in
    if (n =? 3) || (n =? 8) then Some (S754_infinity sign, nsign + n) else None in
  match s with
  | EmptyString => None
  | String c s' =>
      if Ascii.eqb c "+" then inf false 1 s'
      else if Ascii.eqb c "-" then inf true 1 s'
      else if Ascii.eqb c "i" || Ascii.eqb c "I" then inf false 0 s
      else if Ascii.eqb c "n" || Ascii.eqb c "N" then
        if commonPrefixLenIgnoreCase s "nan" =? 3 then Some (S754_nan, 3) else None
      else None
  end.

(** [underscoreOK(s)]: underscores stand only between digits (a base prefix
    counts as a digit).  [saw] is the kind of the last byte: 0 a digit,
    1 an underscore, 2 anything else. *)
Fixpoint underscoreOK_loop (hex : bool) (saw : Z) (s : string) : bool :=
  match s with
  | EmptyString => negb (saw =? 1)
  | String c s' =>
      if is_digit c || (hex && is_hex_letter c) then underscoreOK_loop hex 0 s'
      else if Ascii.eqb c "_" then
        if negb (saw =? 0) then false else underscoreOK_loop hex 1 s'
      else if saw =? 1 then false
      else underscoreOK_loop hex 2 s'
  end.

Definition underscoreOK (s : string) : bool :=
  let s := match s with
           | String c s' => if Ascii.eqb c "-" || Ascii.eqb c "+" then s' else s
           | _ => s
           end in
  match s with
  | String c0 (String c1 s') =>
      if Ascii.eqb c0 "0" &&
         (Ascii.eqb (lower c1) "b" || Ascii.eqb (lower c1) "o" || Ascii.eqb (lower c1) "x")
      then underscoreOK_loop (Ascii.eqb (lower c1) "x") 0 s'
      else underscoreOK_loop false 2 s
  | _ => underscoreOK_loop false 2 s
  end.

(** The state of [readFloat]'s digit loop.  [mantissa] holds every digit
    counted by [nd] (the library keeps the first 19, or 16 hexadecimal ones,
    and notes whether it dropped a non-zero one). *)
Record digits := {
  sawdot : bool; sawdigits : bool; underscores : bool;
  nd : Z; dp : Z; mantissa : Z }.

Fixpoint readDigits (base : Z) (s : string) (d : digits) : digits * string :=
  match s with
  | EmptyString => (d, s)
  | String c s' =>
      if Ascii.eqb c "_" then
        readDigits base s' {| sawdot := sawdot d; sawdigits := sawdigits d; underscores := true;
                              nd := nd d; dp := dp d; mantissa := mantissa d |}
      else if Ascii.eqb c "." then
        if sawdot d then (d, s)
        else readDigits base s' {| sawdot := true; sawdigits := sawdigits d;
                                   underscores := underscores d;
                                   nd := nd d; dp := nd d; mantissa := mantissa d |}
      else if is_digit c then
        if Ascii.eqb c "0" && (nd d =? 0) then
          readDigits base s' {| sawdot := sawdot d; sawdigits := true;
                                underscores := underscores d;
                                nd := nd d; dp := dp d - 1; mantissa := mantissa d |}
        else
          readDigits base s' {| sawdot := sawdot d; sawdigits := true;
                                underscores := underscores d;
                                nd := nd d + 1; dp := dp d;
                                mantissa := mantissa d * base + (code c - code "0") |}
      else if (base =? 16) && is_hex_letter c then
        readDigits base s' {| sawdot := sawdot d; sawdigits := true;
                              underscores := underscores d;
                              nd := nd d + 1; dp := dp d;
                              mantissa := mantissa d * 16 + (code (lower c) - code "a" + 10) |}
      else (d, s)
  end.

(** The digits of an exponent: the exponent stops growing at 10000. *)
Fixpoint readExponent (s : string) (e : Z) (us : bool) : Z * bool * string :=
  match s with
  | EmptyString => (e, us, s)
  | String c s' =>
      if Ascii.eqb c "_" then readExponent s' e true
      else if is_digit c then
        readExponent s' (if e <? 10000 then e * 10 + (code c - code "0") else e) us
      else (e, us, s)
  end.

(** What [readFloat] returns when it accepts: the literal is
    [mantissa * base ^ exp] with base 10, or 2 when [hex]; [n] bytes read. *)
Record literal := { l_mantissa : Z; l_exp : Z; l_neg : bool; l_hex : bool; l_n : Z }.

Definition readFloat (s : string) : option literal :=
  match s with
  | EmptyString => None
  | String c0 s0 =>
      let '(neg, s1) := if Ascii.eqb c0 "+" then (false, s0)
                        else if Ascii.eqb c0 "-" then (true, s0) else (false, s) in
      let '(hex, s2) := match s1 with
                        | String a (String b (String c r)) =>
                            if Ascii.eqb a "0" && Ascii.eqb (lower b) "x"
                            then (true, String c r) else (false, s1)
                        | _ => (false, s1)
                        end in
      let base := if hex then 16 else 10 in
      let expChar := if hex then "p"%char else "e"%char in
      let '(d, s3) := readDigits base s2
                        {| sawdot := false; sawdigits := false; underscores := false;
                           nd := 0; dp := 0; mantissa := 0 |} in
      if negb (sawdigits d) then None else
      let dp0 := if sawdot d then dp d else nd d in
      let dp1 := if hex then dp0 * 4 else dp0 in
      let ndMant := if hex then nd d * 4 else nd d in
      let finish (dp2 : Z) (us : bool) (rest : string) :=
        let n := strlen s - strlen rest in
        if us && negb (underscoreOK (substring 0 (Z.to_nat n) s)) then None
        else Some {| l_mantissa := mantissa d;
                     l_exp := if mantissa d =? 0 then 0 else dp2 - ndMant;
                     l_neg := neg; l_hex := hex; l_n := n |} in
      match s3 with
      | String c s4 =>
          if Ascii.eqb (lower c) expChar then
            match s4 with
            | EmptyString => None
            | String sg s5 =>
                let '(esign, s6) := if Ascii.eqb sg "+" then (1, s5)
                                    else if Ascii.eqb sg "-" then (-1, s5) else (1, s4) in
                match s6 with
                | String c6 _ =>
                    if is_digit c6 then
                      let '(e, us, rest) := readExponent s6 0 (underscores d) in
                      finish (dp1 + e * esign) us rest
                    else None
                | EmptyString => None
                end
            end
          else if hex then None else finish dp1 (underscores d) s3
      | EmptyString => if hex then None else finish dp1 (underscores d) s3
      end
  end.

(** The float nearest to [mantissa * base ^ exp], ties to even, in the
    format with [prec] bits of precision and infinities at exponent [emax]. *)
Definition round_literal (prec emax : Z) (l : literal) : float64 :=
  match l_mantissa l with
  | Zpos m =>
      if l_hex l then binary_round prec emax (l_neg l) m (l_exp l)
      else match l_exp l with
           | Zneg k => SFdiv prec emax (S754_finite (l_neg l) m 0)
                                       (S754_finite false (Pos.pow 10 k) 0)
           | e => binary_round prec emax (l_neg l) (m * Z.to_pos (10 ^ e)) 0
           end
  | _ => S754_zero (l_neg l)
  end.

Definition fnParseFloat : string := "ParseFloat".

(** [parseFloatPrefix(s, bitSize)]: the float, the bytes read, the error. *)
Definition parseFloatPrefix (s : string) (bitSize : Z) : float64 * Z * option error :=
  match special s with
  | Some (val, n) => (val, n, None)
  | None =>
      match readFloat s with
      | None => (S754_zero false, 0, Some (syntaxError fnParseFloat s))
      | Some l =>
          let f := if bitSize =? 32
                   then match round_literal 24 128 l with
                        | S754_finite sg m e => binary_round 53 1024 sg m e
                        | f32 => f32
                        end
                   else round_literal 53 1024 l in
          match f with
          | S754_infinity _ => (f, l_n l, Some (rangeError fnParseFloat s))
          | _ => (f, l_n l, None)
          end
      end
  end.

(** [strconv.ParseFloat(s, bitSize)]: the whole of [s] must be the number. *)
Definition ParseFloat (s : string) (bitSize : Z) : float64 * option error :=
  let '(f, n, err) := parseFloatPrefix s bitSize in
  let is_syntax := match err with
                   | Some (NumError _ _ (errorString m)) => String.eqb m "invalid syntax"
                   | _ => false
                   end in
  if negb (n =? strlen s) && negb is_syntax
  then (S754_zero false, Some (syntaxError fnParseFloat s))
  else (f, err).

End Go.
Import Go.

(* ===================================================================== *)
(** ** The data utils.go handles *)
(* ===================================================================== *)

Module Data.

(** The types below are declared in other packages of the repository;
    utils.go uses the fields and constants shown. *)

Definition bytes := list Init.Byte.byte.

(** Modelled from the spec: [crypto.Algorithm], an enumeration of the two
    signature algorithms. *)
Inductive Algorithm : Type := Secp256k1 | Ed25519.

(** Modelled from the spec: [account.KeyPair], an algorithm with the bytes
    of the public and of the private key. *)
Record KeyPair := { Algorithm_ : Algorithm; Pubkey : bytes; Seckey : bytes }.

(** Modelled from the spec: [AccountInfo], an account name with a key pair
    per permission name. *)
Record AccountInfo := { Name : string; Keypairs : gmap string KeyPair }.

(** Modelled from the spec: [rpcpb.Signature], an algorithm, the signature
    bytes and the public key. *)
Record Signature := { sig_Algorithm : Algorithm; sig_Signature : bytes; sig_PublicKey : bytes }.

(** Modelled from the spec: [rpcpb.TransactionRequest], an opaque payload
    with the list of signatures.  [Content] stands for every field but
    [Signatures] (times, gas, actions, amount limits, signers, ...);
    utils.go does not look into them. *)
Record TransactionRequest (Payload : Type) := {
  Content : Payload;
  Signatures : list Signature }.
Arguments Content {Payload} t.
Arguments Signatures {Payload} t.
Arguments Build_TransactionRequest {Payload} Content Signatures.

(** Modelled from the spec: [rpcpb.AmountLimit], a token with its limit as
    a string. *)
Record AmountLimit := { Token : string; Value : string }.

(** [os.FileMode], permission bits only, and [*os.File]: a descriptor with
    the name the file was opened under. *)
Definition FileMode := Z.
Record File := { f_name : string; f_fd : Z }.

End Data.
Import Data.

(* ===================================================================== *)
(** ** Programs that call the operating system *)
(* ===================================================================== *)

Module IOModel.

(** The calls utils.go makes outside itself: the file system (at the level
    of the system calls under package [os]), the home directory lookup,
    standard output, and the functions of the repository that read key and
    signature files ([sdk.LoadKeyPair], [sdk.LoadProtoStructFromJSONFile],
    [loadAccountFromKeyStore], [loadAccountFromKeyPair]). *)
Inductive call : Type :=
| homedir_Dir
| sys_mkdirall (path : string) (perm : FileMode)
| sys_open (name : string) (flag : Z) (perm : FileMode)
| sys_write (f : File) (b : string)
| sys_close (f : File)
| sys_stat (name : string)
| fmt_Println (a : list string)
| loadAccountFromKeyStore (fileName : string) (ensureDecrypt : bool)
| loadAccountFromKeyPair (fileName : string)
| sdk_LoadKeyPair (privKeyFile algo : string)
| sdk_LoadProtoStructFromJSONFile (fileName : string).

(** What each call answers. *)
Definition ret (c : call) : Type :=
  match c with
  | homedir_Dir => string + error
  | sys_mkdirall _ _ => option Errno
  | sys_open _ _ _ => Z + Errno
  | sys_write _ _ => option Errno
  | sys_close _ => option Errno
  | sys_stat _ => option Errno
  | fmt_Println _ => unit
  | loadAccountFromKeyStore _ _ => AccountInfo + error
  | loadAccountFromKeyPair _ => AccountInfo + error
  | sdk_LoadKeyPair _ _ => KeyPair + error
  | sdk_LoadProtoStructFromJSONFile _ => Signature + error
  end.

(** A program: it returns, or makes a call and goes on with the answer. *)
Inductive IO (R : Type) : Type :=
| Ret (r : R)
| Vis (c : call) (k : ret c -> IO R).
Arguments Ret {R} r.
Arguments Vis {R} c k.

Fixpoint bind {A B : Type} (m : IO A) (f : A -> IO B) : IO B :=
  match m with
  | Ret a => f a
  | Vis c k => Vis c (fun x => bind (k x) f)
  end.

Definition perform (c : call) : IO (ret c) := Vis c Ret.

(** Go's [defer]: [d] runs when the rest of the function, [body], has
    produced its result. *)
Definition defer {A R : Type} (d : IO A) (body : IO R) : IO R :=
  bind body (fun r => bind d (fun _ => Ret r)).

(** An operating system over states [W] answers every call and moves on. *)
Record OS (W : Type) := { answer : forall c : call, W -> ret c * W }.
Arguments answer {W} o c w.

(** One call with its answer. *)
Definition event : Type := { c : call & ret c }.
Definition ev (c : call) (r : ret c) : event := @existT call ret c r.

(** Running a program: its result, the final state, the calls made. *)
Fixpoint run {W R : Type} (os : OS W) (p : IO R) (w : W) : R * W * list event :=
  match p with
  | Ret r => (r, w, [])
  | Vis c k =>
      let '(x, w1) := answer os c w in
      let '(r, w2, tr) := run os (k x) w1 in
      (r, w2, ev c x :: tr)
  end.

Definition result {W R : Type} (os : OS W) (p : IO R) (w : W) : R := fst (fst (run os p w)).
Definition final {W R : Type} (os : OS W) (p : IO R) (w : W) : W := snd (fst (run os p w)).
Definition trace {W R : Type} (os : OS W) (p : IO R) (w : W) : list event := snd (run os p w).

(** [steps os w tr w']: answering the calls of [tr] in turn, with the answers
    [tr] records, takes the machine from [w] to [w']. *)
Fixpoint steps {W : Type} (os : OS W) (w : W) (tr : list event) (w' : W) : Prop :=
  match tr with
  | [] => w' = w
  | e :: tr' =>
      fst (answer os (projT1 e) w) = projT2 e
      /\ steps os (snd (answer os (projT1 e) w)) tr' w'
  end.

(** Calls can be told apart. *)
#[global] Instance File_eq_dec : EqDecision File.
Proof. solve_decision. Defined.

#[global] Instance call_eq_dec : EqDecision call.
Proof. solve_decision. Defined.

(* --------------------------------------------------------------------- *)
(** *** package os, over the calls *)

Definition O_RDWR : Z := 2.
Definition O_CREATE : Z := 64.
Definition O_TRUNC : Z := 512.

(** An octal literal, digit by digit: [octal [7;0;0]] is Go's [0700]. *)
Definition octal (ds : list Z) : Z := fold_left (fun a d => a * 8 + d) ds 0.

(** [os.MkdirAll(path, perm)]. *)
Definition os_MkdirAll (path : string) (perm : FileMode) : IO (option error) :=
  bind (perform (sys_mkdirall path perm)) (fun r =>
  Ret (match r with Some e => Some (PathError "mkdir" path e) | None => None end)).

(** [os.OpenFile(name, flag, perm)]: the file carries [name]; a failure is
    a [*PathError] for [name]. *)
Definition os_OpenFile (name : string) (flag : Z) (perm : FileMode) : IO (File + error) :=
  bind (perform (sys_open name flag perm)) (fun r =>
  Ret (match r with
       | inl fd => inl {| f_name := name; f_fd := fd |}
       | inr e => inr (PathError "open" name e)
       end)).

(** [os.Create(name)] is [OpenFile(name, O_RDWR|O_CREATE|O_TRUNC, 0666)]. *)
Definition os_Create (name : string) : IO (File + error) :=
  os_OpenFile name (Z.lor O_RDWR (Z.lor O_CREATE O_TRUNC)) (octal [6;6;6]).

(** [f.WriteString(s)], the error result: the methods of [*os.File] report
    a failure as a [*PathError] with the file's name. *)
Definition File_WriteString (f : File) (s : string) : IO (option error) :=
  bind (perform (sys_write f s)) (fun r =>
  Ret (match r with Some e => Some (PathError "write" (f_name f) e) | None => None end)).

(** [f.Close()]. *)
Definition File_Close (f : File) : IO (option error) :=
  bind (perform (sys_close f)) (fun r =>
  Ret (match r with Some e => Some (PathError "close" (f_name f) e) | None => None end)).

(** [os.Stat(name)], the error result. *)
Definition os_Stat (name : string) : IO (option error) :=
  bind (perform (sys_stat name)) (fun r =>
  Ret (match r with Some e => Some (PathError "stat" name e) | None => None end)).

End IOModel.
Import IOModel.

Notation "x <- m ;; f" := (bind m (fun x => f))
  (at level 100, m at next level, right associativity).

(* ===================================================================== *)
(** ** One operating system: a file store with a fault schedule *)
(* ===================================================================== *)

Module Posix.

(** A file or a directory: its permission bits and, for a file, its bytes. *)
Record inode := { isdir : bool; mode : FileMode; data : string }.

Definition ENOENT : Errno := 2.
Definition EBADF : Errno := 9.
Definition ENOTDIR : Errno := 20.
Definition EISDIR : Errno := 21.

(** The state of the machine.  [faults] is the fault schedule: the file
    system call number [k] (counted by [clock]) fails with [faults k] when
    that is an error number, whatever the store holds, so every pattern of
    failures (disk full, no permission, ...) is one choice of [faults].
    The last four fields are what the functions that read key and signature
    files answer for each file name. *)
Record World := {
  home : string + error;
  files : gmap string inode;
  umask : Z;
  faults : nat -> option Errno;
  clock : nat;
  nextfd : Z;
  stdout : list (list string);
  keystores : string -> bool -> AccountInfo + error;
  keypairfiles : string -> AccountInfo + error;
  keypairs : string -> string -> KeyPair + error;
  sigfiles : string -> Signature + error }.

(** One file system call done: the store becomes [fs]. *)
Definition step (w : World) (fs : gmap string inode) : World :=
  {| home := home w; files := fs; umask := umask w; faults := faults w;
     clock := S (clock w); nextfd := nextfd w; stdout := stdout w;
     keystores := keystores w; keypairfiles := keypairfiles w;
     keypairs := keypairs w; sigfiles := sigfiles w |}.

Definition opened (w : World) : World :=
  {| home := home w; files := files w; umask := umask w; faults := faults w;
     clock := clock w; nextfd := nextfd w + 1; stdout := stdout w;
     keystores := keystores w; keypairfiles := keypairfiles w;
     keypairs := keypairs w; sigfiles := sigfiles w |}.

Definition printed (w : World) (a : list string) : World :=
  {| home := home w; files := files w; umask := umask w; faults := faults w;
     clock := clock w; nextfd := nextfd w; stdout := stdout w ++ [a];
     keystores := keystores w; keypairfiles := keypairfiles w;
     keypairs := keypairs w; sigfiles := sigfiles w |}.

Arguments step _ _ /.
Arguments opened _ /.
Arguments printed _ _ /.

(** The permission bits a new file or directory gets. *)
Definition created_mode (w : World) (perm : FileMode) : FileMode :=
  Z.land perm (Z.lnot (umask w)).

(** The directories on the way to [path], [path] last. *)
Fixpoint dirs_of (pre s : string) : list string :=
  match s with
  | EmptyString => if String.eqb pre "" then [] else [pre]
  | String c s' =>
      if Ascii.eqb c "/"
      then (if String.eqb pre "" then [] else [pre]) ++ dirs_of (pre +:+ "/") s'
      else dirs_of (pre +:+ String c EmptyString) s'
  end.

(** Making the missing ones among [ds] with mode [m]; a file in the way
    stops it. *)
Fixpoint mkdirs (fs : gmap string inode) (m : FileMode) (ds : list string)
  : gmap string inode * option Errno :=
  match ds with
  | [] => (fs, None)
  | d :: ds' =>
      match fs !! d with
      | None => mkdirs (<[d := {| isdir := true; mode := m; data := "" |}]> fs) m ds'
      | Some i => if isdir i then mkdirs fs m ds' else (fs, Some ENOTDIR)
      end
  end.

Definition has_flag (flag f : Z) : bool := negb (Z.land flag f =? 0).

Definition posix_answer (c : call) (w : World) : ret c * World :=
  match c return ret c * World with
  | homedir_Dir => (home w, w)
  | sys_mkdirall path perm =>
      match faults w (clock w) with
      | Some e => (Some e, step w (files w))
      | None =>
          let '(fs, r) := mkdirs (files w) (created_mode w perm) (dirs_of "" path) in
          (r, step w fs)
      end
  | sys_open name flag perm =>
      match faults w (clock w) with
      | Some e => (inr e, step w (files w))
      | None =>
          match files w !! name with
          | Some i =>
              if isdir i then (inr EISDIR, step w (files w))
              else
                let i' := if has_flag flag O_TRUNC
                          then {| isdir := false; mode := mode i; data := "" |} else i in
                (inl (nextfd w), opened (step w (<[name := i']> (files w))))
          | None =>
              if has_flag flag O_CREATE
              then (inl (nextfd w),
                    opened (step w (<[name := {| isdir := false;
                                                 mode := created_mode w perm;
                                                 data := "" |}]> (files w))))
              else (inr ENOENT, step w (files w))
          end
      end
  | sys_write f b =>
      match faults w (clock w) with
      | Some e => (Some e, step w (files w))
      | None =>
          match files w !! f_name f with
          | Some i =>
              (None, step w (<[f_name f := {| isdir := isdir i; mode := mode i;
                                              data := data i +:+ b |}]> (files w)))
          | None => (Some EBADF, step w (files w))
          end
      end
  | sys_close f =>
      match faults w (clock w) with
      | Some e => (Some e, step w (files w))
      | None => (None, step w (files w))
      end
  | sys_stat name =>
      match faults w (clock w) with
      | Some e => (Some e, step w (files w))
      | None =>
          match files w !! name with
          | Some _ => (None, step w (files w))
          | None => (Some ENOENT, step w (files w))
          end
      end
  | fmt_Println a => (tt, printed w a)
  | loadAccountFromKeyStore fileName ensureDecrypt => (keystores w fileName ensureDecrypt, w)
  | loadAccountFromKeyPair fileName => (keypairfiles w fileName, w)
  | sdk_LoadKeyPair privKeyFile algo => (keypairs w privKeyFile algo, w)
  | sdk_LoadProtoStructFromJSONFile fileName => (sigfiles w fileName, w)
  end.

Definition posix : OS World := {| answer := posix_answer |}.

(** There is a file or a directory of that name. *)
Definition exists_file (w : World) (name : string) : bool :=
  match files w !! name with Some _ => true | None => false end.

End Posix.
Import Posix.

(* ===================================================================== *)
(** ** utils.go *)
(* ===================================================================== *)

Module Iwallet.

(** <<
    func checkSigners(signers []string) error {
        for _, s := range signers {
            if !(len(strings.Split(s, "@")) == 2) {
                return fmt.Errorf("signer %v should contain '@'", s)
            }
        }
        return nil
    }
>> *)
Fixpoint checkSigners (signers : list string) : option error :=
  match signers with
  | [] => None
  | s :: rest =>
      if negb (Nat.eqb (List.length (Split s "@")) 2)
      then Some (Errorf "signer %v should contain '@'" [VString s])
      else checkSigners rest
  end.

(** <<
    func GetSignAlgoByName(name string) crypto.Algorithm {
        switch name {
        case "secp256k1": return crypto.Secp256k1
        case "ed25519":   return crypto.Ed25519
        default:          return crypto.Ed25519
        }
    }
>> *)
Definition GetSignAlgoByName (name : string) : Algorithm :=
  if String.eqb name "secp256k1" then Secp256k1
  else if String.eqb name "ed25519" then Ed25519
  else Ed25519.

(** <<
    func getAccountDir() (string, error) {
        home, err := homedir.Dir()
        if err != nil { return "", err }
        return home + "/.iwallet", nil
    }
>> *)
Definition getAccountDir : IO (string + error) :=
  r <- perform homedir_Dir ;;
  match r with
  | inr err => Ret (inr err)
  | inl home => Ret (inl (home +:+ "/.iwallet"))
  end.

(** [var ValidSignAlgos = []string{"ed25519", "secp256k1"}] *)
Definition ValidSignAlgos : list string := ["ed25519"; "secp256k1"].

(** The loop of [loadAccountByName] over the algorithm names:
<<
    for _, algo := range ValidSignAlgos {
        fileName := accountDir + "/" + name + "_" + algo
        if _, err := os.Stat(fileName); err == nil {
            return loadAccountFromKeyPair(fileName)
        }
    }
    return nil, fmt.Errorf("account not exist")
>> *)
Fixpoint loadAccountByName_algos (accountDir name : string) (algos : list string)
  : IO (AccountInfo + error) :=
  match algos with
  | [] => Ret (inr (Errorf "account not exist" []))
  | algo :: rest =>
      let fileName := accountDir +:+ "/" +:+ name +:+ "_" +:+ algo in
      err <- os_Stat fileName ;;
      match err with
      | None => perform (loadAccountFromKeyPair fileName)
      | Some _ => loadAccountByName_algos accountDir name rest
      end
  end.

(** <<
    func loadAccountByName(name string, ensureDecrypt bool) ( *AccountInfo, error) {
        accountDir, err := getAccountDir()
        if err != nil { return nil, err }
        fileName := accountDir + "/" + name + ".json"
        if _, err := os.Stat(fileName); err == nil {
            return loadAccountFromKeyStore(fileName, ensureDecrypt)
        }
        for _, algo := range ValidSignAlgos { ... }
        return nil, fmt.Errorf("account not exist")
    }
>> *)
Definition loadAccountByName (name : string) (ensureDecrypt : bool) : IO (AccountInfo + error) :=
  r <- getAccountDir ;;
  match r with
  | inr err => Ret (inr err)
  | inl accountDir =>
      let fileName := accountDir +:+ "/" +:+ name +:+ ".json" in
      err <- os_Stat fileName ;;
      match err with
      | None => perform (loadAccountFromKeyStore fileName ensureDecrypt)
      | Some _ => loadAccountByName_algos accountDir name ValidSignAlgos
      end
  end.

(** The name of the private key file [SaveAccount] writes:
<<
    fileName := dir + "/" + name
    if kp.Algorithm == crypto.Ed25519 { fileName += "_ed25519" }
    if kp.Algorithm == crypto.Secp256k1 { fileName += "_secp256k1" }
>> *)
Definition keyFileName (dir name : string) (kp : KeyPair) : string :=
  let fileName := dir +:+ "/" +:+ name in
  let fileName := match Algorithm_ kp with Ed25519 => fileName +:+ "_ed25519" | _ => fileName end in
  let fileName := match Algorithm_ kp with Secp256k1 => fileName +:+ "_secp256k1" | _ => fileName end in
  fileName.

Section Collaborators.

(** [common.Base58Encode]. *)
Variable Base58Encode : bytes -> string.

(** <<
    func SaveAccount(name string, kp *account.KeyPair) error {
        dir, err := getAccountDir()
        if err != nil { return err }
        err = os.MkdirAll(dir, 0700)
        if err != nil { return err }
        fileName := ...
        pubfile, err := os.Create(fileName + ".pub")
        if err != nil {
            return fmt.Errorf("create file %v err %v", fileName+".pub", err)
        }
        defer pubfile.Close()
        _, err = pubfile.WriteString(common.Base58Encode(kp.Pubkey))
        if err != nil { return err }
        secFile, err := os.OpenFile(fileName, os.O_RDWR|os.O_CREATE|os.O_TRUNC, 0400)
        if err != nil {
            return fmt.Errorf("create file %v err %v", fileName, err)
        }
        defer secFile.Close()
        _, err = secFile.WriteString(common.Base58Encode(kp.Seckey))
        if err != nil { return err }
        fmt.Println("Your account private key is saved at:", fileName)
        return nil
    }
>> *)
Definition SaveAccount (name : string) (kp : KeyPair) : IO (option error) :=
  r <- getAccountDir ;;
  match r with
  | inr err => Ret (Some err)
  | inl dir =>
  err <- os_MkdirAll dir (octal [7;0;0]) ;;
  match err with
  | Some err => Ret (Some err)
  | None =>
  let fileName := keyFileName dir name kp in
  r <- os_Create (fileName +:+ ".pub") ;;
  match r with
  | inr err =>
      Ret (Some (Errorf "create file %v err %v" [VString (fileName +:+ ".pub"); VError err]))
  | inl pubfile =>
  defer (File_Close pubfile) (
  err <- File_WriteString pubfile (Base58Encode (Pubkey kp)) ;;
  match err with
  | Some err => Ret (Some err)
  | None =>
  r <- os_OpenFile fileName (Z.lor O_RDWR (Z.lor O_CREATE O_TRUNC)) (octal [4;0;0]) ;;
  match r with
  | inr err => Ret (Some (Errorf "create file %v err %v" [VString fileName; VError err]))
  | inl secFile =>
  defer (File_Close secFile) (
  err <- File_WriteString secFile (Base58Encode (Seckey kp)) ;;
  match err with
  | Some err => Ret (Some err)
  | None =>
  _ <- perform (fmt_Println ["Your account private key is saved at:"; fileName]) ;;
  Ret None
  end)
  end
  end)
  end
  end
  end.

(** The type of the transaction fields utils.go does not look into, the
    package variable [signAlgo], and the capabilities of package [sdk] that
    compute on values: [sdk.GetSignatureOfTx] and [sdk.VerifySigForTx]. *)
Variable Payload : Type.
Variable signAlgo : string.
Variable GetSignatureOfTx : TransactionRequest Payload -> KeyPair -> Signature.
Variable VerifySigForTx : TransactionRequest Payload -> Signature -> bool.

(** <<
    func LoadKeyPair(name string) ( *account.KeyPair, error) {
        if name == "" { return nil, fmt.Errorf("you must provide account name") }
        dir, err := getAccountDir()
        if err != nil { return nil, err }
        privKeyFile := fmt.Sprintf("%s/%s_%s", dir, name, signAlgo)
        return sdk.LoadKeyPair(privKeyFile, signAlgo)
    }
>> *)
Definition LoadKeyPair (name : string) : IO (KeyPair + error) :=
  if String.eqb name "" then Ret (inr (Errorf "you must provide account name" []))
  else
    r <- getAccountDir ;;
    match r with
    | inr err => Ret (inr err)
    | inl dir =>
        let privKeyFile := dir +:+ "/" +:+ name +:+ "_" +:+ signAlgo in
        perform (sdk_LoadKeyPair privKeyFile signAlgo)
    end.

(** The signing loop of [handleMultiSig]:
<<
    for _, f := range signKeys {
        kp, err := sdk.LoadKeyPair(f, signAlgo)
        if err != nil {
            return fmt.Errorf("sign tx with priv key %v err %v", f, err)
        }
        sigs = append(sigs, sdk.GetSignatureOfTx(t, kp))
    }
>> *)
Fixpoint handleMultiSig_sign (t : TransactionRequest Payload) (signKeys : list string)
    (sigs : list Signature) : IO (list Signature + error) :=
  match signKeys with
  | [] => Ret (inl sigs)
  | f :: rest =>
      r <- perform (sdk_LoadKeyPair f signAlgo) ;;
      match r with
      | inr err =>
          Ret (inr (Errorf "sign tx with priv key %v err %v" [VString f; VError err]))
      | inl kp => handleMultiSig_sign t rest (sigs ++ [GetSignatureOfTx t kp])
      end
  end.

(** The loop of [handleMultiSig] over signature files:
<<
    for _, f := range withSigns {
        sig := &rpcpb.Signature{}
        err := sdk.LoadProtoStructFromJSONFile(f, sig)
        if err != nil { return fmt.Errorf("invalid signature file %v", f) }
        if !sdk.VerifySigForTx(t, sig) { return fmt.Errorf("sign verify error %v", f) }
        sigs = append(sigs, sig)
    }
>> *)
Fixpoint handleMultiSig_attach (t : TransactionRequest Payload) (withSigns : list string)
    (sigs : list Signature) : IO (list Signature + error) :=
  match withSigns with
  | [] => Ret (inl sigs)
  | f :: rest =>
      r <- perform (sdk_LoadProtoStructFromJSONFile f) ;;
      match r with
      | inr _ => Ret (inr (Errorf "invalid signature file %v" [VString f]))
      | inl sig =>
          if negb (VerifySigForTx t sig)
          then Ret (inr (Errorf "sign verify error %v" [VString f]))
          else handleMultiSig_attach t rest (sigs ++ [sig])
      end
  end.

(** <<
    func handleMultiSig(t *rpcpb.TransactionRequest, withSigns []string, signKeys []string) error {
        sigs := make([]*rpcpb.Signature, 0)
        if len(withSigns) != 0 && len(signKeys) != 0 {
            return fmt.Errorf("at least one of --sign_keys and --with_signs should be empty")
        }
        if len(signKeys) > 0 {
            for ... // handleMultiSig_sign
        } else if len(withSigns) > 0 {
            for ... // handleMultiSig_attach
        }
        t.Signatures = sigs
        return nil
    }
>>
    The transaction is passed by pointer: the model returns it with the error. *)
Definition handleMultiSig (t : TransactionRequest Payload) (withSigns signKeys : list string)
  : IO (TransactionRequest Payload * option error) :=
  let sigs : list Signature := [] in
  if negb (Nat.eqb (List.length withSigns) 0) && negb (Nat.eqb (List.length signKeys) 0)
  then Ret (t, Some (Errorf "at least one of --sign_keys and --with_signs should be empty" []))
  else
    r <- (if Nat.ltb 0 (List.length signKeys) then handleMultiSig_sign t signKeys sigs
          else if Nat.ltb 0 (List.length withSigns) then handleMultiSig_attach t withSigns sigs
          else Ret (inl sigs)) ;;
    match r with
    | inr err => Ret (t, Some err)
    | inl sigs => Ret ({| Content := Content t; Signatures := sigs |}, None)
    end.

(** [strconv.ParseFloat], as [ParseAmountLimit] is given it. *)
Variable strconv_ParseFloat : string -> Z -> float64 * option error.

(** The loop of [ParseAmountLimit]:
<<
    for _, gram := range splits {
        limit := strings.Split(gram, ":")
        if len(limit) != 2 {
            return nil, fmt.Errorf("invalid amount limit %v", gram)
        }
        token := limit[0]
        if limit[1] != "unlimited" {
            amountLimit, err := strconv.ParseFloat(limit[1], 64)
            if err != nil {
                return nil, fmt.Errorf("invalid amount limit %v %v", amountLimit, err)
            }
        }
        tokenLimit := &rpcpb.AmountLimit{}
        tokenLimit.Token = token
        tokenLimit.Value = limit[1]
        result = append(result, tokenLimit)
    }
    return result, nil
>> *)
Fixpoint ParseAmountLimit_loop (splits : list string) (result : list AmountLimit)
  : list AmountLimit * option error :=
  match splits with
  | [] => (result, None)
  | gram :: rest =>
      match Split gram ":" with
      | [token; value] =>
          let tokenLimit := {| Token := token; Value := value |} in
          if negb (String.eqb value "unlimited") then
            let '(amountLimit, err) := strconv_ParseFloat value 64 in
            match err with
            | Some err =>
                ([], Some (Errorf "invalid amount limit %v %v" [VFloat amountLimit; VError err]))
            | None => ParseAmountLimit_loop rest (result ++ [tokenLimit])
            end
          else ParseAmountLimit_loop rest (result ++ [tokenLimit])
      | _ => ([], Some (Errorf "invalid amount limit %v" [VString gram]))
      end
  end.

(** <<
    func ParseAmountLimit(limitStr string) ([]*rpcpb.AmountLimit, error) {
        result := make([]*rpcpb.AmountLimit, 0)
        if limitStr == "" { return result, nil }
        splits := strings.Split(limitStr, "|")
        for ... // ParseAmountLimit_loop
        return result, nil
    }
>> *)
Definition ParseAmountLimit (limitStr : string) : list AmountLimit * option error :=
  let result : list AmountLimit := [] in
  if String.eqb limitStr "" then (result, None)
  else ParseAmountLimit_loop (Split limitStr "|") result.

End Collaborators.

End Iwallet.
Import Iwallet.

(* ===================================================================== *)
(** ** More of the Go library *)
(* ===================================================================== *)

Module GoMore.

(** A Go function returns, or it panics (an index or a slice bound out of
    range). *)
Inductive may_panic (A : Type) : Type :=
| Returns (a : A)
| Panics.
Arguments Returns {A} a.
Arguments Panics {A}.

(** [strings.LastIndex(s, substr)]: the index of the last place where
    [substr] stands in [s], or -1; the empty string stands last at the end
    of [s].  [LastIndex_at i s substr] looks through [s], whose first byte
    has index [i]. *)
Fixpoint LastIndex_at (i : Z) (s substr : string) : Z :=
  match s with
  | EmptyString => if String.prefix substr s then i else -1
  | String _ s' =>
      let r := LastIndex_at (i + 1) s' substr in
      if r =? -1 then (if String.prefix substr s then i else -1) else r
  end.

Definition LastIndex (s substr : string) : Z := LastIndex_at 0 s substr.

(** [strings.HasSuffix(s, suffix)]:
    [len(s) >= len(suffix) && s[len(s)-len(suffix):] == suffix]. *)
Definition HasSuffix (s suffix : string) : bool :=
  (String.length suffix <=? String.length s)%nat
  && String.eqb (substring (String.length s - String.length suffix)
                           (String.length suffix) s) suffix.

(** The slice expression [s[a:b]] on a string: it panics unless
    [0 <= a <= b <= len(s)]. *)
Definition slice (s : string) (a b : Z) : may_panic string :=
  if (0 <=? a) && (a <=? b) && (b <=? strlen s)
  then Returns (substring (Z.to_nat a) (Z.to_nat (b - a)) s)
  else Panics.

(** The slice expression [l[n:]] on a slice: it panics when [n > len(l)]. *)
Definition slice_from {A : Type} (l : list A) (n : nat) : may_panic (list A) :=
  if (n <=? List.length l)%nat then Returns (skipn n l) else Panics.

(** What [%v] prints for a [[]string]: the elements between brackets,
    separated by spaces. *)
Definition fmt_v_strings (l : list string) : string :=
  "[" +:+ String.concat " " l +:+ "]".

(** The double quote, for format strings that hold one. *)
Definition dquote : string := String (ascii_of_nat 34) EmptyString.

(** [os.PathSeparator], as a string. *)
Definition PathSeparator : string := "/".

(** [os.FileInfo], as far as utils.go asks: [Name()] and [IsDir()]. *)
Record FileInfo := { fi_Name : string; fi_IsDir : bool }.

End GoMore.
Import GoMore.

(* ===================================================================== *)
(** ** utils.go: the other functions *)
(* ===================================================================== *)

Module IwalletMore.

(** What the checks of the command line write: the help text of the
    command ([cmd.Help()]) and lines on standard output. *)
Inductive output : Type :=
| cmd_Help
| Println (a : list string).

(** <<
    func checkArgsNumber(cmd *cobra.Command, args []string, argNames ...string) error {
        if len(args) < len(argNames) {
            cmd.Help()
            fmt.Println()
            return fmt.Errorf("missing positional argument: %v", argNames[len(args):])
        }
        return nil
    }
>>
    The model returns what was written with the error. *)
Definition checkArgsNumber (args argNames : list string)
  : may_panic (list output * option error) :=
  if (List.length args <? List.length argNames)%nat then
    match slice_from argNames (List.length args) with
    | Returns missing =>
        Returns ([cmd_Help; Println []],
                 Some (Errorf "missing positional argument: %v"
                         [VString (fmt_v_strings missing)]))
    | Panics => Panics
    end
  else Returns ([], None).

(** <<
    func checkAccount(cmd *cobra.Command) error {
        if accountName == "" {
            cmd.Help()
            fmt.Println()
            return fmt.Errorf("please provide the account name with flag --account")
        }
        return nil
    }
>>
    [accountName] is a variable of the package. *)
Definition checkAccount (accountName : string) : list output * option error :=
  if String.eqb accountName ""
  then ([cmd_Help; Println []],
        Some (Errorf "please provide the account name with flag --account" []))
  else ([], None).

(** <<
    func checkFloat(cmd *cobra.Command, arg string, argName string) error {
        _, err := strconv.ParseFloat(arg, 64)
        if err != nil {
            cmd.Help()
            fmt.Println()
            return fmt.Errorf(`invalid value "%v" for argument "%v": %v`, arg, argName, err)
        }
        return nil
    }
>> *)
Definition checkFloat (strconv_ParseFloat : string -> Z -> float64 * option error)
    (arg argName : string) : list output * option error :=
  match snd (strconv_ParseFloat arg 64) with
  | Some err =>
      ([cmd_Help; Println []],
       Some (Errorf ("invalid value " +:+ dquote +:+ "%v" +:+ dquote +:+ " for argument "
                     +:+ dquote +:+ "%v" +:+ dquote +:+ ": %v")
               [VString arg; VString argName; VError err]))
  | None => ([], None)
  end.

Section Actions.

(** [rpcpb.Action] and [sdk.NewAction(contract, name, data)]. *)
Variable Action : Type.
Variable NewAction : string -> string -> string -> Action.

(** The loop of [actionsFromFlags]:
<<
    for i := 0; i < len(args); i += 3 {
        act := sdk.NewAction(args[i], args[i+1], args[i+2])
        actions = append(actions, act)
    }
>>
    [rest] is [args[i:]]: the loop stops when it is empty, and panics when
    it holds one or two strings only ([args[i+1]] or [args[i+2]] is out of
    range). *)
Fixpoint actionsFromFlags_loop (rest : list string) (actions : list Action)
  : may_panic (list Action) :=
  match rest with
  | [] => Returns actions
  | a :: b :: c :: rest' => actionsFromFlags_loop rest' (actions ++ [NewAction a b c])
  | _ => Panics
  end.

(** <<
    func actionsFromFlags(args []string) ([]*rpcpb.Action, error) {
        argc := len(args)
        if argc%3 != 0 {
            return nil, fmt.Errorf(`number of args should be a multiplier of 3`)
        }
        var actions = make([]*rpcpb.Action, 0)
        for ... // actionsFromFlags_loop
        return actions, nil
    }
>> *)
Definition actionsFromFlags (args : list string) : may_panic (list Action * option error) :=
  let argc := List.length args in
  if negb (Nat.eqb (argc mod 3) 0)
  then Returns ([], Some (Errorf "number of args should be a multiplier of 3" []))
  else match actionsFromFlags_loop args [] with
       | Returns actions => Returns (actions, None)
       | Panics => Panics
       end.

End Actions.

(** <<
    func getAccountNameFromKeyPath(file string, suf string) (string, error) {
        f := file
        startIndex := strings.LastIndex(f, "/")
        lastIndex := strings.LastIndex(f, suf)
        if lastIndex == -1 {
            return "", fmt.Errorf("file name error, no %v in %v", suf, f)
        }
        return f[startIndex+1 : lastIndex], nil
    }
>> *)
Definition getAccountNameFromKeyPath (file suf : string) : may_panic (string * option error) :=
  let f := file in
  let startIndex := LastIndex f "/" in
  let lastIndex := LastIndex f suf in
  if lastIndex =? -1
  then Returns ("", Some (Errorf "file name error, no %v in %v" [VString suf; VString f]))
  else match slice f (startIndex + 1) lastIndex with
       | Returns name => Returns (name, None)
       | Panics => Panics
       end.

Section Directories.

(** [ioutil.ReadDir(dirname)]: the entries of a directory, or an error. *)
Variable ioutil_ReadDir : string -> list FileInfo + error.

(** The loop of [getFilesAndDirs]:
<<
    for _, fi := range dir {
        if !fi.IsDir() {
            ok := strings.HasSuffix(fi.Name(), suf)
            if ok {
                files = append(files, dirPth+PthSep+fi.Name())
            }
        }
    }
>> *)
Fixpoint getFilesAndDirs_loop (dirPth suf : string) (dir : list FileInfo) (files : list string)
  : list string :=
  match dir with
  | [] => files
  | fi :: rest =>
      if negb (fi_IsDir fi) then
        if HasSuffix (fi_Name fi) suf
        then getFilesAndDirs_loop dirPth suf rest
               (files ++ [dirPth +:+ PathSeparator +:+ fi_Name fi])
        else getFilesAndDirs_loop dirPth suf rest files
      else getFilesAndDirs_loop dirPth suf rest files
  end.

(** <<
    func getFilesAndDirs(dirPth string, suf string) (files []string, err error) {
        dir, err := ioutil.ReadDir(dirPth)
        if err != nil { return nil, err }
        PthSep := string(os.PathSeparator)
        for ... // getFilesAndDirs_loop
        return files, nil
    }
>> *)
Definition getFilesAndDirs (dirPth suf : string) : list string * option error :=
  match ioutil_ReadDir dirPth with
  | inr err => ([], Some err)
  | inl dir => (getFilesAndDirs_loop dirPth suf dir [], None)
  end.

End Directories.

Section SDK.

(** The state of an [*sdk.IOSTDevSDK] with its method [SetAccount], the
    method [toKeyPair] of the key pairs an account holds, and the package
    variables [accountName] and [signPerm]. *)
Variable SDK : Type.
Variable SetAccount : SDK -> string -> KeyPair -> SDK.
Variable toKeyPair : KeyPair -> KeyPair + error.
Variable accountName : string.
Variable signPerm : string.

(** <<
    func LoadAndSetAccountForSDK(s *sdk.IOSTDevSDK) error {
        a, err := loadAccountByName(accountName, true)
        if err != nil { return err }
        kp, ok := a.Keypairs[signPerm]
        if !ok { return fmt.Errorf("invalid permission %v", signPerm) }
        keyPair, err := kp.toKeyPair()
        if err != nil { return err }
        s.SetAccount(accountName, keyPair)
        return nil
    }
>>
    The SDK is passed by pointer: the model returns it with the error. *)
Definition LoadAndSetAccountForSDK (s : SDK) : IO (SDK * option error) :=
  r <- loadAccountByName accountName true ;;
  match r with
  | inr err => Ret (s, Some err)
  | inl a =>
      match Keypairs a !! signPerm with
      | None => Ret (s, Some (Errorf "invalid permission %v" [VString signPerm]))
      | Some kp =>
          match toKeyPair kp with
          | inr err => Ret (s, Some err)
          | inl keyPair => Ret (SetAccount s accountName keyPair, None)
          end
      end
  end.

(** <<
    func InitAccount() error {
        return LoadAndSetAccountForSDK(iwalletSDK)
    }
>>
    [iwalletSDK] is a variable of the package. *)
Definition InitAccount (iwalletSDK : SDK) : IO (SDK * option error) :=
  LoadAndSetAccountForSDK iwalletSDK.

End SDK.

End IwalletMore.
Import IwalletMore.

(* ===================================================================== *)
(** ** A sample machine *)
(* ===================================================================== *)

Module Sample.

Import Init.Byte.

Fixpoint bytes_eqb (a b : bytes) : bool :=
  match a, b with
  | [], [] => true
  | x :: a', y :: b' => Byte.eqb x y && bytes_eqb a' b'
  | _, _ => false
  end.

(** A stand-in for the signature scheme: the signature of a transaction is
    the public key followed by the transaction's content. *)
Definition sign (t : TransactionRequest bytes) (kp : KeyPair) : Signature :=
  {| sig_Algorithm := Algorithm_ kp;
     sig_Signature := Pubkey kp ++ Content t;
     sig_PublicKey := Pubkey kp |}.

Definition verify (t : TransactionRequest bytes) (sig : Signature) : bool :=
  bytes_eqb (sig_Signature sig) (sig_PublicKey sig ++ Content t).

(** A stand-in for base58: one letter per byte. *)
Definition base58 (b : bytes) : string :=
  string_of_list_ascii (map (fun x => ascii_of_N (Byte.to_N x)) b).

Definition alice : KeyPair := {| Algorithm_ := Ed25519; Pubkey := [x41; x42]; Seckey := [x61; x62] |}.
Definition bob : KeyPair := {| Algorithm_ := Secp256k1; Pubkey := [x43]; Seckey := [x63] |}.

Definition tx : TransactionRequest bytes := {| Content := [x74; x78]; Signatures := [] |}.

(** A signature of another transaction. *)
Definition stale : Signature :=
  {| sig_Algorithm := Ed25519; sig_Signature := [x41; x42; x00]; sig_PublicKey := [x41; x42] |}.

(** Home directory [/home/u], an empty file store under umask 022, key
    files [alice.key] and [bob.key], signature files [alice.sig] and
    [bob.sig] for [tx], and [stale.sig]; [junk.sig] does not parse. *)
Definition machine (fl : nat -> option Errno) : World :=
  {| home := inl "/home/u"; files := ∅; umask := octal [0;2;2]; faults := fl;
     clock := 0; nextfd := 3; stdout := [];
     keystores := fun _ _ => inr (errorString "no such file");
     keypairfiles := fun _ => inr (errorString "no such file");
     keypairs := fun f _ =>
       if String.eqb f "alice.key" then inl alice
       else if String.eqb f "bob.key" then inl bob
       else inr (errorString "no such file");
     sigfiles := fun f =>
       if String.eqb f "alice.sig" then inl (sign tx alice)
       else if String.eqb f "bob.sig" then inl (sign tx bob)
       else if String.eqb f "stale.sig" then inl stale
       else inr (errorString "unexpected end of JSON input") |}.

(** The same machine with the files named [fs] in its store, on which the
    account loaders answer an account named after the file they read. *)
Definition machine_with (fs : list string) (fl : nat -> option Errno) : World :=
  {| home := inl "/home/u";
     files := list_to_map (map (fun f => (f, {| isdir := false; mode := octal [6;0;0]; data := "" |})) fs);
     umask := octal [0;2;2]; faults := fl;
     clock := 0; nextfd := 3; stdout := [];
     keystores := fun f _ => inl {| Name := "keystore " +:+ f; Keypairs := ∅ |};
     keypairfiles := fun f => inl {| Name := "key file " +:+ f; Keypairs := ∅ |};
     keypairs := fun _ _ => inr (errorString "no such file");
     sigfiles := fun _ => inr (errorString "no such file") |}.

Definition no_fault : nat -> option Errno := fun _ => None.

(** The disk is full ([ENOSPC], 28) at the file system call number [k]. *)
Definition full_at (k : nat) : nat -> option Errno :=
  fun n => if Nat.eqb n k then Some 28 else None.

End Sample.

(* ===================================================================== *)
(** ** The vocabulary of the statements *)
(* ===================================================================== *)

(** The shape of an accepted group: [token:value] with one colon in all. *)
Definition group_of (gram : string) (lim : AmountLimit) : Prop :=
  gram = Token lim +:+ ":" +:+ Value lim
  /\ Count (Token lim) ":" = 0%nat /\ Count (Value lim) ":" = 0%nat.

(** An accepted group: of that shape, and the value is the word
    [unlimited] or a string [pf] parses without error. *)
Definition limit_of (pf : string -> Z -> float64 * option error)
    (gram : string) (lim : AmountLimit) : Prop :=
  group_of gram lim
  /\ (Value lim = "unlimited" \/ snd (pf (Value lim) 64) = None).

(** One round of the loop of [ParseAmountLimit]. *)
Definition parse_group (pf : string -> Z -> float64 * option error)
    (gram : string) : AmountLimit + error :=
  match Split gram ":" with
  | [token; value] =>
      if negb (String.eqb value "unlimited") then
        match snd (pf value 64) with
        | Some err => inr (Errorf "invalid amount limit %v %v"
                                  [VFloat (fst (pf value 64)); VError err])
        | None => inl {| Token := token; Value := value |}
        end
      else inl {| Token := token; Value := value |}
  | _ => inr (Errorf "invalid amount limit %v" [VString gram])
  end.

(** A float that is a number and not an infinity. *)
Definition is_finite (f : float64) : bool :=
  match f with
  | S754_zero _ | S754_finite _ _ _ => true
  | S754_infinity _ | S754_nan => false
  end.

(** The events of a key file that loads and of a signature file that loads. *)
Definition key_loaded (signAlgo f : string) (kp : KeyPair) : event :=
  ev (sdk_LoadKeyPair f signAlgo) (inl kp).
Definition sig_loaded (f : string) (sig : Signature) : event :=
  ev (sdk_LoadProtoStructFromJSONFile f) (inl sig).

(** What comes after the loops: an error leaves the transaction alone,
    otherwise the signatures are stored ([t.Signatures = sigs]). *)
Definition commit {Payload : Type} (t : TransactionRequest Payload)
    (r : list Signature + error)
  : IO (TransactionRequest Payload * option error) :=
  match r with
  | inr err => Ret (t, Some err)
  | inl sigs => Ret ({| Content := Content t; Signatures := sigs |}, None)
  end.

(** The flags [SaveAccount] opens both files with. *)
Definition create_flags : Z := Z.lor O_RDWR (Z.lor O_CREATE O_TRUNC).

(** The key file names of an account under a home directory. *)
Definition sec_of (home name : string) (kp : KeyPair) : string :=
  keyFileName (home +:+ "/.iwallet") name kp.
Definition pub_of (home name : string) (kp : KeyPair) : string :=
  sec_of home name kp +:+ ".pub".

(** The ways a call of [SaveAccount] can go, each with the error returned
    and the calls made: [home] is the home directory, [e] an error number,
    [fd] and [fd'] the descriptors of the two files, [cl] and [cl'] what
    closing them answered. *)
Inductive SaveAccount_outcome (Base58Encode : bytes -> string) (name : string) (kp : KeyPair)
  : option error -> list event -> Prop :=
| save_no_home (err : error) :
    SaveAccount_outcome Base58Encode name kp (Some err) [ev homedir_Dir (inr err)]
| save_mkdir_failed (home : string) (e : Errno) :
    let dir := home +:+ "/.iwallet" in
    SaveAccount_outcome Base58Encode name kp (Some (PathError "mkdir" dir e))
      [ev homedir_Dir (inl home); ev (sys_mkdirall dir (octal [7;0;0])) (Some e)]
| save_pub_create_failed (home : string) (e : Errno) :
    let dir := home +:+ "/.iwallet" in
    let pub := keyFileName dir name kp +:+ ".pub" in
    SaveAccount_outcome Base58Encode name kp
      (Some (Errorf "create file %v err %v" [VString pub; VError (PathError "open" pub e)]))
      [ev homedir_Dir (inl home); ev (sys_mkdirall dir (octal [7;0;0])) None;
       ev (sys_open pub create_flags (octal [6;6;6])) (inr e)]
| save_pub_write_failed (home : string) (fd : Z) (e : Errno) (cl : option Errno) :
    let dir := home +:+ "/.iwallet" in
    let pub := keyFileName dir name kp +:+ ".pub" in
    let pubfile := {| f_name := pub; f_fd := fd |} in
    SaveAccount_outcome Base58Encode name kp (Some (PathError "write" pub e))
      [ev homedir_Dir (inl home); ev (sys_mkdirall dir (octal [7;0;0])) None;
       ev (sys_open pub create_flags (octal [6;6;6])) (inl fd);
       ev (sys_write pubfile (Base58Encode (Pubkey kp))) (Some e);
       ev (sys_close pubfile) cl]
| save_sec_create_failed (home : string) (fd : Z) (e : Errno) (cl : option Errno) :
    let dir := home +:+ "/.iwallet" in
    let sec := keyFileName dir name kp in
    let pub := sec +:+ ".pub" in
    let pubfile := {| f_name := pub; f_fd := fd |} in
    SaveAccount_outcome Base58Encode name kp
      (Some (Errorf "create file %v err %v" [VString sec; VError (PathError "open" sec e)]))
      [ev homedir_Dir (inl home); ev (sys_mkdirall dir (octal [7;0;0])) None;
       ev (sys_open pub create_flags (octal [6;6;6])) (inl fd);
       ev (sys_write pubfile (Base58Encode (Pubkey kp))) None;
       ev (sys_open sec create_flags (octal [4;0;0])) (inr e);
       ev (sys_close pubfile) cl]
| save_sec_write_failed (home : string) (fd fd' : Z) (e : Errno) (cl cl' : option Errno) :
    let dir := home +:+ "/.iwallet" in
    let sec := keyFileName dir name kp in
    let pub := sec +:+ ".pub" in
    let pubfile := {| f_name := pub; f_fd := fd |} in
    let secFile := {| f_name := sec; f_fd := fd' |} in
    SaveAccount_outcome Base58Encode name kp (Some (PathError "write" sec e))
      [ev homedir_Dir (inl home); ev (sys_mkdirall dir (octal [7;0;0])) None;
       ev (sys_open pub create_flags (octal [6;6;6])) (inl fd);
       ev (sys_write pubfile (Base58Encode (Pubkey kp))) None;
       ev (sys_open sec create_flags (octal [4;0;0])) (inl fd');
       ev (sys_write secFile (Base58Encode (Seckey kp))) (Some e);
       ev (sys_close secFile) cl'; ev (sys_close pubfile) cl]
| save_done (home : string) (fd fd' : Z) (cl cl' : option Errno) :
    let dir := home +:+ "/.iwallet" in
    let sec := keyFileName dir name kp in
    let pub := sec +:+ ".pub" in
    let pubfile := {| f_name := pub; f_fd := fd |} in
    let secFile := {| f_name := sec; f_fd := fd' |} in
    SaveAccount_outcome Base58Encode name kp None
      [ev homedir_Dir (inl home); ev (sys_mkdirall dir (octal [7;0;0])) None;
       ev (sys_open pub create_flags (octal [6;6;6])) (inl fd);
       ev (sys_write pubfile (Base58Encode (Pubkey kp))) None;
       ev (sys_open sec create_flags (octal [4;0;0])) (inl fd');
       ev (sys_write secFile (Base58Encode (Seckey kp))) None;
       ev (fmt_Println ["Your account private key is saved at:"; sec]) tt;
       ev (sys_close secFile) cl'; ev (sys_close pubfile) cl].

(** What a run of [SaveAccount] keeps true of the store, against the store
    [fs0] it started from: a directory that was not there has mode 0700
    less the umask, and the private key file [sec], if it was not there,
    mode 0400 less the umask. *)
Definition new_modes_ok (fs0 : gmap string inode) (um : Z) (sec : string) (w : World) : Prop :=
  umask w = um
  /\ forall p i, fs0 !! p = None -> files w !! p = Some i ->
       if isdir i then mode i = Z.land (octal [7;0;0]) (Z.lnot um)
       else p = sec -> mode i = Z.land (octal [4;0;0]) (Z.lnot um).

(** The calls that keep it: directories are made with 0700 and [sec] is
    opened with 0400. *)
Definition save_call (sec : string) (c : call) : Prop :=
  match c with
  | sys_mkdirall _ perm => perm = octal [7;0;0]
  | sys_open n _ perm => n = sec -> perm = octal [4;0;0]
  | _ => True
  end.

(** The public key file [pub] holds [b]. *)
Definition holds (pub b : string) (w : World) : Prop :=
  exists i, files w !! pub = Some i /\ data i = b /\ isdir i = false.

(** The calls that leave [pub] alone. *)
Definition spares (pub : string) (c : call) : Prop :=
  match c with
  | sys_open n _ _ => n <> pub
  | sys_write f _ => f_name f <> pub
  | _ => True
  end.

(** [sub] stands somewhere in [s]. *)
Definition occurs (sub s : string) : Prop := exists a b, s = a +:+ sub +:+ b.

(** The group an entry of an amount limit list is written as. *)
Definition group_text (lim : AmountLimit) : string := Token lim +:+ ":" +:+ Value lim.

(** The suffix [SaveAccount] gives the key file of a key pair. *)
Definition algo_suffix (kp : KeyPair) : string :=
  match Algorithm_ kp with
  | Ed25519 => "_ed25519"
  | Secp256k1 => "_secp256k1"
  end.

(** The path [getFilesAndDirs] gives a directory entry. *)
Definition entry_path (dirPth : string) (fi : FileInfo) : string :=
  dirPth +:+ PathSeparator +:+ fi_Name fi.

(** A sample directory: two key files, a public key file, a directory. *)
Definition sample_ReadDir (dirname : string) : list FileInfo + error :=
  if String.eqb dirname "/home/u/.iwallet"
  then inl [ {| fi_Name := "alice_ed25519"; fi_IsDir := false |};
             {| fi_Name := "alice_ed25519.pub"; fi_IsDir := false |};
             {| fi_Name := "old_ed25519"; fi_IsDir := true |};
             {| fi_Name := "bob_ed25519"; fi_IsDir := false |} ]
  else inr (PathError "open" dirname ENOENT).

(** What no call changes on the machine [w0]: the home directory, the
    fault schedule, the umask and what the readers of key and signature
    files answer. *)
Definition same_setting (w0 w : World) : Prop :=
  home w = home w0 /\ faults w = faults w0 /\ umask w = umask w0
  /\ keystores w = keystores w0 /\ keypairfiles w = keypairfiles w0
  /\ keypairs w = keypairs w0 /\ sigfiles w = sigfiles w0.

(** The entry [p] of the store is there, of the kind and with the
    permission bits of [i]. *)
Definition same_meta (p : string) (i : inode) (w : World) : Prop :=
  exists i', files w !! p = Some i' /\ isdir i' = isdir i /\ mode i' = mode i.

(** The calls that only ask or read: no directory made, no file opened,
    written or closed, nothing printed. *)
Definition reads (c : call) : Prop :=
  match c with
  | sys_mkdirall _ _ | sys_open _ _ _ | sys_write _ _ | sys_close _ | fmt_Println _ => False
  | _ => True
  end.

(** The calls that leave the entry [p] of the store as it is, there or
    not: no directory on the way is [p], no file opened or written is. *)
Definition leaves (p : string) (c : call) : Prop :=
  match c with
  | sys_mkdirall path _ => ~ In p (dirs_of "" path)
  | sys_open n _ _ => n <> p
  | sys_write f _ => f_name f <> p
  | _ => True
  end.

(* ===================================================================== *)
(** * Theorems *)
(* ===================================================================== *)

(* ===================================================================== *)
(** ** Facts about [strings.Split] *)
(* ===================================================================== *)

Lemma Split_length (s : string) (sep : ascii) :
  List.length (Split s sep) = S (Count s sep).
Proof.
  induction s as [|c s IH]; simpl; [reflexivity|].
  destruct (Ascii.eqb c sep); simpl.
  - now rewrite IH.
  - destruct (Split s sep); simpl in *; [discriminate|exact IH].
Qed.

Lemma Split_of_Count_0 (s : string) (sep : ascii) :
  Count s sep = 0%nat -> Split s sep = [s].
Proof.
  induction s as [|c s IH]; simpl; [reflexivity|].
  destruct (Ascii.eqb c sep); [discriminate|].
  intros H. now rewrite (IH H).
Qed.

(** Cutting [a ++ sep ++ b] when [a] holds no separator. *)
Lemma Split_app (a b : string) (sep : ascii) :
  Count a sep = 0%nat -> Split (a +:+ String sep b) sep = a :: Split b sep.
Proof.
  induction a as [|c a IH]; simpl.
  - intros _. now rewrite Ascii.eqb_refl.
  - destruct (Ascii.eqb c sep); [discriminate|].
    intros H. now rewrite (IH H).
Qed.

(** A string splits in two exactly when it holds one separator; the parts
    are what stands before and after it. *)
Lemma Split_two (g a b : string) (sep : ascii) :
  Split g sep = [a; b] <->
  g = a +:+ String sep b /\ Count a sep = 0%nat /\ Count b sep = 0%nat.
Proof.
  split.
  - revert a. induction g as [|c g IH]; simpl; intros a H; [discriminate|].
    destruct (Ascii.eqb c sep) eqn:E.
    + apply Ascii.eqb_eq in E. subst c. injection H as <- H.
      pose proof (Split_length g sep) as L. rewrite H in L. simpl in L.
      assert (C : Count g sep = 0%nat) by lia.
      rewrite (Split_of_Count_0 _ _ C) in H. injection H as ->. auto.
    + destruct (Split g sep) as [|x xs] eqn:S; [discriminate|].
      injection H as <- ->.
      destruct (IH x eq_refl) as (-> & Ca & Cb).
      simpl. rewrite E. auto.
  - intros (-> & Ca & Cb). rewrite (Split_app _ _ _ Ca).
    now rewrite (Split_of_Count_0 _ _ Cb).
Qed.

Lemma Split_two_Count (g : string) (sep : ascii) :
  (exists a b, Split g sep = [a; b]) <-> Count g sep = 1%nat.
Proof.
  pose proof (Split_length g sep) as L. split.
  - intros (a & b & H). rewrite H in L. simpl in L. lia.
  - intros C. rewrite C in L.
    destruct (Split g sep) as [|a [|b [|? ?]]]; simpl in L; try lia. eauto.
Qed.

(* ===================================================================== *)
(** ** checkSigners and GetSignAlgoByName *)
(* ===================================================================== *)

Lemma checkSigners_cons (s : string) (rest : list string) :
  checkSigners (s :: rest) =
  if Nat.eqb (Count s "@") 1 then checkSigners rest
  else Some (Errorf "signer %v should contain '@'" [VString s]).
Proof.
  simpl. rewrite Split_length. simpl. now destruct (Nat.eqb (Count s "@") 1).
Qed.

(** C7.  [checkSigners] returns no error exactly when every entry holds one
    [@]; otherwise the error names the first entry that holds none or more
    than one.  Nothing else is looked at: an entry with an empty account or
    an empty permission passes. *)
Theorem checkSigners_exactly_one_at (signers : list string) :
  (checkSigners signers = None <-> Forall (fun s => Count s "@" = 1%nat) signers)
  /\ (forall pre s post,
        signers = pre ++ s :: post ->
        Forall (fun x => Count x "@" = 1%nat) pre ->
        Count s "@" <> 1%nat ->
        checkSigners signers = Some (Errorf "signer %v should contain '@'" [VString s])
        /\ names (Errorf "signer %v should contain '@'" [VString s]) s)
  /\ checkSigners ["@"] = None
  /\ checkSigners ["alice@"] = None
  /\ checkSigners ["@active"] = None.
Proof.
  split; [|split; [|repeat split]].
  - induction signers as [|s rest IH].
    + split; [constructor|reflexivity].
    + rewrite checkSigners_cons. destruct (Nat.eqb_spec (Count s "@") 1) as [E|E].
      * rewrite IH. split; [now constructor|]. now inversion 1.
      * split; [discriminate|]. inversion 1; contradiction.
  - intros pre s post -> Hpre Hs. split; [|now left].
    induction Hpre as [|x pre Hx _ IH]; simpl app; rewrite checkSigners_cons.
    + now destruct (Nat.eqb_spec (Count s "@") 1).
    + rewrite Hx. exact IH.
Qed.

(** C10.  Every name other than [secp256k1] selects Ed25519: the function
    has no error result and no third answer. *)
Theorem GetSignAlgoByName_unknown_is_Ed25519 (name : string) :
  name <> "secp256k1" -> GetSignAlgoByName name = Ed25519.
Proof.
  intros H. unfold GetSignAlgoByName.
  destruct (String.eqb_spec name "secp256k1") as [E|_]; [contradiction|].
  now destruct (String.eqb name "ed25519").
Qed.

(** C10 at work: the name of the default, the empty name, a misspelling and
    an algorithm the wallet does not know. *)
Lemma GetSignAlgoByName_unknown_witness :
  GetSignAlgoByName "ed25519" = Ed25519
  /\ GetSignAlgoByName "" = Ed25519
  /\ GetSignAlgoByName "Secp256K1" = Ed25519
  /\ GetSignAlgoByName "rsa" = Ed25519.
Proof.
  split; [|split; [|split]]; apply GetSignAlgoByName_unknown_is_Ed25519; discriminate.
Defined.

(** The signer lists of the specification's examples. *)
Example checkSigners_examples :
  checkSigners ["alice@active"] = None
  /\ checkSigners ["alice"] = Some (Errorf "signer %v should contain '@'" [VString "alice"])
  /\ checkSigners ["a@b@c"] = Some (Errorf "signer %v should contain '@'" [VString "a@b@c"])
  /\ checkSigners ["alice@active"; "a@b@c"; "alice"]
     = Some (Errorf "signer %v should contain '@'" [VString "a@b@c"]).
Proof. repeat split. Qed.

(* ===================================================================== *)
(** ** ParseAmountLimit *)
(* ===================================================================== *)

Section AmountLimits.

Variable pf : string -> Z -> float64 * option error.

Lemma ParseAmountLimit_loop_cons (gram : string) (rest : list string) (acc : list AmountLimit) :
  ParseAmountLimit_loop pf (gram :: rest) acc =
  match parse_group pf gram with
  | inl lim => ParseAmountLimit_loop pf rest (acc ++ [lim])
  | inr e => ([], Some e)
  end.
Proof.
  unfold parse_group. simpl.
  destruct (Split gram ":") as [|token [|value [|? ?]]]; try reflexivity.
  destruct (negb (String.eqb value "unlimited")); [|reflexivity].
  destruct (pf value 64) as [f [e|]]; reflexivity.
Qed.

Lemma parse_group_inl (gram : string) (lim : AmountLimit) :
  parse_group pf gram = inl lim <-> limit_of pf gram lim.
Proof.
  unfold parse_group, limit_of, group_of. split.
  - destruct (Split gram ":") as [|token [|value [|? ?]]] eqn:S; try discriminate.
    apply Split_two in S. destruct S as (-> & Ct & Cv).
    destruct (String.eqb_spec value "unlimited") as [->|N]; simpl.
    + intros [= <-]. simpl. auto.
    + destruct (snd (pf value 64)) eqn:E; [discriminate|].
      intros [= <-]. simpl. auto.
  - destruct lim as [token value]. simpl. intros ((-> & Ct & Cv) & H).
    assert (S : Split (token +:+ ":" +:+ value) ":" = [token; value])
      by (apply Split_two; auto).
    rewrite S. destruct (String.eqb_spec value "unlimited") as [->|N]; simpl; [reflexivity|].
    destruct H as [H|H]; [contradiction|]. now rewrite H.
Qed.

Lemma parse_group_syntax (gram : string) :
  Count gram ":" <> 1%nat ->
  parse_group pf gram = inr (Errorf "invalid amount limit %v" [VString gram]).
Proof.
  intros H. unfold parse_group.
  destruct (Split gram ":") as [|token [|value [|? ?]]] eqn:S; try reflexivity.
  exfalso. apply H. apply Split_two_Count. eauto.
Qed.

Lemma parse_group_value (token value : string) (err : error) :
  Count token ":" = 0%nat -> Count value ":" = 0%nat ->
  value <> "unlimited" -> snd (pf value 64) = Some err ->
  parse_group pf (token +:+ ":" +:+ value)
  = inr (Errorf "invalid amount limit %v %v" [VFloat (fst (pf value 64)); VError err]).
Proof.
  intros Ct Cv N E. unfold parse_group.
  assert (S : Split (token +:+ ":" +:+ value) ":" = [token; value])
    by (apply Split_two; auto).
  rewrite S. destruct (String.eqb_spec value "unlimited"); [contradiction|].
  simpl. now rewrite E.
Qed.

(** The loop succeeds exactly on lists of accepted groups, and appends
    their entries in order. *)
Lemma ParseAmountLimit_loop_ok (splits : list string) (acc res : list AmountLimit) :
  ParseAmountLimit_loop pf splits acc = (res, None) <->
  exists lims, Forall2 (limit_of pf) splits lims /\ res = acc ++ lims.
Proof.
  revert acc. induction splits as [|gram rest IH]; intros acc.
  - simpl. split.
    + intros [= <-]. exists []. split; [constructor|now rewrite app_nil_r].
    + intros (lims & F & ->). inversion F. now rewrite app_nil_r.
  - rewrite ParseAmountLimit_loop_cons. split.
    + destruct (parse_group pf gram) as [lim|e] eqn:G; [|discriminate].
      intros H. apply IH in H. destruct H as (lims & F & ->).
      exists (lim :: lims). split.
      * constructor; [now apply parse_group_inl|exact F].
      * now rewrite <- app_assoc.
    + intros (lims & F & ->). inversion F as [|? lim ? lims' Hl F']; subst.
      apply parse_group_inl in Hl. rewrite Hl. apply IH.
      exists lims'. split; [exact F'|now rewrite <- app_assoc].
Qed.

(** The loop stops at the first group that is not accepted, with the error
    of that group and no entries. *)
Lemma ParseAmountLimit_loop_err (pre : list string) (gram : string) (post : list string)
    (lims acc : list AmountLimit) (e : error) :
  Forall2 (limit_of pf) pre lims -> parse_group pf gram = inr e ->
  ParseAmountLimit_loop pf (pre ++ gram :: post) acc = ([], Some e).
Proof.
  intros F G. revert acc. induction F as [|g lim pre lims Hl _ IH]; intros acc.
  - simpl app. rewrite ParseAmountLimit_loop_cons. now rewrite G.
  - simpl app. rewrite ParseAmountLimit_loop_cons.
    apply parse_group_inl in Hl. rewrite Hl. apply IH.
Qed.

Lemma ParseAmountLimit_nonempty (limitStr : string) :
  limitStr <> "" ->
  ParseAmountLimit pf limitStr = ParseAmountLimit_loop pf (Split limitStr "|") [].
Proof.
  intros H. unfold ParseAmountLimit. now destruct (String.eqb_spec limitStr "").
Qed.

End AmountLimits.

(** C5.  The grammar of amount limits.  The empty string gives the empty
    list.  Any other string is cut at every [|]; a group that does not hold
    exactly one [:] ends the call with the syntax error that names the
    group (the first such group, when the groups before it are accepted);
    in a result every entry is the token before and the value after the one
    colon of its group.  The examples of the specification follow, run
    with [strconv.ParseFloat]. *)
Theorem ParseAmountLimit_grammar :
  (forall pf, ParseAmountLimit pf "" = ([], None))
  /\ (forall pf limitStr result,
        limitStr <> "" -> ParseAmountLimit pf limitStr = (result, None) ->
        Forall2 group_of (Split limitStr "|") result)
  /\ (forall pf limitStr pre gram post lims,
        limitStr <> "" -> Split limitStr "|" = pre ++ gram :: post ->
        Forall2 (limit_of pf) pre lims ->
        Count gram ":" <> 1%nat ->
        ParseAmountLimit pf limitStr
        = ([], Some (Errorf "invalid amount limit %v" [VString gram]))
        /\ names (Errorf "invalid amount limit %v" [VString gram]) gram)
  /\ ParseAmountLimit ParseFloat "iost:unlimited"
     = ([{| Token := "iost"; Value := "unlimited" |}], None)
  /\ ParseAmountLimit ParseFloat "iost:10.5|ram:unlimited"
     = ([{| Token := "iost"; Value := "10.5" |};
         {| Token := "ram"; Value := "unlimited" |}], None)
  /\ ParseAmountLimit ParseFloat "iost"
     = ([], Some (Errorf "invalid amount limit %v" [VString "iost"]))
  /\ ParseAmountLimit ParseFloat "iost:1:2"
     = ([], Some (Errorf "invalid amount limit %v" [VString "iost:1:2"]))
  /\ ParseAmountLimit ParseFloat "iost:abc"
     = ([], Some (Errorf "invalid amount limit %v %v"
                    [VFloat (S754_zero false);
                     VError (NumError "ParseFloat" "abc" ErrSyntax)])).
Proof.
  split; [reflexivity|]. split; [|split].
  - intros pf limitStr result Hne H. rewrite (ParseAmountLimit_nonempty pf _ Hne) in H.
    apply ParseAmountLimit_loop_ok in H. destruct H as (lims & F & ->). simpl.
    induction F as [|g l gs ls [Hg _] _ IH]; constructor; assumption.
  - intros pf limitStr pre gram post lims Hne S F C.
    rewrite (ParseAmountLimit_nonempty pf _ Hne), S. split; [|now left].
    apply (ParseAmountLimit_loop_err pf pre gram post lims [] _ F).
    now apply parse_group_syntax.
  - repeat split; vm_compute; reflexivity.
Qed.

(** C6, as the specification states it, fails: the value [Inf] is not the
    word [unlimited], [strconv.ParseFloat] reads it as the positive
    infinity, which is no finite number, and [ParseAmountLimit] accepts it.
    So it is not true that every stored value is [unlimited] or parses as a
    finite number. *)
Lemma ParseAmountLimit_accepts_infinity :
  ParseAmountLimit ParseFloat "iost:Inf" = ([{| Token := "iost"; Value := "Inf" |}], None)
  /\ "Inf" <> "unlimited"
  /\ ParseFloat "Inf" 64 = (S754_infinity false, None)
  /\ is_finite (fst (ParseFloat "Inf" 64)) = false
  /\ ~ (forall limitStr result,
          ParseAmountLimit ParseFloat limitStr = (result, None) ->
          Forall (fun lim => Value lim = "unlimited"
                             \/ is_finite (fst (ParseFloat (Value lim) 64)) = true) result).
Proof.
  split; [vm_compute; reflexivity|]. split; [discriminate|].
  split; [vm_compute; reflexivity|]. split; [vm_compute; reflexivity|].
  intros H.
  specialize (H "iost:Inf" [{| Token := "iost"; Value := "Inf" |}]).
  assert (E : ParseAmountLimit ParseFloat "iost:Inf"
              = ([{| Token := "iost"; Value := "Inf" |}], None)) by (vm_compute; reflexivity).
  specialize (H E). inversion H as [|? ? [N|N] _]; subst; simpl in N.
  - discriminate N.
  - vm_compute in N. discriminate N.
Qed.

(** C6, amended.  A call succeeds exactly when the string is empty (no
    entries) or every group, cut at [|], is [token:value] with one colon
    and a value that is the word [unlimited] (stored without a look at
    [ParseFloat]) or a string [ParseFloat] reads without error at 64 bits;
    the entries are then the groups' tokens and values as written, in the
    order of the string.  A value that is not [unlimited] and that
    [ParseFloat] refuses ends the call with the value error, which holds
    the float and the error [ParseFloat] returned.  All this holds whatever
    function stands for [ParseFloat].  Go's own reads the infinities and
    NaN without error, and refuses a decimal number out of range. *)
Theorem ParseAmountLimit_values :
  (forall (pf : string -> Z -> float64 * option error) (limitStr : string),
  (forall result,
     ParseAmountLimit pf limitStr = (result, None) <->
     (limitStr = "" /\ result = [])
     \/ (limitStr <> "" /\ Forall2 (limit_of pf) (Split limitStr "|") result))
  /\ (forall pre token value post lims err,
        limitStr <> "" ->
        Split limitStr "|" = pre ++ (token +:+ ":" +:+ value) :: post ->
        Forall2 (limit_of pf) pre lims ->
        Count token ":" = 0%nat -> Count value ":" = 0%nat ->
        value <> "unlimited" -> snd (pf value 64) = Some err ->
        ParseAmountLimit pf limitStr
        = ([], Some (Errorf "invalid amount limit %v %v"
                       [VFloat (fst (pf value 64)); VError err])))
  /\ (forall token,
        Count token ":" = 0%nat -> Count token "|" = 0%nat ->
        ParseAmountLimit pf (token +:+ ":unlimited")
        = ([{| Token := token; Value := "unlimited" |}], None)))
  /\ ParseFloat "Inf" 64 = (S754_infinity false, None)
  /\ ParseFloat "-Infinity" 64 = (S754_infinity true, None)
  /\ ParseFloat "NaN" 64 = (S754_nan, None)
  /\ ParseFloat "1e400" 64 = (S754_infinity false, Some (rangeError "ParseFloat" "1e400")).
Proof.
  split; [|repeat split; vm_compute; reflexivity].
  intros pf limitStr. split; [|split].
  - intros result. destruct (String.eqb_spec limitStr "") as [->|Hne].
    + split.
      * intros [= <-]. now left.
      * intros [[_ ->]|[Hne _]]; [reflexivity|contradiction].
    + rewrite (ParseAmountLimit_nonempty pf _ Hne), ParseAmountLimit_loop_ok. split.
      * intros (lims & F & ->). right. auto.
      * intros [[-> _]|[_ F]]; [contradiction|]. exists result. auto.
  - intros pre token value post lims err Hne S F Ct Cv N E.
    rewrite (ParseAmountLimit_nonempty pf _ Hne), S.
    apply (ParseAmountLimit_loop_err pf pre _ post lims [] _ F).
    now apply parse_group_value.
  - intros token Ct Cb.
    assert (Hne : token +:+ ":unlimited" <> "") by (destruct token; discriminate).
    rewrite (ParseAmountLimit_nonempty pf _ Hne).
    assert (Cb' : Count (token +:+ ":unlimited") "|" = 0%nat).
    { clear -Cb. induction token as [|c token IH]; simpl in *; [reflexivity|].
      destruct (Ascii.eqb c "|"); [discriminate|auto]. }
    rewrite (Split_of_Count_0 _ _ Cb'). apply ParseAmountLimit_loop_ok.
    exists [{| Token := token; Value := "unlimited" |}]. split; [|reflexivity].
    constructor; [|constructor]. repeat split; simpl; auto.
Qed.

(* ===================================================================== *)
(** ** Running programs: general facts *)
(* ===================================================================== *)

(** An event determines its call and its answer. *)
Lemma ev_call (c c' : call) (r : ret c) (r' : ret c') : ev c r = ev c' r' -> c = c'.
Proof. intros H. exact (f_equal (@projT1 call ret) H). Qed.

Lemma ev_answer (c : call) (r r' : ret c) : ev c r = ev c r' -> r = r'.
Proof. apply (inj_pair2_eq_dec call call_eq_dec ret). Qed.

Section Running.

Context {W : Type} (os : OS W).

Lemma run_bind {A B : Type} (m : IO A) (f : A -> IO B) (w : W) :
  run os (bind m f) w =
  let '(a, w1, tr1) := run os m w in
  let '(b, w2, tr2) := run os (f a) w1 in
  (b, w2, tr1 ++ tr2).
Proof.
  revert w. induction m as [a|c k IH]; intros w; simpl.
  - now destruct (run os (f a) w) as [[b w2] tr2].
  - destruct (answer os c w) as [x w1]. rewrite IH.
    destruct (run os (k x) w1) as [[a w1'] tr1].
    now destruct (run os (f a) w1') as [[b w2] tr2].
Qed.

Lemma run_steps {R : Type} (p : IO R) (w : W) :
  steps os w (trace os p w) (final os p w).
Proof.
  unfold trace, final. revert w. induction p as [r|c k IH]; intros w; simpl.
  - reflexivity.
  - destruct (answer os c w) as [x w1] eqn:A. specialize (IH x w1).
    destruct (run os (k x) w1) as [[r w2] tr]. simpl in *.
    rewrite A. split; [reflexivity|exact IH].
Qed.

(** A property of the machine that every call of a kind [ok] keeps, is kept
    by a run that makes only such calls. *)
Lemma steps_preserve (I : W -> Prop) (ok : call -> Prop) :
  (forall c w, ok c -> I w -> I (snd (answer os c w))) ->
  forall tr w w', Forall (fun e => ok (projT1 e)) tr -> steps os w tr w' -> I w -> I w'.
Proof.
  intros K tr. induction tr as [|e tr IH]; intros w w' F S Hw; simpl in S.
  - now subst.
  - inversion F as [|? ? Hok F']; subst. destruct S as [_ S].
    apply (IH _ _ F' S). now apply K.
Qed.

End Running.

(* ===================================================================== *)
(** ** handleMultiSig *)
(* ===================================================================== *)

Section MultiSig.

Context {W : Type} (os : OS W).
Context {Payload : Type} (signAlgo : string).
Context (GetSignatureOfTx : TransactionRequest Payload -> KeyPair -> Signature).
Context (VerifySigForTx : TransactionRequest Payload -> Signature -> bool).

Abbreviation handleMultiSig := (handleMultiSig Payload signAlgo GetSignatureOfTx VerifySigForTx).
Abbreviation handleMultiSig_sign := (handleMultiSig_sign Payload signAlgo GetSignatureOfTx).
Abbreviation handleMultiSig_attach := (handleMultiSig_attach Payload VerifySigForTx).

(** How the signing loop runs: it loads every key file in turn and ends
    with one signature more per file, or it stops at the first file that
    does not load. *)
Lemma handleMultiSig_sign_run (t : TransactionRequest Payload) (signKeys : list string)
    (sigs : list Signature) (w : W) :
  match run os (handleMultiSig_sign t signKeys sigs) w with
  | (inl sigs', _, tr) =>
      exists kps, List.length kps = List.length signKeys
        /\ tr = zip_with (key_loaded signAlgo) signKeys kps
        /\ sigs' = sigs ++ map (GetSignatureOfTx t) kps
  | (inr err, _, tr) =>
      exists pre f post kps e,
        signKeys = pre ++ f :: post /\ List.length kps = List.length pre
        /\ tr = zip_with (key_loaded signAlgo) pre kps ++ [ev (sdk_LoadKeyPair f signAlgo) (inr e)]
        /\ err = Errorf "sign tx with priv key %v err %v" [VString f; VError e]
  end.
Proof.
  revert sigs w. induction signKeys as [|f rest IH]; intros sigs w.
  - simpl. exists []. now rewrite app_nil_r.
  - simpl. destruct (answer os (sdk_LoadKeyPair f signAlgo) w) as [[kp|e] w1] eqn:A.
    + specialize (IH (sigs ++ [GetSignatureOfTx t kp]) w1).
      destruct (run os (handleMultiSig_sign t rest (sigs ++ [GetSignatureOfTx t kp])) w1)
        as [[[sigs'|err] w2] tr].
      * destruct IH as (kps & L & -> & ->). exists (kp :: kps).
        simpl. rewrite L, <- app_assoc. auto.
      * destruct IH as (pre & f' & post & kps & e & -> & L & -> & ->).
        exists (f :: pre), f', post, (kp :: kps), e. simpl. rewrite L. auto.
    + simpl. exists [], f, rest, [], e. auto.
Qed.

(** The same for the loop over signature files, which also stops at the
    first signature that does not verify. *)
Lemma handleMultiSig_attach_run (t : TransactionRequest Payload) (withSigns : list string)
    (sigs : list Signature) (w : W) :
  match run os (handleMultiSig_attach t withSigns sigs) w with
  | (inl sigs', _, tr) =>
      exists ss, List.length ss = List.length withSigns
        /\ tr = zip_with sig_loaded withSigns ss
        /\ Forall (fun sig => VerifySigForTx t sig = true) ss
        /\ sigs' = sigs ++ ss
  | (inr err, _, tr) =>
      exists pre f post ss,
        withSigns = pre ++ f :: post /\ List.length ss = List.length pre
        /\ Forall (fun sig => VerifySigForTx t sig = true) ss
        /\ ((exists e, tr = zip_with sig_loaded pre ss
                           ++ [ev (sdk_LoadProtoStructFromJSONFile f) (inr e)]
                    /\ err = Errorf "invalid signature file %v" [VString f])
            \/ (exists sig, tr = zip_with sig_loaded pre ss ++ [sig_loaded f sig]
                    /\ VerifySigForTx t sig = false
                    /\ err = Errorf "sign verify error %v" [VString f]))
  end.
Proof.
  revert sigs w. induction withSigns as [|f rest IH]; intros sigs w.
  - simpl. exists []. rewrite app_nil_r. auto.
  - simpl. destruct (answer os (sdk_LoadProtoStructFromJSONFile f) w) as [[sig|e] w1] eqn:A.
    + destruct (VerifySigForTx t sig) eqn:V; simpl.
      * specialize (IH (sigs ++ [sig]) w1).
        destruct (run os (handleMultiSig_attach t rest (sigs ++ [sig])) w1)
          as [[[sigs'|err] w2] tr].
        -- destruct IH as (ss & L & -> & F & ->). exists (sig :: ss).
           simpl. rewrite L, <- app_assoc. auto.
        -- destruct IH as (pre & f' & post & ss & -> & L & F & H).
           exists (f :: pre), f', post, (sig :: ss). simpl. rewrite L.
           split; [reflexivity|]. split; [reflexivity|]. split; [now constructor|].
           destruct H as [(e & -> & ->)|(sig' & -> & V' & ->)]; [left|right]; eauto.
      * exists [], f, rest, []. simpl. repeat split; [constructor|]. right. eauto.
    + simpl. exists [], f, rest, []. simpl. repeat split; [constructor|]. left. eauto.
Qed.

(** No event of a file that loads is the event of a file that does not. *)
Lemma key_loaded_not_failed (fs : list string) (kps : list KeyPair) (f : string) (e : error) :
  ~ In (ev (sdk_LoadKeyPair f signAlgo) (inr e)) (zip_with (key_loaded signAlgo) fs kps).
Proof.
  revert kps. induction fs as [|f0 fs IH]; intros [|kp kps]; simpl; try tauto.
  intros [H|H]; [|exact (IH _ H)].
  unfold key_loaded in H. pose proof (ev_call _ _ _ _ H) as C. injection C as ->.
  apply ev_answer in H. discriminate.
Qed.

Lemma sig_loaded_not_failed (fs : list string) (ss : list Signature) (f : string) (e : error) :
  ~ In (ev (sdk_LoadProtoStructFromJSONFile f) (inr e)) (zip_with sig_loaded fs ss).
Proof.
  revert ss. induction fs as [|f0 fs IH]; intros [|sig ss]; simpl; try tauto.
  intros [H|H]; [|exact (IH _ H)].
  unfold sig_loaded in H. pose proof (ev_call _ _ _ _ H) as C. injection C as ->.
  apply ev_answer in H. discriminate.
Qed.

Lemma sig_loaded_verified (t : TransactionRequest Payload) (fs : list string)
    (ss : list Signature) (f : string) (sig : Signature) :
  Forall (fun sig => VerifySigForTx t sig = true) ss ->
  In (sig_loaded f sig) (zip_with sig_loaded fs ss) -> VerifySigForTx t sig = true.
Proof.
  intros F. revert fs. induction F as [|s0 ss V _ IH]; intros [|f0 fs]; simpl; try tauto.
  intros [H|H]; [|exact (IH _ H)].
  unfold sig_loaded in H. pose proof (ev_call _ _ _ _ H) as C. injection C as ->.
  apply ev_answer in H. now injection H as <-.
Qed.

Lemma handleMultiSig_unfold (t : TransactionRequest Payload) (withSigns signKeys : list string) :
  handleMultiSig t withSigns signKeys =
  match withSigns, signKeys with
  | _ :: _, _ :: _ =>
      Ret (t, Some (Errorf "at least one of --sign_keys and --with_signs should be empty" []))
  | _, _ =>
      r <- match signKeys, withSigns with
           | _ :: _, _ => handleMultiSig_sign t signKeys []
           | [], _ :: _ => handleMultiSig_attach t withSigns []
           | [], [] => Ret (inl [])
           end ;;
      match r with
      | inr err => Ret (t, Some err)
      | inl sigs => Ret ({| Content := Content t; Signatures := sigs |}, None)
      end
  end.
Proof. destruct withSigns, signKeys; reflexivity. Qed.

Lemma handleMultiSig_sign_only (t : TransactionRequest Payload) (signKeys : list string) :
  signKeys <> [] ->
  handleMultiSig t [] signKeys = bind (handleMultiSig_sign t signKeys []) (commit t).
Proof. destruct signKeys; [contradiction|reflexivity]. Qed.

Lemma handleMultiSig_attach_only (t : TransactionRequest Payload) (withSigns : list string) :
  withSigns <> [] ->
  handleMultiSig t withSigns [] = bind (handleMultiSig_attach t withSigns []) (commit t).
Proof. destruct withSigns; [contradiction|reflexivity]. Qed.

(** C1.  With both lists non-empty the call fails at once with the error
    for conflicting modes: the transaction comes back as it was, no call is
    made (no key file and no signature file is read) and the state of the
    machine is the one the call started in. *)
Theorem handleMultiSig_conflicting_modes (t : TransactionRequest Payload)
    (withSigns signKeys : list string) (w : W) :
  withSigns <> [] -> signKeys <> [] ->
  run os (handleMultiSig t withSigns signKeys) w
  = ((t, Some (Errorf "at least one of --sign_keys and --with_signs should be empty" [])),
     w, []).
Proof.
  intros Hw Hs. rewrite handleMultiSig_unfold.
  destruct withSigns; [contradiction|]. destruct signKeys; [contradiction|]. reflexivity.
Qed.

(** C4.  Signing mode.  A key file that fails to load ends the call with
    the error that names that file, and the transaction is unchanged: the
    signatures made for earlier files are dropped.  An error never comes
    from anything else.  Without an error every key file was loaded, in the
    order of the list, and the transaction holds one signature per file, in
    that order, each made over the transaction as it was given. *)
Theorem handleMultiSig_signing_mode (t : TransactionRequest Payload)
    (signKeys : list string) (w : W) :
  signKeys <> [] ->
  match run os (handleMultiSig t [] signKeys) w with
  | ((t', err), _, tr) =>
      (forall f e, In (ev (sdk_LoadKeyPair f signAlgo) (inr e)) tr ->
         In f signKeys
         /\ err = Some (Errorf "sign tx with priv key %v err %v" [VString f; VError e])
         /\ t' = t)
      /\ (forall err', err = Some err' ->
            t' = t
            /\ exists f e, In (ev (sdk_LoadKeyPair f signAlgo) (inr e)) tr /\ names err' f)
      /\ (err = None ->
            exists kps, List.length kps = List.length signKeys
              /\ tr = zip_with (key_loaded signAlgo) signKeys kps
              /\ Signatures t' = map (GetSignatureOfTx t) kps
              /\ Content t' = Content t)
  end.
Proof.
  intros Hs. rewrite (handleMultiSig_sign_only t signKeys Hs), run_bind.
  pose proof (handleMultiSig_sign_run t signKeys [] w) as R.
  destruct (run os (handleMultiSig_sign t signKeys []) w) as [[[sigs|err] w1] tr].
  - destruct R as (kps & L & -> & ->). cbn. rewrite app_nil_r.
    split; [|split].
    + intros f e H. now apply key_loaded_not_failed in H.
    + discriminate.
    + intros _. exists kps. auto.
  - destruct R as (pre & f & post & kps & e & E & L & -> & ->). cbn.
    rewrite app_nil_r. split; [|split].
    + intros f' e' H. apply in_app_or in H. destruct H as [H|[H|[]]].
      * now apply key_loaded_not_failed in H.
      * pose proof (ev_call _ _ _ _ H) as C. injection C as ->.
        apply ev_answer in H. injection H as ->.
        rewrite E. split; [apply in_or_app; right; now left|auto].
    + intros err' [= <-]. split; [reflexivity|]. exists f, e. split.
      * apply in_or_app. right. now left.
      * now left.
    + discriminate.
Qed.

(** How the loop over signature files runs on the file store, where
    reading a signature file is a lookup: over files that load and verify
    it goes on with their signatures, in order, and leaves the machine as
    it is. *)
Lemma handleMultiSig_attach_on_store (t : TransactionRequest Payload)
    (pre rest : list string) (ss sigs : list Signature) (pw : World) :
  Forall2 (fun g sig => sigfiles pw g = inl sig /\ VerifySigForTx t sig = true) pre ss ->
  run posix (handleMultiSig_attach t (pre ++ rest) sigs) pw
  = (fst (fst (run posix (handleMultiSig_attach t rest (sigs ++ ss)) pw)),
     snd (fst (run posix (handleMultiSig_attach t rest (sigs ++ ss)) pw)),
     zip_with sig_loaded pre ss
       ++ snd (run posix (handleMultiSig_attach t rest (sigs ++ ss)) pw)).
Proof.
  intros F. revert sigs. induction F as [|g sig pre ss [Hg Hv] _ IH]; intros sigs.
  - simpl. rewrite app_nil_r.
    now destruct (run posix (handleMultiSig_attach t rest sigs) pw) as [[r w1] tr].
  - cbn [app handleMultiSig_attach Iwallet.handleMultiSig_attach bind perform run
           answer posix posix_answer].
    rewrite Hg. cbn [bind]. rewrite Hv. cbn [negb]. rewrite IH, <- app_assoc.
    reflexivity.
Qed.

(** On the file store a signature file that does not load, or whose
    signature does not verify, makes the loop fail, wherever it stands in
    the list. *)
Lemma handleMultiSig_attach_bad_source (t : TransactionRequest Payload)
    (withSigns : list string) (sigs : list Signature) (pw : World) :
  (exists f, In f withSigns
             /\ ((exists e, sigfiles pw f = inr e)
                 \/ (exists sig, sigfiles pw f = inl sig /\ VerifySigForTx t sig = false))) ->
  exists err, fst (fst (run posix (handleMultiSig_attach t withSigns sigs) pw)) = inr err.
Proof.
  revert sigs. induction withSigns as [|g rest IH]; intros sigs (f & I & B); [destruct I|].
  cbn [handleMultiSig_attach Iwallet.handleMultiSig_attach bind perform run
         answer posix posix_answer].
  destruct (sigfiles pw g) as [sig|e] eqn:G; cbn [bind].
  - destruct (VerifySigForTx t sig) eqn:V; cbn [negb].
    + destruct I as [->|I].
      * destruct B as [(e & B)|(sig' & B & V')]; congruence.
      * destruct (IH (sigs ++ [sig]) (ex_intro _ f (conj I B))) as (err & E).
        exists err.
        destruct (run posix (handleMultiSig_attach t rest (sigs ++ [sig])) pw) as [[r w1] tr].
        exact E.
    + eexists. reflexivity.
  - eexists. reflexivity.
Qed.

(** C3.  Attach mode.  On every machine the call goes one of three ways,
    and the calls it makes tell which.  Every signature file is read, in
    the order of the list, every signature verifies, and the transaction
    comes back with exactly these signatures, in that order, and no error.
    Or the files before some file [f] were read and verified, reading [f]
    failed, nothing was read after it, and the error is the one for an
    invalid signature file, naming [f].  Or the files before [f] were read
    and verified, the signature read from [f] does not verify, nothing was
    read after it, and the error is the verification error, naming [f].
    On any error the transaction is unchanged.  On the file store, where
    what a signature file holds does not change: the first file of the
    list that does not load gives the error for an invalid signature file
    naming it, the first whose signature does not verify gives the
    verification error naming it, a list in which every file loads and
    verifies gives the transaction with these signatures, and a list that
    holds a file that does not load or verify never gives a transaction
    with signatures. *)
Theorem handleMultiSig_attach_mode (t : TransactionRequest Payload)
    (withSigns : list string) (w : W) :
  withSigns <> [] ->
  match run os (handleMultiSig t withSigns []) w with
  | ((t', err), _, tr) =>
      (forall f e, In (ev (sdk_LoadProtoStructFromJSONFile f) (inr e)) tr ->
         In f withSigns
         /\ err = Some (Errorf "invalid signature file %v" [VString f])
         /\ names (Errorf "invalid signature file %v" [VString f]) f
         /\ t' = t)
      /\ (forall f sig, In (sig_loaded f sig) tr -> VerifySigForTx t sig = false ->
            In f withSigns
            /\ err = Some (Errorf "sign verify error %v" [VString f])
            /\ names (Errorf "sign verify error %v" [VString f]) f
            /\ t' = t)
      /\ (forall err', err = Some err' -> t' = t)
      /\ (err = None ->
            exists ss, List.length ss = List.length withSigns
              /\ tr = zip_with sig_loaded withSigns ss
              /\ Forall (fun sig => VerifySigForTx t sig = true) ss
              /\ Signatures t' = ss
              /\ Content t' = Content t)
      /\ ((exists ss,
             List.length ss = List.length withSigns
             /\ tr = zip_with sig_loaded withSigns ss
             /\ Forall (fun sig => VerifySigForTx t sig = true) ss
             /\ t' = {| Content := Content t; Signatures := ss |}
             /\ err = None)
          \/ (exists pre f post ss,
                withSigns = pre ++ f :: post
                /\ List.length ss = List.length pre
                /\ Forall (fun sig => VerifySigForTx t sig = true) ss
                /\ t' = t
                /\ ((exists e,
                       tr = zip_with sig_loaded pre ss
                              ++ [ev (sdk_LoadProtoStructFromJSONFile f) (inr e)]
                       /\ err = Some (Errorf "invalid signature file %v" [VString f]))
                    \/ (exists sig,
                          tr = zip_with sig_loaded pre ss ++ [sig_loaded f sig]
                          /\ VerifySigForTx t sig = false
                          /\ err = Some (Errorf "sign verify error %v" [VString f])))))
  end
  /\ forall pw : World,
       (forall pre f post ss,
          withSigns = pre ++ f :: post ->
          Forall2 (fun g sig => sigfiles pw g = inl sig /\ VerifySigForTx t sig = true) pre ss ->
          (forall e,
             sigfiles pw f = inr e ->
             run posix (handleMultiSig t withSigns []) pw
             = ((t, Some (Errorf "invalid signature file %v" [VString f])), pw,
                zip_with sig_loaded pre ss
                  ++ [ev (sdk_LoadProtoStructFromJSONFile f) (inr e)]))
          /\ (forall sig,
                sigfiles pw f = inl sig -> VerifySigForTx t sig = false ->
                run posix (handleMultiSig t withSigns []) pw
                = ((t, Some (Errorf "sign verify error %v" [VString f])), pw,
                   zip_with sig_loaded pre ss ++ [sig_loaded f sig])))
       /\ (forall ss,
             Forall2 (fun g sig => sigfiles pw g = inl sig /\ VerifySigForTx t sig = true)
                     withSigns ss ->
             run posix (handleMultiSig t withSigns []) pw
             = (({| Content := Content t; Signatures := ss |}, None), pw,
                zip_with sig_loaded withSigns ss))
       /\ ((exists f, In f withSigns
                      /\ ((exists e, sigfiles pw f = inr e)
                          \/ (exists sig, sigfiles pw f = inl sig
                                          /\ VerifySigForTx t sig = false))) ->
           exists err,
             result posix (handleMultiSig t withSigns []) pw = (t, Some err)).
Proof.
  intros Hs. rewrite (handleMultiSig_attach_only t withSigns Hs). split.
  - rewrite run_bind.
    pose proof (handleMultiSig_attach_run t withSigns [] w) as R.
    destruct (run os (handleMultiSig_attach t withSigns []) w) as [[[sigs|err] w1] tr].
    + destruct R as (ss & L & -> & F & ->). cbn. rewrite app_nil_r.
      split; [|split; [|split; [|split]]].
      * intros f e H. now apply sig_loaded_not_failed in H.
      * intros f sig H V. apply (sig_loaded_verified t _ _ _ _ F) in H. congruence.
      * discriminate.
      * intros _. exists ss. auto.
      * left. exists ss. auto.
    + destruct R as (pre & f & post & ss & E & L & F & R). cbn.
      assert (Hin : In f withSigns) by (rewrite E; apply in_or_app; right; now left).
      assert (X : exists pre f post ss,
                 withSigns = pre ++ f :: post
                 /\ List.length ss = List.length pre
                 /\ Forall (fun sig => VerifySigForTx t sig = true) ss
                 /\ t = t
                 /\ ((exists e,
                        tr = zip_with sig_loaded pre ss
                               ++ [ev (sdk_LoadProtoStructFromJSONFile f) (inr e)]
                        /\ Some err = Some (Errorf "invalid signature file %v" [VString f]))
                     \/ (exists sig,
                           tr = zip_with sig_loaded pre ss ++ [sig_loaded f sig]
                           /\ VerifySigForTx t sig = false
                           /\ Some err = Some (Errorf "sign verify error %v" [VString f])))).
      { exists pre, f, post, ss. split; [exact E|]. split; [exact L|]. split; [exact F|].
        split; [reflexivity|].
        destruct R as [(e & -> & ->)|(sig & -> & V & ->)]; [left|right]; eauto. }
      destruct R as [(e & -> & ->)|(sig & -> & V & ->)]; rewrite app_nil_r in *;
        (split; [|split; [|split; [|split; [|right; exact X]]]]);
        try discriminate; try (intros err' _; reflexivity).
      * intros f' e' H. apply in_app_or in H. destruct H as [H|[H|[]]].
        -- now apply sig_loaded_not_failed in H.
        -- pose proof (ev_call _ _ _ _ H) as C. injection C as ->.
           repeat split; auto; now left.
      * intros f' sig' H V'. apply in_app_or in H. destruct H as [H|[H|[]]].
        -- apply (sig_loaded_verified t _ _ _ _ F) in H. congruence.
        -- unfold sig_loaded in H. pose proof (ev_call _ _ _ _ H) as C. injection C as ->.
           apply ev_answer in H. discriminate.
      * intros f' e' H. apply in_app_or in H. destruct H as [H|[H|[]]].
        -- now apply sig_loaded_not_failed in H.
        -- unfold sig_loaded in H. pose proof (ev_call _ _ _ _ H) as C. injection C as ->.
           apply ev_answer in H. discriminate.
      * intros f' sig' H V'. apply in_app_or in H. destruct H as [H|[H|[]]].
        -- apply (sig_loaded_verified t _ _ _ _ F) in H. congruence.
        -- unfold sig_loaded in H. pose proof (ev_call _ _ _ _ H) as C. injection C as ->.
           repeat split; auto; now left.
  - intros pw. split; [|split].
    + intros pre f post ss E F. rewrite E, run_bind.
      rewrite (handleMultiSig_attach_on_store t pre (f :: post) ss [] pw F).
      cbn [app handleMultiSig_attach Iwallet.handleMultiSig_attach bind perform run
             answer posix posix_answer fst snd].
      split.
      * intros e He. rewrite He. cbn. now rewrite app_nil_r.
      * intros sig Hg V. rewrite Hg. cbn [bind]. rewrite V. cbn. now rewrite app_nil_r.
    + intros ss F. rewrite run_bind.
      pose proof (handleMultiSig_attach_on_store t withSigns [] ss [] pw F) as R.
      rewrite app_nil_r in R. rewrite R. cbn. now rewrite !app_nil_r.
    + intros B. unfold result. rewrite run_bind.
      destruct (handleMultiSig_attach_bad_source t withSigns [] pw B) as (err & E).
      destruct (run posix (handleMultiSig_attach t withSigns []) pw) as [[r w1] tr].
      simpl in E. subst r. exists err. reflexivity.
Qed.

End MultiSig.

(** C1 at work: a signature file and a key file are both given. *)
Lemma handleMultiSig_conflicting_modes_witness :
  ["alice.sig"] <> [] /\ ["alice.key"] <> []
  /\ run posix (handleMultiSig bytes "ed25519" Sample.sign Sample.verify Sample.tx
                  ["alice.sig"] ["alice.key"]) (Sample.machine Sample.no_fault)
     = ((Sample.tx,
         Some (Errorf "at least one of --sign_keys and --with_signs should be empty" [])),
        Sample.machine Sample.no_fault, []).
Proof.
  split; [discriminate|]. split; [discriminate|].
  apply handleMultiSig_conflicting_modes; discriminate.
Defined.

(** C4 at work: three key files, of which [carol.key] does not load. *)
Lemma handleMultiSig_signing_mode_witness :
  ["alice.key"; "carol.key"; "bob.key"] <> []
  /\ match run posix (handleMultiSig bytes "ed25519" Sample.sign Sample.verify Sample.tx
                        [] ["alice.key"; "carol.key"; "bob.key"])
                (Sample.machine Sample.no_fault) with
     | ((t', err), _, tr) =>
         (forall f e, In (ev (sdk_LoadKeyPair f "ed25519") (inr e)) tr ->
            In f ["alice.key"; "carol.key"; "bob.key"]
            /\ err = Some (Errorf "sign tx with priv key %v err %v" [VString f; VError e])
            /\ t' = Sample.tx)
         /\ (forall err', err = Some err' ->
               t' = Sample.tx
               /\ exists f e, In (ev (sdk_LoadKeyPair f "ed25519") (inr e)) tr /\ names err' f)
         /\ (err = None ->
               exists kps,
                 List.length kps = List.length ["alice.key"; "carol.key"; "bob.key"]
                 /\ tr = zip_with (key_loaded "ed25519") ["alice.key"; "carol.key"; "bob.key"] kps
                 /\ Signatures t' = map (Sample.sign Sample.tx) kps
                 /\ Content t' = Content Sample.tx)
     end.
Proof.
  split; [discriminate|].
  apply (handleMultiSig_signing_mode posix "ed25519" Sample.sign Sample.verify). discriminate.
Defined.

(** C3 at work: two signature files, of which [stale.sig] does not verify. *)
Lemma handleMultiSig_attach_mode_witness :
  ["alice.sig"; "stale.sig"] <> []
  /\ run posix (handleMultiSig bytes "ed25519" Sample.sign Sample.verify Sample.tx
                  ["alice.sig"; "stale.sig"] [])
          (Sample.machine Sample.no_fault)
     = ((Sample.tx, Some (Errorf "sign verify error %v" [VString "stale.sig"])),
        Sample.machine Sample.no_fault,
        zip_with sig_loaded ["alice.sig"] [Sample.sign Sample.tx Sample.alice]
          ++ [sig_loaded "stale.sig" Sample.stale]).
Proof.
  split; [discriminate|].
  refine (proj2 (proj1 (proj2 (handleMultiSig_attach_mode posix "ed25519" Sample.sign
                                 Sample.verify Sample.tx ["alice.sig"; "stale.sig"]
                                 (Sample.machine Sample.no_fault) _)
                          (Sample.machine Sample.no_fault))
                   ["alice.sig"] "stale.sig" [] [Sample.sign Sample.tx Sample.alice] _ _)
            Sample.stale _ _).
  - discriminate.
  - reflexivity.
  - constructor; [split; reflexivity|constructor].
  - reflexivity.
  - reflexivity.
Defined.

(** Runs of [handleMultiSig] on the sample machine. *)
Example handleMultiSig_sign_two :
  result posix (handleMultiSig bytes "ed25519" Sample.sign Sample.verify Sample.tx
                  [] ["alice.key"; "bob.key"]) (Sample.machine Sample.no_fault)
  = ({| Content := Content Sample.tx;
        Signatures := [Sample.sign Sample.tx Sample.alice; Sample.sign Sample.tx Sample.bob] |},
     None).
Proof. vm_compute. reflexivity. Qed.

Example handleMultiSig_sign_missing_key :
  result posix (handleMultiSig bytes "ed25519" Sample.sign Sample.verify Sample.tx
                  [] ["alice.key"; "carol.key"; "bob.key"]) (Sample.machine Sample.no_fault)
  = (Sample.tx,
     Some (Errorf "sign tx with priv key %v err %v"
             [VString "carol.key"; VError (errorString "no such file")])).
Proof. vm_compute. reflexivity. Qed.

Example handleMultiSig_attach_two :
  result posix (handleMultiSig bytes "ed25519" Sample.sign Sample.verify Sample.tx
                  ["bob.sig"; "alice.sig"] []) (Sample.machine Sample.no_fault)
  = ({| Content := Content Sample.tx;
        Signatures := [Sample.sign Sample.tx Sample.bob; Sample.sign Sample.tx Sample.alice] |},
     None).
Proof. vm_compute. reflexivity. Qed.

Example handleMultiSig_attach_stale :
  result posix (handleMultiSig bytes "ed25519" Sample.sign Sample.verify Sample.tx
                  ["alice.sig"; "stale.sig"; "junk.sig"] []) (Sample.machine Sample.no_fault)
  = (Sample.tx, Some (Errorf "sign verify error %v" [VString "stale.sig"])).
Proof. vm_compute. reflexivity. Qed.

Example handleMultiSig_attach_junk :
  result posix (handleMultiSig bytes "ed25519" Sample.sign Sample.verify Sample.tx
                  ["alice.sig"; "junk.sig"; "stale.sig"] []) (Sample.machine Sample.no_fault)
  = (Sample.tx, Some (Errorf "invalid signature file %v" [VString "junk.sig"])).
Proof. vm_compute. reflexivity. Qed.

Example handleMultiSig_neither :
  result posix (handleMultiSig bytes "ed25519" Sample.sign Sample.verify
                  {| Content := Content Sample.tx; Signatures := [Sample.stale] |} [] [])
         (Sample.machine Sample.no_fault)
  = (Sample.tx, None).
Proof. vm_compute. reflexivity. Qed.


(* ===================================================================== *)
(** ** SaveAccount *)
(* ===================================================================== *)

(** Taking the answer to the next call of the program being run, by cases. *)
Ltac answer_next os :=
  match goal with
  | |- context [answer os ?c ?w] =>
      let x := fresh "x" in
      let w1 := fresh "w" in
      destruct (answer os c w) as [x w1]; try destruct x; simpl
  end.

Section Saving.

Variable Base58Encode : bytes -> string.
Variable name : string.
Variable kp : KeyPair.

(** Every run of [SaveAccount], on every machine, goes one of these ways. *)
Lemma SaveAccount_run {W : Type} (os : OS W) (w : W) :
  SaveAccount_outcome Base58Encode name kp
    (result os (SaveAccount Base58Encode name kp) w)
    (trace os (SaveAccount Base58Encode name kp) w).
Proof.
  unfold result, trace, SaveAccount, getAccountDir, defer, os_Create, os_OpenFile,
    os_MkdirAll, File_WriteString, File_Close, perform. simpl.
  answer_next os; [|apply save_no_home].
  answer_next os; [apply save_mkdir_failed|].
  answer_next os; [|apply save_pub_create_failed].
  answer_next os; [answer_next os; apply save_pub_write_failed|].
  answer_next os; [|answer_next os; apply save_sec_create_failed].
  answer_next os; [answer_next os; answer_next os; apply save_sec_write_failed|].
  answer_next os; answer_next os; answer_next os; apply save_done.
Qed.

End Saving.

(* --------------------------------------------------------------------- *)
(** *** The file store under the calls of SaveAccount *)

Lemma append_ne (s t : string) : t <> "" -> s +:+ t <> s.
Proof.
  intros Ht. induction s as [|c s IH]; simpl.
  - exact Ht.
  - intros [= H]. auto.
Qed.

Lemma land_owner_only (perm um : Z) :
  Z.land perm (octal [0;7;7]) = 0 ->
  Z.land (Z.land perm (Z.lnot um)) (octal [0;7;7]) = 0.
Proof.
  intros H. rewrite <- Z.land_assoc, (Z.land_comm (Z.lnot um)), Z.land_assoc, H.
  apply Z.land_0_l.
Qed.

(** [mkdirs] leaves what is there and makes directories of mode [m]. *)
Lemma mkdirs_lookup (ds : list string) (m : FileMode) (fs : gmap string inode) (p : string) :
  fst (mkdirs fs m ds) !! p = fs !! p
  \/ (fs !! p = None
      /\ fst (mkdirs fs m ds) !! p = Some {| isdir := true; mode := m; data := "" |}).
Proof.
  revert fs. induction ds as [|d ds IH]; intros fs; simpl; [now left|].
  destruct (fs !! d) as [i|] eqn:E.
  - destruct (isdir i); [apply IH|now left].
  - destruct (IH (<[d := {| isdir := true; mode := m; data := "" |}]> fs)) as [H|[H1 H2]].
    + rewrite H. destruct (decide (d = p)) as [->|N].
      * right. now rewrite lookup_insert_eq.
      * left. now rewrite lookup_insert_ne.
    + right. split; [|exact H2].
      destruct (decide (d = p)) as [->|N].
      * now rewrite lookup_insert_eq in H1.
      * now rewrite lookup_insert_ne in H1.
Qed.

Lemma save_call_keeps (fs0 : gmap string inode) (um : Z) (sec : string) (c : call) (w : World) :
  save_call sec c -> new_modes_ok fs0 um sec w ->
  new_modes_ok fs0 um sec (snd (answer posix c w)).
Proof.
  intros Hc [Hu Hw]. destruct c; simpl in *; try (split; assumption).
  - (* sys_mkdirall *)
    destruct (faults w (clock w)); [split; assumption|].
    pose proof (mkdirs_lookup (dirs_of "" path) (created_mode w perm) (files w)) as M.
    destruct (mkdirs (files w) (created_mode w perm) (dirs_of "" path)) as [fs r].
    simpl in *. split; [assumption|]. intros p i H0 H1; simpl in H1.
    destruct (M p) as [E|[_ E]]; rewrite E in H1.
    + now apply Hw.
    + injection H1 as <-. simpl. unfold created_mode. now rewrite Hc, Hu.
  - (* sys_open *)
    destruct (faults w (clock w)); [split; assumption|].
    destruct (files w !! name) as [i0|] eqn:E.
    + destruct (isdir i0) eqn:D; [split; assumption|].
      simpl. split; [assumption|]. intros p i H0 H1; simpl in H1.
      destruct (decide (name = p)) as [->|N].
      * rewrite lookup_insert_eq in H1. injection H1 as <-.
        specialize (Hw p i0 H0 E). rewrite D in Hw.
        destruct (has_flag flag O_TRUNC); simpl; [assumption|now rewrite D].
      * rewrite lookup_insert_ne in H1 by assumption. now apply Hw.
    + destruct (has_flag flag O_CREATE); [|split; assumption].
      simpl. split; [assumption|]. intros p i H0 H1; simpl in H1.
      destruct (decide (name = p)) as [->|N].
      * rewrite lookup_insert_eq in H1. injection H1 as <-. simpl.
        intros ->. unfold created_mode. now rewrite Hc, Hu.
      * rewrite lookup_insert_ne in H1 by assumption. now apply Hw.
  - (* sys_write *)
    destruct (faults w (clock w)); [split; assumption|].
    destruct (files w !! f_name f) as [i0|] eqn:E; [|split; assumption].
    simpl. split; [assumption|]. intros p i H0 H1; simpl in H1.
    destruct (decide (f_name f = p)) as [<-|N].
    + rewrite lookup_insert_eq in H1. injection H1 as <-. simpl. now apply (Hw _ _ H0 E).
    + rewrite lookup_insert_ne in H1 by assumption. now apply Hw.
  - (* sys_close *)
    destruct (faults w (clock w)); split; assumption.
  - (* sys_stat *)
    destruct (faults w (clock w)); [split; assumption|].
    destruct (files w !! name); split; assumption.
Qed.

Lemma spares_keeps (pub b : string) (c : call) (w : World) :
  spares pub c -> holds pub b w -> holds pub b (snd (answer posix c w)).
Proof.
  intros Hc (i & Hi & Hd & Hf). unfold holds.
  destruct c; simpl in *; try (exists i; auto; fail).
  - destruct (faults w (clock w)); [exists i; auto|].
    pose proof (mkdirs_lookup (dirs_of "" path) (created_mode w perm) (files w) pub) as M.
    destruct (mkdirs (files w) (created_mode w perm) (dirs_of "" path)) as [fs r].
    simpl in *. destruct M as [E|[E _]]; [|congruence].
    exists i. rewrite E. auto.
  - destruct (faults w (clock w)); [exists i; auto|].
    destruct (files w !! name) as [i0|] eqn:E.
    + destruct (isdir i0); [exists i; auto|].
      simpl. exists i. rewrite lookup_insert_ne by assumption. auto.
    + destruct (has_flag flag O_CREATE); [|exists i; auto].
      simpl. exists i. rewrite lookup_insert_ne by assumption. auto.
  - destruct (faults w (clock w)); [exists i; auto|].
    destruct (files w !! f_name f) as [i0|] eqn:E; [|exists i; auto].
    simpl. exists i. rewrite lookup_insert_ne by assumption. auto.
  - destruct (faults w (clock w)); exists i; auto.
  - destruct (faults w (clock w)); [exists i; auto|].
    destruct (files w !! name); exists i; auto.
Qed.

(** After [pub] is opened with [create_flags] and [b] is written to it, it
    holds [b]. *)
Lemma open_write_holds (pub b : string) (perm : FileMode) (fd fd' : Z) (w : World) :
  let w1 := snd (answer posix (sys_open pub create_flags perm) w) in
  let f := {| f_name := pub; f_fd := fd' |} in
  fst (answer posix (sys_open pub create_flags perm) w) = inl fd ->
  fst (answer posix (sys_write f b) w1) = None ->
  holds pub b (snd (answer posix (sys_write f b) w1)).
Proof.
  simpl. destruct (faults w (clock w)); [discriminate|].
  change (has_flag create_flags O_TRUNC) with true.
  change (has_flag create_flags O_CREATE) with true.
  destruct (files w !! pub) as [i0|] eqn:E.
  - destruct (isdir i0); [discriminate|]. simpl. intros _.
    destruct (faults w (S (clock w))); [discriminate|].
    rewrite lookup_insert_eq. simpl. intros _.
    unfold holds. simpl. eexists. rewrite lookup_insert_eq. simpl. auto.
  - simpl. intros _.
    destruct (faults w (S (clock w))); [discriminate|].
    rewrite lookup_insert_eq. simpl. intros _.
    unfold holds. simpl. eexists. rewrite lookup_insert_eq. simpl. auto.
Qed.

(** Reading [H : In e tr] for an explicit trace [tr]: one goal per event of
    [tr] that can be [e], with the call and the answer identified. *)
Ltac ev_eq H :=
  let C := fresh "C" in
  pose proof (ev_call _ _ _ _ H) as C;
  first [ discriminate C
        | try (injection C; intros; subst); clear C;
          try (apply ev_answer in H;
               first [ discriminate H | try (injection H; intros; subst) ]) ].

Ltac ev_in H :=
  simpl in H;
  repeat match type of H with
         | _ \/ _ => destruct H as [H|H]; [ev_eq H|]
         | False => destruct H
         end.

Ltac unlet := repeat match goal with x := _ |- _ => subst x end.

(** A file name is not itself with a suffix. *)
Ltac absurd_names :=
  match goal with
  | H : ?x = ?x +:+ _ |- _ => exfalso; symmetry in H; revert H; apply append_ne; discriminate
  | H : ?x +:+ _ = ?x |- _ => exfalso; revert H; apply append_ne; discriminate
  end.

Lemma pub_ne_sec (home name : string) (kp : KeyPair) :
  pub_of home name kp <> sec_of home name kp.
Proof. apply append_ne. discriminate. Qed.

(** C9.  On every machine: when creating the public or the private key
    file fails, [SaveAccount] returns the creation error, which holds the
    path of that file; when writing one of them fails, it returns the error
    of the write, a path error for the name the file was opened under.  The
    files in question are the two key files of the account.  On the file
    store: once the public key is written, the public key file holds it
    when the call returns, whatever came after; so when writing the private
    key fails, that error is returned and the public key file stays. *)
Theorem SaveAccount_errors (Base58Encode : bytes -> string) (name : string) (kp : KeyPair) :
  (forall (W : Type) (os : OS W) (w : W),
     (forall p flag perm e,
        In (ev (sys_open p flag perm) (inr e))
           (trace os (SaveAccount Base58Encode name kp) w) ->
        result os (SaveAccount Base58Encode name kp) w
        = Some (Errorf "create file %v err %v" [VString p; VError (PathError "open" p e)])
        /\ names (Errorf "create file %v err %v" [VString p; VError (PathError "open" p e)]) p
        /\ exists home, p = pub_of home name kp \/ p = sec_of home name kp)
     /\ (forall f b e,
          In (ev (sys_write f b) (Some e)) (trace os (SaveAccount Base58Encode name kp) w) ->
          result os (SaveAccount Base58Encode name kp) w
          = Some (PathError "write" (f_name f) e)
          /\ names (PathError "write" (f_name f) e) (f_name f)
          /\ exists home, f_name f = pub_of home name kp \/ f_name f = sec_of home name kp))
  /\ (forall (w : World) (home : string) (fd : Z),
        Posix.home w = inl home ->
        In (ev (sys_write {| f_name := pub_of home name kp; f_fd := fd |}
                  (Base58Encode (Pubkey kp))) None)
           (trace posix (SaveAccount Base58Encode name kp) w) ->
        holds (pub_of home name kp) (Base58Encode (Pubkey kp))
              (final posix (SaveAccount Base58Encode name kp) w)
        /\ (forall fd' e,
              In (ev (sys_write {| f_name := sec_of home name kp; f_fd := fd' |}
                        (Base58Encode (Seckey kp))) (Some e))
                 (trace posix (SaveAccount Base58Encode name kp) w) ->
              result posix (SaveAccount Base58Encode name kp) w
              = Some (PathError "write" (sec_of home name kp) e))).
Proof.
  split.
  - intros W os w.
    pose proof (SaveAccount_run Base58Encode name kp os w) as O.
    destruct O; cbv zeta in *; unlet; split.
    all: try (intros p flag perm e' H; ev_in H;
              (split; [reflexivity|]); (split; [now left|]);
              eexists; unfold pub_of, sec_of;
              first [left; reflexivity|right; reflexivity]).
    all: try (intros f b e' H; ev_in H;
              (split; [reflexivity|]); (split; [now left|]);
              eexists; unfold pub_of, sec_of;
              first [left; reflexivity|right; reflexivity]).
  - intros w home fd Hh Hp.
    pose proof (SaveAccount_run Base58Encode name kp posix w) as O.
    pose proof (run_steps posix (SaveAccount Base58Encode name kp) w) as S.
    unfold pub_of, sec_of in *.
    revert S Hp. destruct O; cbv zeta; intros S Hp; unlet;
      destruct S as (S0 & S);
      simpl in S0; rewrite Hh in S0; first [discriminate S0|injection S0 as ->];
      ev_in Hp; try absurd_names.
    all: destruct S as (_ & S1 & S2 & S); cbn [projT1 projT2 ev] in S1, S2.
    all: pose proof (open_write_holds _ _ _ _ _ _ S1 S2) as K.
    all: split;
      [ refine (steps_preserve posix _ (spares _) (spares_keeps _ _) _ _ _ _ S K);
        repeat constructor; simpl; auto using pub_ne_sec;
        apply not_eq_sym, append_ne; discriminate
      | intros fd2 e2 H; ev_in H; try absurd_names; reflexivity ].
Qed.

(** Runs of [SaveAccount] on the sample machine: all goes well; the disk is
    full when the private key is written (call number 4). *)
Example SaveAccount_alice :
  let w' := final posix (SaveAccount Sample.base58 "alice" Sample.alice)
                  (Sample.machine Sample.no_fault) in
  result posix (SaveAccount Sample.base58 "alice" Sample.alice)
         (Sample.machine Sample.no_fault) = None
  /\ files w' !! "/home/u/.iwallet/alice_ed25519"
     = Some {| isdir := false; mode := octal [4;0;0]; data := "ab" |}
  /\ files w' !! "/home/u/.iwallet/alice_ed25519.pub"
     = Some {| isdir := false; mode := octal [6;4;4]; data := "AB" |}
  /\ files w' !! "/home/u/.iwallet"
     = Some {| isdir := true; mode := octal [7;0;0]; data := "" |}.
Proof. vm_compute. repeat split. Qed.

Example SaveAccount_alice_disk_full :
  let w' := final posix (SaveAccount Sample.base58 "alice" Sample.alice)
                  (Sample.machine (Sample.full_at 4)) in
  result posix (SaveAccount Sample.base58 "alice" Sample.alice)
         (Sample.machine (Sample.full_at 4))
  = Some (PathError "write" "/home/u/.iwallet/alice_ed25519" 28)
  /\ files w' !! "/home/u/.iwallet/alice_ed25519"
     = Some {| isdir := false; mode := octal [4;0;0]; data := "" |}
  /\ files w' !! "/home/u/.iwallet/alice_ed25519.pub"
     = Some {| isdir := false; mode := octal [6;4;4]; data := "AB" |}.
Proof. vm_compute. repeat split. Qed.

(* ===================================================================== *)
(** ** loadAccountByName *)
(* ===================================================================== *)

(** C8.  On every machine, [loadAccountByName] asks for the home
    directory and then goes one of four ways: the consolidated file
    [<name>.json] is there ([os.Stat] gives no error) and the account comes
    from [loadAccountFromKeyStore] on it, no other file being looked at;
    or it is not, [<name>_ed25519] is there and the account comes from
    [loadAccountFromKeyPair] on that file; or neither is, [<name>_secp256k1]
    is there and the account comes from it; or none of the three is there
    and the error is [account not exist].  On the file store, when no call
    fails for another reason, the first of the three names that exists, in
    that order, decides. *)
Theorem loadAccountByName_resolution (name : string) (ensureDecrypt : bool) :
  (forall (W : Type) (os : OS W) (w : W),
     (exists err,
        trace os (loadAccountByName name ensureDecrypt) w = [ev homedir_Dir (inr err)]
        /\ result os (loadAccountByName name ensureDecrypt) w = inr err)
     \/ exists accountDir home,
          accountDir = home +:+ "/.iwallet" /\
          ((exists a,
              trace os (loadAccountByName name ensureDecrypt) w
              = [ev homedir_Dir (inl home);
                 ev (sys_stat (accountDir +:+ "/" +:+ name +:+ ".json")) None;
                 ev (loadAccountFromKeyStore (accountDir +:+ "/" +:+ name +:+ ".json")
                       ensureDecrypt) a]
              /\ result os (loadAccountByName name ensureDecrypt) w = a)
           \/ (exists e0 a,
              trace os (loadAccountByName name ensureDecrypt) w
              = [ev homedir_Dir (inl home);
                 ev (sys_stat (accountDir +:+ "/" +:+ name +:+ ".json")) (Some e0);
                 ev (sys_stat (accountDir +:+ "/" +:+ name +:+ "_ed25519")) None;
                 ev (loadAccountFromKeyPair (accountDir +:+ "/" +:+ name +:+ "_ed25519")) a]
              /\ result os (loadAccountByName name ensureDecrypt) w = a)
           \/ (exists e0 e1 a,
              trace os (loadAccountByName name ensureDecrypt) w
              = [ev homedir_Dir (inl home);
                 ev (sys_stat (accountDir +:+ "/" +:+ name +:+ ".json")) (Some e0);
                 ev (sys_stat (accountDir +:+ "/" +:+ name +:+ "_ed25519")) (Some e1);
                 ev (sys_stat (accountDir +:+ "/" +:+ name +:+ "_secp256k1")) None;
                 ev (loadAccountFromKeyPair (accountDir +:+ "/" +:+ name +:+ "_secp256k1")) a]
              /\ result os (loadAccountByName name ensureDecrypt) w = a)
           \/ (exists e0 e1 e2,
              trace os (loadAccountByName name ensureDecrypt) w
              = [ev homedir_Dir (inl home);
                 ev (sys_stat (accountDir +:+ "/" +:+ name +:+ ".json")) (Some e0);
                 ev (sys_stat (accountDir +:+ "/" +:+ name +:+ "_ed25519")) (Some e1);
                 ev (sys_stat (accountDir +:+ "/" +:+ name +:+ "_secp256k1")) (Some e2)]
              /\ result os (loadAccountByName name ensureDecrypt) w
                 = inr (Errorf "account not exist" []))))
  /\ (forall (w : World) (home : string),
        Posix.home w = inl home -> (forall k, faults w k = None) ->
        let accountDir := home +:+ "/.iwallet" in
        result posix (loadAccountByName name ensureDecrypt) w
        = if exists_file w (accountDir +:+ "/" +:+ name +:+ ".json")
          then keystores w (accountDir +:+ "/" +:+ name +:+ ".json") ensureDecrypt
          else if exists_file w (accountDir +:+ "/" +:+ name +:+ "_ed25519")
          then keypairfiles w (accountDir +:+ "/" +:+ name +:+ "_ed25519")
          else if exists_file w (accountDir +:+ "/" +:+ name +:+ "_secp256k1")
          then keypairfiles w (accountDir +:+ "/" +:+ name +:+ "_secp256k1")
          else inr (Errorf "account not exist" [])).
Proof.
  split.
  - intros W os w.
    unfold result, trace, loadAccountByName, getAccountDir, os_Stat, perform. simpl.
    answer_next os; [|left; eauto].
    right. eexists _, _. split; [reflexivity|].
    answer_next os; [|answer_next os; left; eauto].
    right. answer_next os; [|answer_next os; left; eauto].
    right. answer_next os; [|answer_next os; left; eauto].
    right. eauto.
  - intros w home Hh Hf accountDir. subst accountDir.
    unfold result, exists_file, loadAccountByName, getAccountDir, os_Stat, perform. simpl.
    rewrite Hh. simpl. rewrite !Hf.
    destruct (files w !! _); simpl; [reflexivity|]. rewrite !Hf.
    destruct (files w !! _); simpl; [reflexivity|]. rewrite !Hf.
    destruct (files w !! _); simpl; reflexivity.
Qed.

(** Runs of [loadAccountByName] on sample machines: both forms of the
    account are stored; only the two key files; only the secp256k1 key
    file; nothing. *)
Example loadAccountByName_examples :
  result posix (loadAccountByName "alice" true)
    (Sample.machine_with ["/home/u/.iwallet/alice_ed25519"; "/home/u/.iwallet/alice.json"]
       Sample.no_fault)
  = inl {| Name := "keystore /home/u/.iwallet/alice.json"; Keypairs := ∅ |}
  /\ result posix (loadAccountByName "alice" true)
       (Sample.machine_with ["/home/u/.iwallet/alice_secp256k1"; "/home/u/.iwallet/alice_ed25519"]
          Sample.no_fault)
     = inl {| Name := "key file /home/u/.iwallet/alice_ed25519"; Keypairs := ∅ |}
  /\ result posix (loadAccountByName "alice" true)
       (Sample.machine_with ["/home/u/.iwallet/alice_secp256k1"] Sample.no_fault)
     = inl {| Name := "key file /home/u/.iwallet/alice_secp256k1"; Keypairs := ∅ |}
  /\ result posix (loadAccountByName "alice" true)
       (Sample.machine_with ["/home/u/.iwallet/bob.json"] Sample.no_fault)
     = inr (Errorf "account not exist" []).
Proof. vm_compute. repeat split. Qed.

(* ===================================================================== *)
(** ** Facts about strings *)
(* ===================================================================== *)

#[local] Arguments String.append !s1 s2 : simpl nomatch.

Lemma length_append (a b : string) :
  String.length (a +:+ b) = (String.length a + String.length b)%nat.
Proof. induction a as [|c a IH]; simpl; [reflexivity|now f_equal]. Qed.

Lemma append_assoc (a b c : string) : (a +:+ b) +:+ c = a +:+ (b +:+ c).
Proof. induction a as [|x a IH]; simpl; [reflexivity|now f_equal]. Qed.

Lemma append_empty_r (a : string) : a +:+ "" = a.
Proof. induction a as [|x a IH]; simpl; [reflexivity|now f_equal]. Qed.

Lemma append_inv_l (a b c : string) : a +:+ b = a +:+ c -> b = c.
Proof. induction a as [|x a IH]; simpl; [auto|]. intros [= H]. auto. Qed.

Lemma prefix_append (s t : string) : String.prefix s (s +:+ t) = true.
Proof.
  induction s as [|c s IH]; simpl; [now destruct t|].
  destruct (ascii_dec c c); [exact IH|contradiction].
Qed.

Lemma prefix_inv (s t : string) : String.prefix s t = true -> exists u, t = s +:+ u.
Proof.
  revert s. induction t as [|b t IH]; intros [|a s]; simpl; try discriminate; eauto.
  destruct (ascii_dec a b) as [->|]; [|discriminate].
  intros H. destruct (IH _ H) as [u ->]. eauto.
Qed.

Lemma prefix_length (s t : string) :
  String.prefix s t = true -> (String.length s <= String.length t)%nat.
Proof.
  intros H. destruct (prefix_inv _ _ H) as [u ->]. rewrite length_append. lia.
Qed.

Lemma substring_all (b c : string) : substring 0 (String.length b) (b +:+ c) = b.
Proof.
  induction b as [|x b IH]; simpl; [now destruct c|now rewrite IH].
Qed.

(** The middle of three strings, cut out by its place and its length. *)
Lemma substring_middle (a b c : string) :
  substring (String.length a) (String.length b) (a +:+ b +:+ c) = b.
Proof.
  induction a as [|x a IH]; simpl; [apply substring_all|exact IH].
Qed.

Lemma Count_append (a b : string) (c : ascii) :
  Count (a +:+ b) c = (Count a c + Count b c)%nat.
Proof.
  induction a as [|x a IH]; simpl; [reflexivity|].
  destruct (Ascii.eqb x c); simpl; now rewrite IH.
Qed.

(** Cutting at every separator goes through concatenation at a separator. *)
Lemma Split_append (a b : string) (sep : ascii) :
  Split (a +:+ String sep b) sep = Split a sep ++ Split b sep.
Proof.
  induction a as [|x a IH]; simpl.
  - now rewrite Ascii.eqb_refl.
  - rewrite IH. destruct (Ascii.eqb x sep); [reflexivity|].
    pose proof (Split_length a sep) as L.
    destruct (Split a sep); [discriminate|reflexivity].
Qed.

(* --------------------------------------------------------------------- *)
(** *** strings.LastIndex and strings.HasSuffix *)

Lemma LastIndex_at_nil (i : Z) (sub : string) :
  LastIndex_at i "" sub = if String.prefix sub "" then i else -1.
Proof. reflexivity. Qed.

Lemma LastIndex_at_cons (i : Z) (c : ascii) (s sub : string) :
  LastIndex_at i (String c s) sub =
  if LastIndex_at (i + 1) s sub =? -1
  then (if String.prefix sub (String c s) then i else -1)
  else LastIndex_at (i + 1) s sub.
Proof. reflexivity. Qed.

Lemma LastIndex_at_short (i : Z) (t sub : string) :
  (String.length t < String.length sub)%nat -> LastIndex_at i t sub = -1.
Proof.
  revert i. induction t as [|c t IH]; intros i L.
  - destruct sub; [simpl in L; lia|reflexivity].
  - rewrite LastIndex_at_cons, IH by (simpl in L; lia).
    change (-1 =? -1) with true. cbv iota.
    destruct (String.prefix sub (String c t)) eqn:P; [|reflexivity].
    apply prefix_length in P. lia.
Qed.

(** An index that [LastIndex] returns is a place where the string stands. *)
Lemma LastIndex_at_found (i : Z) (s sub : string) :
  0 <= i -> LastIndex_at i s sub <> -1 ->
  exists a b, s = a +:+ sub +:+ b /\ LastIndex_at i s sub = i + strlen a.
Proof.
  revert i. induction s as [|c s IH]; intros i Hi.
  - rewrite LastIndex_at_nil.
    destruct (String.prefix sub "") eqn:P; [|congruence]. intros _.
    destruct (prefix_inv _ _ P) as [u E]. exists "", u. split; [exact E|].
    unfold strlen. simpl. lia.
  - rewrite LastIndex_at_cons.
    destruct (LastIndex_at (i + 1) s sub =? -1) eqn:E.
    + destruct (String.prefix sub (String c s)) eqn:P; [|congruence]. intros _.
      destruct (prefix_inv _ _ P) as [u Eu]. exists "", u. split; [exact Eu|].
      unfold strlen. simpl. lia.
    + intros _. apply Z.eqb_neq in E.
      destruct (IH (i + 1) ltac:(lia) E) as (a & b & -> & R).
      exists (String c a), b. split; [reflexivity|]. rewrite R.
      unfold strlen. simpl String.length. lia.
Qed.

(** [LastIndex] finds the string wherever it stands. *)
Lemma LastIndex_at_occurs (i : Z) (a sub b : string) :
  0 <= i -> i + strlen a <= LastIndex_at i (a +:+ sub +:+ b) sub.
Proof.
  revert i. induction a as [|c a IH]; intros i Hi.
  - change ("" +:+ sub +:+ b) with (sub +:+ b).
    unfold strlen. simpl String.length.
    pose proof (prefix_append sub b) as P.
    destruct (sub +:+ b) as [|x t] eqn:E.
    + rewrite LastIndex_at_nil, P. lia.
    + rewrite LastIndex_at_cons.
      destruct (LastIndex_at (i + 1) t sub =? -1) eqn:R.
      * rewrite P. lia.
      * apply Z.eqb_neq in R.
        destruct (LastIndex_at_found (i + 1) t sub ltac:(lia) R) as (a' & b' & _ & ->).
        unfold strlen. lia.
  - change (String c a +:+ sub +:+ b) with (String c (a +:+ sub +:+ b)).
    rewrite LastIndex_at_cons.
    specialize (IH (i + 1) ltac:(lia)).
    assert (L : strlen (String c a) = strlen a + 1)
      by (unfold strlen; simpl String.length; lia).
    rewrite L. destruct (LastIndex_at (i + 1) (a +:+ sub +:+ b) sub =? -1) eqn:R.
    + apply Z.eqb_eq in R. unfold strlen in *. lia.
    + lia.
Qed.

(** [LastIndex] is -1 exactly when the string stands nowhere. *)
Lemma LastIndex_none (s sub : string) :
  LastIndex s sub = -1 <-> ~ exists a b, s = a +:+ sub +:+ b.
Proof.
  unfold LastIndex. split.
  - intros H (a & b & ->).
    pose proof (LastIndex_at_occurs 0 a sub b ltac:(lia)) as O.
    unfold strlen in O. lia.
  - intros N. destruct (Z.eq_dec (LastIndex_at 0 s sub) (-1)) as [E|E]; [exact E|].
    exfalso. apply N.
    destruct (LastIndex_at_found 0 s sub ltac:(lia) E) as (a & b & -> & _). eauto.
Qed.

(** A string that ends in [sub] has its last [sub] at the end. *)
Lemma LastIndex_suffix (a sub : string) : LastIndex (a +:+ sub) sub = strlen a.
Proof.
  unfold LastIndex.
  pose proof (LastIndex_at_occurs 0 a sub "" ltac:(lia)) as O.
  rewrite append_empty_r in O.
  assert (N : LastIndex_at 0 (a +:+ sub) sub <> -1) by (unfold strlen in O; lia).
  destruct (LastIndex_at_found 0 (a +:+ sub) sub ltac:(lia) N) as (a' & b' & E & R).
  apply (f_equal String.length) in E. rewrite !length_append in E.
  unfold strlen in *. lia.
Qed.

Lemma prefix_char (c : ascii) (s : string) :
  Count s c = 0%nat -> forall b, s = String c b -> False.
Proof. intros C b ->. simpl in C. rewrite Ascii.eqb_refl in C. discriminate. Qed.

(** The last [c] of a string whose tail holds none. *)
Lemma LastIndex_char (a rest : string) (c : ascii) :
  Count rest c = 0%nat ->
  LastIndex (a +:+ String c rest) (String c EmptyString) = strlen a.
Proof.
  intros C. unfold LastIndex.
  pose proof (LastIndex_at_occurs 0 a (String c "") rest ltac:(lia)) as O.
  simpl append in O.
  assert (N : LastIndex_at 0 (a +:+ String c rest) (String c "") <> -1)
    by (unfold strlen in O; lia).
  destruct (LastIndex_at_found 0 _ _ ltac:(lia) N) as (a' & b' & E & R).
  simpl append in E. rewrite R. rewrite R in O.
  assert (L : (String.length a' <= String.length a)%nat); [|unfold strlen in *; lia].
  destruct (Nat.le_gt_cases (String.length a') (String.length a)) as [?|G]; [assumption|].
  exfalso.
  assert (K : Count (a +:+ String c rest) c = (Count a c + 1)%nat).
  { rewrite Count_append. simpl. rewrite Ascii.eqb_refl, C. lia. }
  clear -E G K C.
  revert a' E G K. induction a as [|x a IH]; intros a' E G K.
  - destruct a' as [|y a']; [simpl in G; lia|]. simpl in E. injection E as <- E.
    subst rest. rewrite Count_append in C. simpl in C.
    rewrite Ascii.eqb_refl in C. lia.
  - destruct a' as [|y a']; [simpl in G; lia|]. simpl in E. injection E as <- E.
    apply (IH a' E); [simpl in G; lia|].
    rewrite Count_append. simpl. rewrite Ascii.eqb_refl, C. lia.
Qed.

(** No [c] in the string: [LastIndex] is -1. *)
Lemma LastIndex_no_char (s : string) (c : ascii) :
  Count s c = 0%nat -> LastIndex s (String c EmptyString) = -1.
Proof.
  intros C. apply LastIndex_none. intros (a & b & ->).
  rewrite Count_append in C. simpl in C. rewrite Ascii.eqb_refl in C. lia.
Qed.

Lemma LastIndex_bound (s sub : string) : LastIndex s sub <= strlen s.
Proof.
  unfold LastIndex.
  destruct (Z.eq_dec (LastIndex_at 0 s sub) (-1)) as [E|E]; [unfold strlen; lia|].
  destruct (LastIndex_at_found 0 s sub ltac:(lia) E) as (a & b & -> & ->).
  unfold strlen. rewrite length_append. lia.
Qed.

Lemma LastIndex_low (s sub : string) : -1 <= LastIndex s sub.
Proof.
  unfold LastIndex.
  destruct (Z.eq_dec (LastIndex_at 0 s sub) (-1)) as [E|E]; [lia|].
  destruct (LastIndex_at_found 0 s sub ltac:(lia) E) as (a & b & _ & ->).
  unfold strlen. lia.
Qed.

Lemma substring_whole (s : string) : substring 0 (String.length s) s = s.
Proof. induction s as [|c s IH]; simpl; [reflexivity|now rewrite IH]. Qed.

(** The last [n] bytes of a string are a suffix of it. *)
Lemma substring_last (s : string) (n : nat) :
  (n <= String.length s)%nat ->
  exists a, s = a +:+ substring (String.length s - n) n s.
Proof.
  induction s as [|c s IH]; intros L.
  - simpl in L. assert (n = 0%nat) as -> by lia. now exists "".
  - simpl String.length in *.
    destruct (Nat.eq_dec n (S (String.length s))) as [->|N].
    + rewrite Nat.sub_diag. exists "".
      change (substring 0 (S (String.length s)) (String c s))
        with (String c (substring 0 (String.length s) s)).
      now rewrite substring_whole.
    + replace (S (String.length s) - n)%nat with (S (String.length s - n)) by lia.
      destruct (IH ltac:(lia)) as [a E]. exists (String c a).
      change (substring (S (String.length s - n)) n (String c s))
        with (substring (String.length s - n) n s).
      simpl. now rewrite <- E.
Qed.

(** [HasSuffix] holds exactly of the strings that end in the suffix. *)
Lemma HasSuffix_iff (s suffix : string) :
  HasSuffix s suffix = true <-> exists a, s = a +:+ suffix.
Proof.
  unfold HasSuffix. split.
  - intros H. apply andb_prop in H. destruct H as [L E].
    apply Nat.leb_le in L. apply String.eqb_eq in E.
    destruct (substring_last s _ L) as [a Ea]. exists a. rewrite E in Ea. exact Ea.
  - intros [a ->]. rewrite length_append.
    apply andb_true_intro. split; [apply Nat.leb_le; lia|].
    apply String.eqb_eq.
    replace (String.length a + String.length suffix - String.length suffix)%nat
      with (String.length a) by lia.
    pose proof (substring_middle a suffix "") as M. now rewrite append_empty_r in M.
Qed.

(** The two functions on the examples of their documentation in package
    [strings], and at the edges. *)
Example LastIndex_examples :
  LastIndex "go gopher" "go" = 3
  /\ LastIndex "go gopher" "rodent" = -1
  /\ LastIndex "go gopher" "" = 9
  /\ LastIndex "" "" = 0
  /\ LastIndex "" "a" = -1
  /\ LastIndex "aaa" "aa" = 1.
Proof. vm_compute. repeat split. Qed.

Example HasSuffix_examples :
  HasSuffix "Amigo" "go" = true
  /\ HasSuffix "Amigo" "O" = false
  /\ HasSuffix "Amigo" "Ami" = false
  /\ HasSuffix "Amigo" "" = true
  /\ HasSuffix "go" "Amigo" = false.
Proof. vm_compute. repeat split. Qed.

Lemma Count_pos (r : string) (c : ascii) :
  Count r c <> 0%nat -> exists r1 r2, r = r1 +:+ String c r2.
Proof.
  induction r as [|x r IH]; simpl; [congruence|].
  destruct (Ascii.eqb_spec x c) as [->|N].
  - intros _. now exists "", r.
  - intros H. destruct (IH H) as (r1 & r2 & ->). now exists (String x r1), r2.
Qed.

(** The last [c] of a string: what stands after it holds no [c]. *)
Lemma LastIndex_char_found (f : string) (c : ascii) :
  LastIndex f (String c EmptyString) <> -1 ->
  exists d r, f = d +:+ String c r
              /\ LastIndex f (String c EmptyString) = strlen d
              /\ Count r c = 0%nat.
Proof.
  intros N. unfold LastIndex in *.
  destruct (LastIndex_at_found 0 f _ ltac:(lia) N) as (d & r & E & R).
  exists d, r. split; [exact E|]. split; [lia|].
  destruct (Nat.eq_dec (Count r c) 0%nat) as [C0|P]; [exact C0|exfalso].
  destruct (Count_pos r c P) as (r1 & r2 & ->).
  pose proof (LastIndex_at_occurs 0 (d +:+ String c r1) (String c "") r2 ltac:(lia)) as O.
  rewrite append_assoc in O. simpl in O, E. rewrite <- E, R in O.
  unfold strlen in O. rewrite length_append in O. simpl in O. lia.
Qed.

(** Two ways of cutting one string: the shorter head is a head of the
    longer. *)
Lemma append_split (x y u v : string) :
  x +:+ y = u +:+ v -> (String.length x <= String.length u)%nat ->
  exists m, u = x +:+ m /\ y = m +:+ v.
Proof.
  revert u. induction x as [|a x IH]; intros u E L.
  - exists u. auto.
  - destruct u as [|b u]; [simpl in L; lia|].
    simpl in E. injection E as <- E.
    destruct (IH u E ltac:(simpl in L; lia)) as (m & -> & ->). now exists m.
Qed.

(* ===================================================================== *)
(** ** actionsFromFlags *)
(* ===================================================================== *)

Lemma list_ind3 {A : Type} (P : list A -> Prop) :
  P [] -> (forall a, P [a]) -> (forall a b, P [a; b]) ->
  (forall a b c l, P l -> P (a :: b :: c :: l)) ->
  forall l, P l.
Proof.
  intros H0 H1 H2 H3 l.
  assert (K : forall n l, (List.length l <= n)%nat -> P l).
  { clear l. induction n as [|n IH]; intros l L.
    - destruct l; [exact H0|simpl in L; lia].
    - destruct l as [|a [|b [|c l]]]; auto.
      apply H3, IH. simpl in L. lia. }
  apply (K (List.length l)). lia.
Qed.

Lemma lookup_SSS {A : Type} (a b c : A) (l : list A) (n : nat) :
  (a :: b :: c :: l) !! S (S (S n)) = l !! n.
Proof. reflexivity. Qed.

Lemma mod3_SSS (n : nat) : (S (S (S n)) mod 3 = n mod 3)%nat.
Proof.
  replace (S (S (S n))) with (n + 1 * 3)%nat by lia. apply Nat.Div0.mod_add.
Qed.

Section ActionsFacts.

Context {Action : Type} (NewAction : string -> string -> string -> Action).

Lemma actionsFromFlags_loop_acc (rest : list string) (acc : list Action) :
  actionsFromFlags_loop Action NewAction rest acc =
  match actionsFromFlags_loop Action NewAction rest [] with
  | Returns l => Returns (acc ++ l)
  | Panics => Panics
  end.
Proof.
  revert acc. induction rest as [|a|a b|a b c l IH] using list_ind3;
    intros acc; simpl; try reflexivity.
  - now rewrite app_nil_r.
  - rewrite (IH (acc ++ _)), (IH [_]).
    destruct (actionsFromFlags_loop Action NewAction l []); [|reflexivity].
    now rewrite <- app_assoc.
Qed.

(** The loop alone runs off the end of [args] exactly when their number is
    no multiple of 3. *)
Lemma actionsFromFlags_loop_panics (rest : list string) :
  actionsFromFlags_loop Action NewAction rest [] = Panics
  <-> (List.length rest mod 3 <> 0)%nat.
Proof.
  induction rest as [|a|a b|a b c l IH] using list_ind3.
  - simpl. split; [discriminate|intros H; now elim H].
  - simpl. split; [intros _; discriminate|reflexivity].
  - simpl. split; [intros _; discriminate|reflexivity].
  - cbn [actionsFromFlags_loop List.length]. rewrite mod3_SSS, <- IH.
    rewrite actionsFromFlags_loop_acc.
    destruct (actionsFromFlags_loop Action NewAction l []); split; congruence.
Qed.

(** What the loop returns holds, at place [k], the action of the three
    strings at places [3k], [3k+1] and [3k+2]. *)
Lemma actionsFromFlags_loop_triples (rest : list string) (actions : list Action) :
  actionsFromFlags_loop Action NewAction rest [] = Returns actions ->
  List.length rest = (3 * List.length actions)%nat
  /\ forall k x,
       actions !! k = Some x <->
       exists a b c, rest !! (3 * k)%nat = Some a /\ rest !! (3 * k + 1)%nat = Some b
                     /\ rest !! (3 * k + 2)%nat = Some c /\ x = NewAction a b c.
Proof.
  revert actions. induction rest as [|a|a b|a b c l IH] using list_ind3;
    intros actions; cbn [actionsFromFlags_loop]; try discriminate.
  - intros [= <-]. split; [reflexivity|]. intros k x. split.
    + intros H. rewrite lookup_nil in H. discriminate.
    + intros (a & ? & ? & H & _). rewrite lookup_nil in H. discriminate.
  - rewrite actionsFromFlags_loop_acc.
    destruct (actionsFromFlags_loop Action NewAction l []) as [acts|] eqn:E; [|discriminate].
    intros [= <-]. destruct (IH acts eq_refl) as [L K]. split; [simpl; lia|].
    intros [|k] x.
    + simpl. split.
      * intros [= <-]. now exists a, b, c.
      * intros (a' & b' & c' & [= <-] & [= <-] & [= <-] & ->). reflexivity.
    + replace (3 * S k)%nat with (S (S (S (3 * k)))) by lia.
      replace (S (S (S (3 * k))) + 1)%nat with (S (S (S (3 * k + 1)))) by lia.
      replace (S (S (S (3 * k))) + 2)%nat with (S (S (S (3 * k + 2)))) by lia.
      rewrite !lookup_SSS.
      change (([] ++ [NewAction a b c]) ++ acts) with (NewAction a b c :: acts).
      change ((NewAction a b c :: acts) !! S k) with (acts !! k).
      apply K.
Qed.

Lemma actionsFromFlags_loop_app (a b : list string) (xs : list Action) :
  actionsFromFlags_loop Action NewAction a [] = Returns xs ->
  forall acc,
    actionsFromFlags_loop Action NewAction (a ++ b) acc
    = actionsFromFlags_loop Action NewAction b (acc ++ xs).
Proof.
  revert xs. induction a as [|x|x y|x y z l IH] using list_ind3;
    intros xs; simpl; try discriminate.
  - intros [= <-] acc. now rewrite app_nil_r.
  - rewrite actionsFromFlags_loop_acc.
    destruct (actionsFromFlags_loop Action NewAction l []) as [acts|] eqn:E; [|discriminate].
    intros [= <-] acc. rewrite (IH acts eq_refl). now rewrite <- app_assoc.
Qed.

Lemma actionsFromFlags_ok (args : list string) (actions : list Action) :
  actionsFromFlags Action NewAction args = Returns (actions, None) <->
  actionsFromFlags_loop Action NewAction args [] = Returns actions.
Proof.
  unfold actionsFromFlags.
  destruct (Nat.eqb_spec (List.length args mod 3)%nat 0%nat) as [E|N]; simpl.
  - destruct (actionsFromFlags_loop Action NewAction args []); split; congruence.
  - apply actionsFromFlags_loop_panics in N. rewrite N. split; discriminate.
Qed.

(** X1.  [actionsFromFlags] never panics.  When the number of arguments is
    no multiple of 3 it returns the error and no action; otherwise it
    returns one action for every three arguments and no error.  The check
    is what keeps the loop inside [args]: without it the loop would index
    out of range exactly when the check refuses. *)
Theorem actionsFromFlags_checks_length (args : list string) :
  ((List.length args mod 3 <> 0)%nat ->
     actionsFromFlags Action NewAction args
     = Returns ([], Some (Errorf "number of args should be a multiplier of 3" [])))
  /\ ((List.length args mod 3 = 0)%nat ->
        exists actions,
          actionsFromFlags Action NewAction args = Returns (actions, None)
          /\ List.length args = (3 * List.length actions)%nat)
  /\ actionsFromFlags Action NewAction args <> Panics
  /\ (actionsFromFlags_loop Action NewAction args [] = Panics
      <-> (List.length args mod 3 <> 0)%nat).
Proof.
  assert (A : (List.length args mod 3 = 0)%nat ->
              exists actions,
                actionsFromFlags Action NewAction args = Returns (actions, None)
                /\ List.length args = (3 * List.length actions)%nat).
  { intros E.
    destruct (actionsFromFlags_loop Action NewAction args []) as [acts|] eqn:L.
    - exists acts. split; [now apply actionsFromFlags_ok|].
      now apply actionsFromFlags_loop_triples.
    - apply actionsFromFlags_loop_panics in L. contradiction. }
  split; [|split; [exact A|split; [|apply actionsFromFlags_loop_panics]]].
  - intros N. unfold actionsFromFlags.
    now destruct (Nat.eqb_spec (List.length args mod 3)%nat 0%nat).
  - destruct (Nat.eq_dec (List.length args mod 3)%nat 0%nat) as [E|N].
    + destruct (A E) as (acts & -> & _). discriminate.
    + unfold actionsFromFlags.
      now destruct (Nat.eqb_spec (List.length args mod 3)%nat 0%nat).
Qed.

(** X2.  The actions [actionsFromFlags] returns are the arguments taken
    three by three, in order: the action at place [k] is [NewAction] of the
    arguments at places [3k], [3k+1] and [3k+2], and there is no other. *)
Theorem actionsFromFlags_triples (args : list string) (actions : list Action) :
  actionsFromFlags Action NewAction args = Returns (actions, None) ->
  forall k x,
    actions !! k = Some x <->
    exists a b c, args !! (3 * k)%nat = Some a /\ args !! (3 * k + 1)%nat = Some b
                  /\ args !! (3 * k + 2)%nat = Some c /\ x = NewAction a b c.
Proof.
  intros H. apply actionsFromFlags_ok in H.
  now apply actionsFromFlags_loop_triples.
Qed.

(** X3.  Argument lists that [actionsFromFlags] accepts can be put one
    after the other: the actions of the whole are those of the first list
    followed by those of the second. *)
Theorem actionsFromFlags_app (a b : list string) (xs ys : list Action) :
  actionsFromFlags Action NewAction a = Returns (xs, None) ->
  actionsFromFlags Action NewAction b = Returns (ys, None) ->
  actionsFromFlags Action NewAction (a ++ b) = Returns (xs ++ ys, None).
Proof.
  intros Ha Hb. apply actionsFromFlags_ok in Ha, Hb. apply actionsFromFlags_ok.
  rewrite (actionsFromFlags_loop_app a b xs Ha), actionsFromFlags_loop_acc, Hb.
  reflexivity.
Qed.

End ActionsFacts.

Lemma actionsFromFlags_triples_witness :
  actionsFromFlags (string * string * string) (fun a b c => (a, b, c))
    ["token.iost"; "transfer"; "[1]"; "ram.iost"; "buy"; "[2]"]
  = Returns ([("token.iost", "transfer", "[1]"); ("ram.iost", "buy", "[2]")], None)
  /\ forall k x,
       [("token.iost", "transfer", "[1]"); ("ram.iost", "buy", "[2]")] !! k = Some x <->
       exists a b c,
         ["token.iost"; "transfer"; "[1]"; "ram.iost"; "buy"; "[2]"] !! (3 * k)%nat = Some a
         /\ ["token.iost"; "transfer"; "[1]"; "ram.iost"; "buy"; "[2]"] !! (3 * k + 1)%nat = Some b
         /\ ["token.iost"; "transfer"; "[1]"; "ram.iost"; "buy"; "[2]"] !! (3 * k + 2)%nat = Some c
         /\ x = (a, b, c).
Proof.
  split; [reflexivity|].
  apply (actionsFromFlags_triples (fun a b c => (a, b, c))). reflexivity.
Defined.

Lemma actionsFromFlags_app_witness :
  actionsFromFlags (string * string * string) (fun a b c => (a, b, c))
    (["token.iost"; "transfer"; "[1]"] ++ ["ram.iost"; "buy"; "[2]"])
  = Returns ([("token.iost", "transfer", "[1]")] ++ [("ram.iost", "buy", "[2]")], None).
Proof.
  apply (actionsFromFlags_app (fun a b c => (a, b, c))); reflexivity.
Defined.

(* ===================================================================== *)
(** ** getAccountNameFromKeyPath and getFilesAndDirs *)
(* ===================================================================== *)

Lemma strlen_append (a b : string) : strlen (a +:+ b) = strlen a + strlen b.
Proof. unfold strlen. rewrite length_append. lia. Qed.

Lemma strlen_nonneg (a : string) : 0 <= strlen a.
Proof. unfold strlen. lia. Qed.

(** The slice between a head and a tail is what stands between them. *)
Lemma slice_middle (a b c : string) :
  slice (a +:+ b +:+ c) (strlen a) (strlen a + strlen b) = Returns b.
Proof.
  unfold slice. rewrite !strlen_append.
  pose proof (strlen_nonneg a). pose proof (strlen_nonneg b). pose proof (strlen_nonneg c).
  destruct (Z.leb_spec 0 (strlen a)); [|lia].
  destruct (Z.leb_spec (strlen a) (strlen a + strlen b)); [|lia].
  destruct (Z.leb_spec (strlen a + strlen b) (strlen a + (strlen b + strlen c))); [|lia].
  simpl. f_equal.
  replace (strlen a + strlen b - strlen a) with (strlen b) by lia.
  unfold strlen. rewrite !Nat2Z.id. apply substring_middle.
Qed.

Lemma LastIndex_occurs (s sub : string) : LastIndex s sub <> -1 <-> occurs sub s.
Proof.
  unfold occurs. pose proof (LastIndex_none s sub) as N. split.
  - intros H. destruct (Z.eq_dec (LastIndex s sub) (-1)) as [E|_]; [contradiction|].
    unfold LastIndex in H.
    destruct (LastIndex_at_found 0 s sub ltac:(lia) H) as (a & b & -> & _). eauto.
  - intros O E. apply N in E. contradiction.
Qed.

(** The name between the last slash of a path and a suffix at its end. *)
Lemma getAccountNameFromKeyPath_in_dir (dir name suf : string) :
  Count name "/" = 0%nat -> Count suf "/" = 0%nat ->
  getAccountNameFromKeyPath (dir +:+ "/" +:+ name +:+ suf) suf = Returns (name, None).
Proof.
  intros Cn Cs. unfold getAccountNameFromKeyPath. cbv zeta.
  assert (S : LastIndex (dir +:+ "/" +:+ name +:+ suf) "/" = strlen dir).
  { apply (LastIndex_char dir (name +:+ suf) "/"). rewrite Count_append. lia. }
  assert (L : LastIndex (dir +:+ "/" +:+ name +:+ suf) suf = strlen dir + 1 + strlen name).
  { replace (dir +:+ "/" +:+ name +:+ suf) with ((dir +:+ "/" +:+ name) +:+ suf)
      by now rewrite !append_assoc.
    rewrite LastIndex_suffix, !strlen_append. unfold strlen. simpl. lia. }
  rewrite S, L. pose proof (strlen_nonneg dir). pose proof (strlen_nonneg name).
  destruct (Z.eqb_spec (strlen dir + 1 + strlen name) (-1)); [lia|].
  replace (dir +:+ "/" +:+ name +:+ suf) with ((dir +:+ "/") +:+ name +:+ suf)
    by now rewrite !append_assoc.
  replace (strlen dir + 1) with (strlen (dir +:+ "/"))
    by (rewrite strlen_append; reflexivity).
  now rewrite slice_middle.
Qed.

(** The same for a file name without a directory. *)
Lemma getAccountNameFromKeyPath_bare (name suf : string) :
  Count name "/" = 0%nat -> Count suf "/" = 0%nat ->
  getAccountNameFromKeyPath (name +:+ suf) suf = Returns (name, None).
Proof.
  intros Cn Cs. unfold getAccountNameFromKeyPath. cbv zeta.
  rewrite LastIndex_no_char by (rewrite Count_append; lia).
  rewrite LastIndex_suffix. pose proof (strlen_nonneg name).
  destruct (Z.eqb_spec (strlen name) (-1)); [lia|].
  pose proof (slice_middle "" name suf) as M.
  change ("" +:+ name +:+ suf) with (name +:+ suf) in M.
  change (strlen "") with 0 in M. rewrite Z.add_0_l in M. change (-1 + 1) with 0.
  now rewrite M.
Qed.

(** X4.  [getAccountNameFromKeyPath] returns its error exactly when the
    suffix stands nowhere in the path; the error then names the suffix and
    the path, and the name returned with it is empty.  It has no other
    error. *)
Theorem getAccountNameFromKeyPath_error (file suf : string) :
  let err := Errorf "file name error, no %v in %v" [VString suf; VString file] in
  (getAccountNameFromKeyPath file suf = Returns ("", Some err) <-> ~ occurs suf file)
  /\ names err suf /\ names err file
  /\ (forall name e, getAccountNameFromKeyPath file suf = Returns (name, Some e) ->
        name = "" /\ e = err /\ ~ occurs suf file).
Proof.
  cbv zeta. unfold getAccountNameFromKeyPath.
  pose proof (LastIndex_occurs file suf) as O.
  destruct (Z.eqb_spec (LastIndex file suf) (-1)) as [E|N].
  - assert (NO : ~ occurs suf file) by (intros H; apply O in H; contradiction).
    split; [tauto|]. split; [now left|]. split; [right; now left|].
    intros name e [= <- <-]. auto.
  - assert (OC : occurs suf file) by now apply O.
    split; [|split; [now left|split; [right; now left|]]].
    + split; [|tauto].
      destruct (slice file (LastIndex file "/" + 1) (LastIndex file suf)); discriminate.
    + intros name e.
      destruct (slice file (LastIndex file "/" + 1) (LastIndex file suf)); discriminate.
Qed.

(** X5.  The name of an account comes back from the path of its key file:
    for a name and a suffix that hold no slash, [getAccountNameFromKeyPath]
    returns the name from [dir/name+suffix] and from [name+suffix]; so it
    does from the private key file [SaveAccount] writes for the account,
    with the suffix of the key's algorithm. *)
Theorem getAccountNameFromKeyPath_round_trip (name : string) :
  Count name "/" = 0%nat ->
  (forall dir suf,
     Count suf "/" = 0%nat ->
     getAccountNameFromKeyPath (dir +:+ "/" +:+ name +:+ suf) suf = Returns (name, None)
     /\ getAccountNameFromKeyPath (name +:+ suf) suf = Returns (name, None))
  /\ (forall dir kp,
        getAccountNameFromKeyPath (keyFileName dir name kp) (algo_suffix kp)
        = Returns (name, None)).
Proof.
  intros Cn. split.
  - intros dir suf Cs. split.
    + now apply getAccountNameFromKeyPath_in_dir.
    + now apply getAccountNameFromKeyPath_bare.
  - intros dir kp. unfold keyFileName, algo_suffix.
    destruct (Algorithm_ kp); cbv zeta; rewrite !append_assoc;
      now apply getAccountNameFromKeyPath_in_dir.
Qed.

Lemma getAccountNameFromKeyPath_round_trip_witness :
  (forall dir suf,
     Count suf "/" = 0%nat ->
     getAccountNameFromKeyPath (dir +:+ "/" +:+ "alice" +:+ suf) suf = Returns ("alice", None)
     /\ getAccountNameFromKeyPath ("alice" +:+ suf) suf = Returns ("alice", None))
  /\ (forall dir kp,
        getAccountNameFromKeyPath (keyFileName dir "alice" kp) (algo_suffix kp)
        = Returns ("alice", None)).
Proof. apply (getAccountNameFromKeyPath_round_trip "alice"). reflexivity. Defined.

(** X6.  [getAccountNameFromKeyPath] panics (slice bounds out of range)
    exactly when the suffix stands in the path and its last place is not
    after the last slash.  So it does whenever the suffix stands in the
    path and holds a slash itself. *)
Theorem getAccountNameFromKeyPath_panics (file suf : string) :
  (getAccountNameFromKeyPath file suf = Panics
   <-> LastIndex file suf <> -1 /\ LastIndex file suf <= LastIndex file "/")
  /\ (Count suf "/" <> 0%nat -> occurs suf file ->
      getAccountNameFromKeyPath file suf = Panics).
Proof.
  assert (P : getAccountNameFromKeyPath file suf = Panics
              <-> LastIndex file suf <> -1 /\ LastIndex file suf <= LastIndex file "/").
  { unfold getAccountNameFromKeyPath, slice. cbv zeta.
    pose proof (LastIndex_low file "/"). pose proof (LastIndex_bound file suf).
    destruct (Z.eqb_spec (LastIndex file suf) (-1)) as [E|N].
    - split; [discriminate|tauto].
    - destruct (Z.leb_spec 0 (LastIndex file "/" + 1)); [|lia].
      destruct (Z.leb_spec (LastIndex file suf) (strlen file)); [|lia].
      destruct (Z.leb_spec (LastIndex file "/" + 1) (LastIndex file suf)); simpl.
      + split; [discriminate|lia].
      + split; [intros _; split; [assumption|lia]|reflexivity]. }
  split; [exact P|].
  intros Cs O. apply P. split; [now apply LastIndex_occurs|].
  apply LastIndex_occurs in O. unfold LastIndex in *.
  destruct (LastIndex_at_found 0 file suf ltac:(lia) O) as (a & b & E & R).
  destruct (Count_pos suf "/" Cs) as (s1 & s2 & Es).
  pose proof (LastIndex_at_occurs 0 (a +:+ s1) "/" (s2 +:+ b) ltac:(lia)) as K.
  replace ((a +:+ s1) +:+ "/" +:+ s2 +:+ b) with file in K
    by (rewrite E, Es, !append_assoc; reflexivity).
  rewrite strlen_append in K. pose proof (strlen_nonneg s1). lia.
Qed.

(** X7.  A name [getAccountNameFromKeyPath] returns holds no slash, and
    stands in the path right before the suffix and right after the last
    slash of the path, or at the start of a path without slash. *)
Theorem getAccountNameFromKeyPath_name (file suf name : string) :
  getAccountNameFromKeyPath file suf = Returns (name, None) ->
  Count name "/" = 0%nat
  /\ exists pre post,
       file = pre +:+ name +:+ suf +:+ post
       /\ (pre = "" \/ exists d, pre = d +:+ "/")
       /\ Count (name +:+ suf +:+ post) "/" = 0%nat.
Proof.
  unfold getAccountNameFromKeyPath. cbv zeta.
  destruct (Z.eqb_spec (LastIndex file suf) (-1)) as [E|N]; [discriminate|].
  unfold LastIndex in N.
  destruct (LastIndex_at_found 0 file suf ltac:(lia) N) as (a & b & E & R).
  fold (LastIndex file suf) in R. rewrite R.
  destruct (Z.eq_dec (LastIndex file "/") (-1)) as [S|S].
  - rewrite S. change (-1 + 1) with 0.
    pose proof (slice_middle "" a (suf +:+ b)) as M.
    change ("" +:+ a +:+ suf +:+ b) with (a +:+ suf +:+ b) in M.
    change (strlen "") with 0 in M. rewrite <- E in M. rewrite M.
    intros [= <-].
    assert (C : Count file "/" = 0%nat).
    { destruct (Nat.eq_dec (Count file "/") 0%nat) as [C|C]; [exact C|exfalso].
      destruct (Count_pos _ _ C) as (r1 & r2 & Er).
      apply LastIndex_none in S. apply S. exists r1, r2. exact Er. }
    rewrite E in C. split.
    + rewrite Count_append in C. lia.
    + exists "", b. split; [exact E|]. split; [now left|exact C].
  - destruct (LastIndex_char_found file "/" S) as (d & r & Ef & Sd & Cr).
    rewrite Sd.
    destruct (slice file (strlen d + 1) (0 + strlen a)) as [nm|] eqn:SL; [|discriminate].
    intros [= <-].
    unfold slice in SL.
    destruct (Z.leb_spec 0 (strlen d + 1)); [|discriminate].
    destruct (Z.leb_spec (strlen d + 1) (0 + strlen a)); [|discriminate].
    simpl in SL. destruct (0 + strlen a <=? strlen file); [|discriminate].
    assert (Ef' : (d +:+ "/") +:+ r = a +:+ suf +:+ b).
    { rewrite append_assoc. simpl. congruence. }
    destruct (append_split _ _ _ _ Ef') as (m & Ea & Er).
    { rewrite length_append. simpl. unfold strlen in *. lia. }
    assert (M : slice file (strlen d + 1) (0 + strlen a) = Returns m).
    { pose proof (slice_middle (d +:+ "/") m (suf +:+ b)) as M.
      replace ((d +:+ "/") +:+ m +:+ suf +:+ b) with file in M
        by (rewrite E, Ea, !append_assoc; reflexivity).
      rewrite strlen_append in M. change (strlen "/") with 1 in M.
      rewrite <- M. f_equal. rewrite Ea, !strlen_append. change (strlen "/") with 1. lia. }
    unfold slice in M.
    destruct (Z.leb_spec 0 (strlen d + 1)); [|lia].
    destruct (Z.leb_spec (strlen d + 1) (0 + strlen a)); [|lia].
    simpl in M. destruct (0 + strlen a <=? strlen file); [|discriminate].
    assert (nm = m) by congruence. subst nm.
    rewrite Er in Cr. split.
    + rewrite Count_append in Cr. lia.
    + exists (d +:+ "/"), b. split; [|split; [right; now exists d|exact Cr]].
      rewrite E, Ea, !append_assoc. reflexivity.
Qed.

Lemma getAccountNameFromKeyPath_name_witness :
  Count "alice" "/" = 0%nat
  /\ exists pre post,
       "/home/u/.iwallet/alice_ed25519.pub" = pre +:+ "alice" +:+ "_ed25519" +:+ post
       /\ (pre = "" \/ exists d, pre = d +:+ "/")
       /\ Count ("alice" +:+ "_ed25519" +:+ post) "/" = 0%nat.
Proof.
  apply (getAccountNameFromKeyPath_name "/home/u/.iwallet/alice_ed25519.pub"
           "_ed25519" "alice").
  vm_compute. reflexivity.
Defined.

Section DirectoriesFacts.

Variable ioutil_ReadDir : string -> list FileInfo + error.

Lemma getFilesAndDirs_loop_In (dirPth suf : string) (dir : list FileInfo)
    (files : list string) (p : string) :
  In p (getFilesAndDirs_loop dirPth suf dir files) <->
  In p files
  \/ exists fi, In fi dir /\ fi_IsDir fi = false
                /\ HasSuffix (fi_Name fi) suf = true /\ p = entry_path dirPth fi.
Proof.
  revert files. induction dir as [|fi dir IH]; intros files; simpl.
  - split; [now left|]. intros [H|(fi & [] & _)]. exact H.
  - destruct (fi_IsDir fi) eqn:D; simpl.
    + rewrite IH. split.
      * intros [H|(fi' & I & H)]; [now left|right; exists fi'; tauto].
      * intros [H|(fi' & [<-|I] & D' & H)]; [now left|congruence|right; exists fi'; tauto].
    + destruct (HasSuffix (fi_Name fi) suf) eqn:S; rewrite IH.
      * rewrite in_app_iff. simpl. split.
        -- intros [[H|[<-|[]]]|(fi' & I & H)];
             [now left|right; exists fi; tauto|right; exists fi'; tauto].
        -- intros [H|(fi' & [<-|I] & D' & S' & ->)];
             [tauto|left; right; now left|right; exists fi'; tauto].
      * split.
        -- intros [H|(fi' & I & H)]; [now left|right; exists fi'; tauto].
        -- intros [H|(fi' & [<-|I] & D' & S' & H)];
             [now left|congruence|right; exists fi'; tauto].
Qed.

(** X8.  [getFilesAndDirs] passes on the error of reading the directory,
    with no file.  Otherwise it returns no error and the paths
    [dirPth/name] of exactly the entries that are no directories and whose
    name ends in the suffix; it does not go into subdirectories, and it
    returns at most one path per entry. *)
Theorem getFilesAndDirs_lists (dirPth suf : string) :
  match ioutil_ReadDir dirPth with
  | inr err => getFilesAndDirs ioutil_ReadDir dirPth suf = ([], Some err)
  | inl dir =>
      snd (getFilesAndDirs ioutil_ReadDir dirPth suf) = None
      /\ (forall p,
            In p (fst (getFilesAndDirs ioutil_ReadDir dirPth suf)) <->
            exists fi stem,
              In fi dir /\ fi_IsDir fi = false /\ fi_Name fi = stem +:+ suf
              /\ p = dirPth +:+ "/" +:+ fi_Name fi)
      /\ (List.length (fst (getFilesAndDirs ioutil_ReadDir dirPth suf))
          <= List.length dir)%nat
  end.
Proof.
  unfold getFilesAndDirs. destruct (ioutil_ReadDir dirPth) as [dir|err]; [|reflexivity].
  simpl. split; [reflexivity|]. split.
  - intros p. rewrite getFilesAndDirs_loop_In. split.
    + intros [[]|(fi & I & D & S & ->)]. apply HasSuffix_iff in S.
      destruct S as [stem S]. exists fi, stem. auto.
    + intros (fi & stem & I & D & S & ->). right. exists fi.
      split; [exact I|]. split; [exact D|]. split; [|reflexivity].
      apply HasSuffix_iff. eauto.
  - assert (K : forall files,
              (List.length (getFilesAndDirs_loop dirPth suf dir files)
               <= List.length files + List.length dir)%nat).
    { induction dir as [|fi dir IH]; intros files; simpl; [lia|].
      destruct (fi_IsDir fi); simpl; [specialize (IH files); lia|].
      destruct (HasSuffix (fi_Name fi) suf).
      - specialize (IH (files ++ [dirPth +:+ PathSeparator +:+ fi_Name fi])).
        rewrite length_app in IH. simpl in IH. lia.
      - specialize (IH files). lia. }
    apply (K []).
Qed.

(** X9.  The key files [getFilesAndDirs] finds give their account names to
    [getAccountNameFromKeyPath]: when no entry of the directory holds a
    slash in its name, every path found is [dirPth/stem+suffix] for an
    entry named [stem+suffix], and [getAccountNameFromKeyPath] returns
    [stem] for it, without error and without panic. *)
Theorem getFilesAndDirs_then_getAccountNameFromKeyPath
    (dirPth suf : string) (dir : list FileInfo) :
  ioutil_ReadDir dirPth = inl dir ->
  (forall fi, In fi dir -> Count (fi_Name fi) "/" = 0%nat) ->
  forall p,
    In p (fst (getFilesAndDirs ioutil_ReadDir dirPth suf)) ->
    exists stem,
      p = dirPth +:+ "/" +:+ stem +:+ suf
      /\ In {| fi_Name := stem +:+ suf; fi_IsDir := false |} dir
      /\ getAccountNameFromKeyPath p suf = Returns (stem, None).
Proof.
  intros R C p. unfold getFilesAndDirs. rewrite R. simpl.
  rewrite getFilesAndDirs_loop_In. intros [[]|(fi & I & D & S & ->)].
  apply HasSuffix_iff in S. destruct S as [stem S].
  specialize (C fi I). rewrite S, Count_append in C.
  exists stem. unfold entry_path, PathSeparator. rewrite S. split; [reflexivity|]. split.
  - destruct fi as [n d]. simpl in *. now subst.
  - apply getAccountNameFromKeyPath_in_dir; lia.
Qed.

End DirectoriesFacts.

Lemma getFilesAndDirs_then_getAccountNameFromKeyPath_witness :
  fst (getFilesAndDirs sample_ReadDir "/home/u/.iwallet" "_ed25519")
  = ["/home/u/.iwallet/alice_ed25519"; "/home/u/.iwallet/bob_ed25519"]
  /\ exists stem,
       "/home/u/.iwallet/bob_ed25519" = "/home/u/.iwallet" +:+ "/" +:+ stem +:+ "_ed25519"
       /\ In {| fi_Name := stem +:+ "_ed25519"; fi_IsDir := false |}
             [ {| fi_Name := "alice_ed25519"; fi_IsDir := false |};
               {| fi_Name := "alice_ed25519.pub"; fi_IsDir := false |};
               {| fi_Name := "old_ed25519"; fi_IsDir := true |};
               {| fi_Name := "bob_ed25519"; fi_IsDir := false |} ]
       /\ getAccountNameFromKeyPath "/home/u/.iwallet/bob_ed25519" "_ed25519"
          = Returns (stem, None).
Proof.
  split; [vm_compute; reflexivity|].
  apply (getFilesAndDirs_then_getAccountNameFromKeyPath sample_ReadDir
           "/home/u/.iwallet" "_ed25519" _ eq_refl).
  - intros fi H. simpl in H.
    destruct H as [<-|[<-|[<-|[<-|[]]]]]; reflexivity.
  - vm_compute. right. left. reflexivity.
Defined.

#[local] Arguments String.append : simpl never.

(* ===================================================================== *)
(** ** LoadKeyPair *)
(* ===================================================================== *)

(** X10.  [LoadKeyPair] refuses the empty name before it makes any call.
    For another name it asks for the home directory and, when that is
    known, returns what [sdk.LoadKeyPair] answers for the file
    [<home>/.iwallet/<name>_<signAlgo>], read with the algorithm
    [signAlgo]; it makes no other call.  When [signAlgo] is one of
    [ValidSignAlgos], that file is the private key file [SaveAccount]
    writes for a key pair of that algorithm. *)
Theorem LoadKeyPair_reads_key_file (signAlgo name : string) :
  (forall (W : Type) (os : OS W) (w : W),
     (name = "" ->
      run os (LoadKeyPair signAlgo name) w
      = (inr (Errorf "you must provide account name" []), w, []))
     /\ (name <> "" ->
         (exists err,
            trace os (LoadKeyPair signAlgo name) w = [ev homedir_Dir (inr err)]
            /\ result os (LoadKeyPair signAlgo name) w = inr err)
         \/ (exists home r,
               trace os (LoadKeyPair signAlgo name) w
               = [ev homedir_Dir (inl home);
                  ev (sdk_LoadKeyPair
                        ((home +:+ "/.iwallet") +:+ "/" +:+ name +:+ "_" +:+ signAlgo)
                        signAlgo) r]
               /\ result os (LoadKeyPair signAlgo name) w = r)))
  /\ (forall home kp,
        In signAlgo ValidSignAlgos -> GetSignAlgoByName signAlgo = Algorithm_ kp ->
        (home +:+ "/.iwallet") +:+ "/" +:+ name +:+ "_" +:+ signAlgo
        = sec_of home name kp).
Proof.
  split.
  - intros W os w. unfold LoadKeyPair. split.
    + intros ->. reflexivity.
    + intros N. destruct (String.eqb_spec name ""); [contradiction|].
      unfold result, trace, getAccountDir, perform. simpl.
      answer_next os; [|left; eauto].
      right. answer_next os; eauto.
  - intros home kp V A. unfold sec_of, keyFileName.
    destruct V as [<-|[<-|[]]]; rewrite <- A.
    + change (GetSignAlgoByName "ed25519") with Ed25519. cbv zeta iota.
      now rewrite !append_assoc.
    + change (GetSignAlgoByName "secp256k1") with Secp256k1. cbv zeta iota.
      now rewrite !append_assoc.
Qed.

(* ===================================================================== *)
(** ** SaveAccount on the file store *)
(* ===================================================================== *)

(** What no call changes: the home directory, the fault schedule, the
    umask and what the key file readers answer. *)
Lemma posix_keeps_setting (w0 : World) (c : call) (w : World) :
  same_setting w0 w -> same_setting w0 (snd (answer posix c w)).
Proof.
  unfold same_setting. intros H. destruct c; simpl; try exact H.
  - destruct (faults w (clock w)); [exact H|].
    now destruct (mkdirs (files w) (created_mode w perm) (dirs_of "" path)).
  - destruct (faults w (clock w)); [exact H|].
    destruct (files w !! name) as [i|]; [destruct (isdir i); exact H|].
    destruct (has_flag flag O_CREATE); exact H.
  - destruct (faults w (clock w)); [exact H|].
    destruct (files w !! f_name f); exact H.
  - destruct (faults w (clock w)); exact H.
  - destruct (faults w (clock w)); [exact H|].
    destruct (files w !! name); exact H.
Qed.

Lemma run_keeps_setting {R : Type} (p : IO R) (w : World) :
  same_setting w (final posix p w).
Proof.
  refine (steps_preserve posix (same_setting w) (fun _ => True)
            (fun c w1 _ => posix_keeps_setting w c w1) _ _ _ _ (run_steps posix p w) _).
  - apply Forall_forall. intros; exact I.
  - unfold same_setting. repeat split.
Qed.

(** What a call writes on standard output. *)
Lemma posix_stdout (c : call) (w : World) :
  stdout (snd (answer posix c w))
  = match c with fmt_Println a => stdout w ++ [a] | _ => stdout w end.
Proof.
  destruct c; simpl; try reflexivity.
  - destruct (faults w (clock w)); [reflexivity|].
    now destruct (mkdirs (files w) (created_mode w perm) (dirs_of "" path)).
  - destruct (faults w (clock w)); [reflexivity|].
    destruct (files w !! name) as [i|]; [now destruct (isdir i)|].
    now destruct (has_flag flag O_CREATE).
  - destruct (faults w (clock w)); [reflexivity|].
    now destruct (files w !! f_name f).
  - now destruct (faults w (clock w)).
  - destruct (faults w (clock w)); [reflexivity|].
    now destruct (files w !! name).
Qed.

(** No call removes an entry of the store, or changes its kind or its
    permission bits. *)
Lemma posix_keeps_meta (p : string) (i : inode) (c : call) (w : World) :
  same_meta p i w -> same_meta p i (snd (answer posix c w)).
Proof.
  unfold same_meta. intros (i' & Hi & Hd & Hm).
  destruct c; simpl; try (exists i'; auto; fail).
  - destruct (faults w (clock w)); [exists i'; auto|].
    pose proof (mkdirs_lookup (dirs_of "" path) (created_mode w perm) (files w) p) as M.
    destruct (mkdirs (files w) (created_mode w perm) (dirs_of "" path)) as [fs r].
    simpl in *. destruct M as [E|[E _]]; [|congruence].
    exists i'. rewrite E. auto.
  - destruct (faults w (clock w)); [exists i'; auto|].
    destruct (files w !! name) as [i0|] eqn:E.
    + destruct (isdir i0) eqn:D; [exists i'; auto|]. simpl.
      destruct (decide (name = p)) as [->|N].
      * rewrite lookup_insert_eq. rewrite Hi in E. injection E as <-.
        destruct (has_flag flag O_TRUNC); eexists; (split; [reflexivity|]); simpl; auto.
        split; congruence.
      * rewrite lookup_insert_ne by assumption. exists i'; auto.
    + destruct (has_flag flag O_CREATE); [|exists i'; auto]. simpl.
      destruct (decide (name = p)) as [->|N]; [congruence|].
      rewrite lookup_insert_ne by assumption. exists i'; auto.
  - destruct (faults w (clock w)); [exists i'; auto|].
    destruct (files w !! f_name f) as [i0|] eqn:E; [|exists i'; auto]. simpl.
    destruct (decide (f_name f = p)) as [<-|N].
    + rewrite lookup_insert_eq. rewrite Hi in E. injection E as <-.
      eexists; (split; [reflexivity|]); simpl; auto.
    + rewrite lookup_insert_ne by assumption. exists i'; auto.
  - destruct (faults w (clock w)); exists i'; auto.
  - destruct (faults w (clock w)); [exists i'; auto|].
    destruct (files w !! name); exists i'; auto.
Qed.

(** A call that leaves [p] alone leaves the entry of [p] as it is. *)
Lemma spares_keeps_entry (p : string) (i : inode) (c : call) (w : World) :
  spares p c -> files w !! p = Some i -> files (snd (answer posix c w)) !! p = Some i.
Proof.
  intros Hc Hi. destruct c; simpl in *; try assumption.
  - destruct (faults w (clock w)); [assumption|].
    pose proof (mkdirs_lookup (dirs_of "" path) (created_mode w perm) (files w) p) as M.
    destruct (mkdirs (files w) (created_mode w perm) (dirs_of "" path)) as [fs r].
    simpl in *. destruct M as [E|[E _]]; congruence.
  - destruct (faults w (clock w)); [assumption|].
    destruct (files w !! name) as [i0|] eqn:E.
    + destruct (isdir i0); [assumption|]. simpl. now rewrite lookup_insert_ne.
    + destruct (has_flag flag O_CREATE); [|assumption]. simpl. now rewrite lookup_insert_ne.
  - destruct (faults w (clock w)); [assumption|].
    destruct (files w !! f_name f) as [i0|] eqn:E; [|assumption].
    simpl. now rewrite lookup_insert_ne.
  - destruct (faults w (clock w)); assumption.
  - destruct (faults w (clock w)); [assumption|].
    destruct (files w !! name); assumption.
Qed.

(** After a call of [SaveAccount] that returned no error, the private key
    file holds the encoded private key. *)
Lemma SaveAccount_done_sec (Base58Encode : bytes -> string) (name : string) (kp : KeyPair)
    (w : World) (home : string) :
  Posix.home w = inl home ->
  result posix (SaveAccount Base58Encode name kp) w = None ->
  holds (sec_of home name kp) (Base58Encode (Seckey kp))
        (final posix (SaveAccount Base58Encode name kp) w).
Proof.
  intros Hh Hr.
  pose proof (SaveAccount_run Base58Encode name kp posix w) as O.
  pose proof (run_steps posix (SaveAccount Base58Encode name kp) w) as S.
  unfold sec_of in *.
  revert S Hr. destruct O; cbv zeta; intros S Hr; try discriminate Hr; unlet.
  destruct S as (S0 & S). simpl in S0. rewrite Hh in S0. injection S0 as ->.
  destruct S as (_ & _ & _ & S3 & S4 & S). cbn [projT1 projT2 ev] in S3, S4.
  pose proof (open_write_holds _ _ _ _ _ _ S3 S4) as K.
  refine (steps_preserve posix _ (spares _) (spares_keeps _ _) _ _ _ _ S K).
  repeat constructor; simpl; auto.
Qed.

(** X11.  When [SaveAccount] returns no error on the file store, the
    public key file holds the encoded public key and the private key file
    the encoded private key, whatever the two files held before, and
    standard output has one line more, which tells the path of the private
    key file. *)
Theorem SaveAccount_saved (Base58Encode : bytes -> string) (name : string) (kp : KeyPair)
    (w : World) (home : string) :
  Posix.home w = inl home ->
  result posix (SaveAccount Base58Encode name kp) w = None ->
  holds (pub_of home name kp) (Base58Encode (Pubkey kp))
        (final posix (SaveAccount Base58Encode name kp) w)
  /\ holds (sec_of home name kp) (Base58Encode (Seckey kp))
           (final posix (SaveAccount Base58Encode name kp) w)
  /\ stdout (final posix (SaveAccount Base58Encode name kp) w)
     = stdout w ++ [["Your account private key is saved at:"; sec_of home name kp]].
Proof.
  intros Hh Hr. split; [|split; [now apply SaveAccount_done_sec|]].
  - pose proof (SaveAccount_run Base58Encode name kp posix w) as O.
    pose proof (run_steps posix (SaveAccount Base58Encode name kp) w) as S.
    unfold pub_of, sec_of in *.
    revert S Hr. destruct O; cbv zeta; intros S Hr; try discriminate Hr; unlet.
    destruct S as (S0 & S). simpl in S0. rewrite Hh in S0. injection S0 as ->.
    destruct S as (_ & S1 & S2 & S). cbn [projT1 projT2 ev] in S1, S2.
    pose proof (open_write_holds _ _ _ _ _ _ S1 S2) as K.
    refine (steps_preserve posix _ (spares _) (spares_keeps _ _) _ _ _ _ S K).
    repeat constructor; simpl; auto using pub_ne_sec;
      apply not_eq_sym, append_ne; discriminate.
  - pose proof (SaveAccount_run Base58Encode name kp posix w) as O.
    pose proof (run_steps posix (SaveAccount Base58Encode name kp) w) as S.
    unfold sec_of in *.
    revert S Hr. destruct O; cbv zeta; intros S Hr; try discriminate Hr; unlet.
    destruct S as (S0 & S). simpl in S0. rewrite Hh in S0. injection S0 as ->.
    destruct S as (_ & _ & _ & _ & _ & _ & _ & _ & S). cbn [steps projT1 projT2 ev] in S.
    rewrite S, !posix_stdout. reflexivity.
Qed.

Lemma SaveAccount_saved_witness :
  holds "/home/u/.iwallet/alice_ed25519.pub" "AB"
        (final posix (SaveAccount Sample.base58 "alice" Sample.alice)
               (Sample.machine Sample.no_fault))
  /\ holds "/home/u/.iwallet/alice_ed25519" "ab"
           (final posix (SaveAccount Sample.base58 "alice" Sample.alice)
                  (Sample.machine Sample.no_fault))
  /\ stdout (final posix (SaveAccount Sample.base58 "alice" Sample.alice)
                   (Sample.machine Sample.no_fault))
     = [] ++ [["Your account private key is saved at:"; "/home/u/.iwallet/alice_ed25519"]].
Proof.
  apply (SaveAccount_saved Sample.base58 "alice" Sample.alice
           (Sample.machine Sample.no_fault) "/home/u"); [reflexivity|].
  vm_compute. reflexivity.
Defined.

(** Which file [loadAccountByName] reads on the file store when no call
    fails for another reason. *)
Lemma loadAccountByName_on_store (name : string) (ensureDecrypt : bool)
    (w : World) (home : string) :
  Posix.home w = inl home -> (forall k, faults w k = None) ->
  result posix (loadAccountByName name ensureDecrypt) w
  = if exists_file w ((home +:+ "/.iwallet") +:+ "/" +:+ name +:+ ".json")
    then keystores w ((home +:+ "/.iwallet") +:+ "/" +:+ name +:+ ".json") ensureDecrypt
    else if exists_file w ((home +:+ "/.iwallet") +:+ "/" +:+ name +:+ "_ed25519")
    then keypairfiles w ((home +:+ "/.iwallet") +:+ "/" +:+ name +:+ "_ed25519")
    else if exists_file w ((home +:+ "/.iwallet") +:+ "/" +:+ name +:+ "_secp256k1")
    then keypairfiles w ((home +:+ "/.iwallet") +:+ "/" +:+ name +:+ "_secp256k1")
    else inr (Errorf "account not exist" []).
Proof.
  intros Hh Hf.
  unfold result, exists_file, loadAccountByName, getAccountDir, os_Stat, perform. simpl.
  rewrite Hh. simpl. rewrite !Hf.
  destruct (files w !! _); simpl; [reflexivity|]. rewrite !Hf.
  destruct (files w !! _); simpl; [reflexivity|]. rewrite !Hf.
  destruct (files w !! _); simpl; reflexivity.
Qed.

Lemma sec_of_algo (home name : string) (kp : KeyPair) :
  sec_of home name kp
  = (home +:+ "/.iwallet") +:+ "/" +:+ name +:+ algo_suffix kp.
Proof.
  unfold sec_of, keyFileName, algo_suffix.
  destruct (Algorithm_ kp); cbv zeta iota; now rewrite !append_assoc.
Qed.

(** X12.  An account that [SaveAccount] saved is found by
    [loadAccountByName]: on the file store, after a call of [SaveAccount]
    that returned no error and when no later call fails for another
    reason, [loadAccountByName] does not answer that the account does not
    exist.  It reads the consolidated file [<name>.json] when there is
    one, else the ed25519 key file when there is one, else the key file
    just saved; so the key file just saved is the one read when there is
    no consolidated file and the key is an ed25519 key or there is no
    ed25519 key file. *)
Theorem SaveAccount_then_loadAccountByName (Base58Encode : bytes -> string)
    (name : string) (kp : KeyPair) (ensureDecrypt : bool) (w : World) (home : string) :
  Posix.home w = inl home -> (forall k, faults w k = None) ->
  result posix (SaveAccount Base58Encode name kp) w = None ->
  let w' := final posix (SaveAccount Base58Encode name kp) w in
  let dir := home +:+ "/.iwallet" in
  exists_file w' (sec_of home name kp) = true
  /\ result posix (loadAccountByName name ensureDecrypt) w'
     = (if exists_file w' (dir +:+ "/" +:+ name +:+ ".json")
        then keystores w (dir +:+ "/" +:+ name +:+ ".json") ensureDecrypt
        else if exists_file w' (dir +:+ "/" +:+ name +:+ "_ed25519")
        then keypairfiles w (dir +:+ "/" +:+ name +:+ "_ed25519")
        else keypairfiles w (sec_of home name kp))
  /\ (exists_file w' (dir +:+ "/" +:+ name +:+ ".json") = false ->
      Algorithm_ kp = Ed25519 \/ exists_file w' (dir +:+ "/" +:+ name +:+ "_ed25519") = false ->
      result posix (loadAccountByName name ensureDecrypt) w'
      = keypairfiles w (sec_of home name kp)).
Proof.
  intros Hh Hf Hr w' dir.
  destruct (SaveAccount_done_sec Base58Encode name kp w home Hh Hr) as (i & Hi & _).
  fold w' in Hi.
  assert (E : exists_file w' (sec_of home name kp) = true)
    by (unfold exists_file; now rewrite Hi).
  pose proof (run_keeps_setting (SaveAccount Base58Encode name kp) w) as K.
  fold w' in K. destruct K as (Kh & Kf & _ & Ks & Kp & _).
  assert (L : result posix (loadAccountByName name ensureDecrypt) w'
     = (if exists_file w' (dir +:+ "/" +:+ name +:+ ".json")
        then keystores w (dir +:+ "/" +:+ name +:+ ".json") ensureDecrypt
        else if exists_file w' (dir +:+ "/" +:+ name +:+ "_ed25519")
        then keypairfiles w (dir +:+ "/" +:+ name +:+ "_ed25519")
        else keypairfiles w (sec_of home name kp))).
  { rewrite (loadAccountByName_on_store name ensureDecrypt w' home)
      by (rewrite ?Kh, ?Kf; auto).
    rewrite Ks, Kp. fold dir.
    destruct (exists_file w' (dir +:+ "/" +:+ name +:+ ".json")); [reflexivity|].
    destruct (exists_file w' (dir +:+ "/" +:+ name +:+ "_ed25519")) eqn:E1; [reflexivity|].
    rewrite sec_of_algo in E |- *. fold dir in E |- *. unfold algo_suffix in *.
    destruct (Algorithm_ kp); [now rewrite E|congruence]. }
  split; [exact E|]. split; [exact L|].
  intros J [A|A]; rewrite L, J.
  - rewrite sec_of_algo in E |- *. fold dir in E |- *. unfold algo_suffix in *.
    rewrite A in *. now rewrite E.
  - now rewrite A.
Qed.

(** X13.  [SaveAccount] removes nothing and changes no permission:
    whatever happens during the call, an entry of the file store that was
    there before is there after, of the same kind and with the same
    permission bits (so a key file that existed keeps the bits it had; the
    modes of the call are for files it creates); and an entry other than
    the two key files of the account is left as it was, contents
    included. *)
Theorem SaveAccount_keeps_store (Base58Encode : bytes -> string) (name : string)
    (kp : KeyPair) (w : World) (home : string) (p : string) (i : inode) :
  Posix.home w = inl home -> files w !! p = Some i ->
  (exists i',
     files (final posix (SaveAccount Base58Encode name kp) w) !! p = Some i'
     /\ isdir i' = isdir i /\ mode i' = mode i)
  /\ (p <> pub_of home name kp -> p <> sec_of home name kp ->
      files (final posix (SaveAccount Base58Encode name kp) w) !! p = Some i).
Proof.
  intros Hh Hi.
  pose proof (run_steps posix (SaveAccount Base58Encode name kp) w) as S.
  split.
  - refine (steps_preserve posix (same_meta p i) (fun _ => True)
              (fun c w1 _ => posix_keeps_meta p i c w1) _ _ _ _ S _).
    + apply Forall_forall. intros; exact I.
    + exists i. auto.
  - intros Np Ns.
    pose proof (SaveAccount_run Base58Encode name kp posix w) as O.
    refine (steps_preserve posix (fun w1 => files w1 !! p = Some i) (spares p)
              (spares_keeps_entry p i) _ _ _ _ S Hi).
    unfold pub_of, sec_of in *.
    revert S. destruct O; cbv zeta; intros [S0 _]; simpl in S0; rewrite Hh in S0;
      first [discriminate S0 | injection S0 as ->];
      repeat constructor; simpl; auto.
Qed.

(** X14.  On every machine: [SaveAccount] prints its message exactly when
    it returns no error, and the message tells the path of the private key
    file; every file it opened is closed before it returns, whatever
    failed in between, and it closes nothing else; what closing answers
    does not reach the result. *)
Theorem SaveAccount_message_and_close (Base58Encode : bytes -> string) (name : string)
    (kp : KeyPair) (W : Type) (os : OS W) (w : W) :
  (result os (SaveAccount Base58Encode name kp) w = None <->
   exists a, In (ev (fmt_Println a) tt) (trace os (SaveAccount Base58Encode name kp) w))
  /\ (forall a r, In (ev (fmt_Println a) r) (trace os (SaveAccount Base58Encode name kp) w) ->
        exists home, a = ["Your account private key is saved at:"; sec_of home name kp])
  /\ (forall n flag perm fd,
        In (ev (sys_open n flag perm) (inl fd)) (trace os (SaveAccount Base58Encode name kp) w) ->
        exists cl, In (ev (sys_close {| f_name := n; f_fd := fd |}) cl)
                      (trace os (SaveAccount Base58Encode name kp) w))
  /\ (forall f cl,
        In (ev (sys_close f) cl) (trace os (SaveAccount Base58Encode name kp) w) ->
        exists flag perm,
          In (ev (sys_open (f_name f) flag perm) (inl (f_fd f)))
             (trace os (SaveAccount Base58Encode name kp) w))
  /\ (forall f e,
        In (ev (sys_close f) (Some e)) (trace os (SaveAccount Base58Encode name kp) w) ->
        result os (SaveAccount Base58Encode name kp) w <> Some (PathError "close" (f_name f) e)).
Proof.
  pose proof (SaveAccount_run Base58Encode name kp os w) as O.
  destruct O; cbv zeta in *; unlet.
  all: split; [split; [try discriminate; intros _; eexists; simpl; eauto 10
                      |intros (a & H); ev_in H; reflexivity]|].
  all: split; [intros a r H; ev_in H; eexists; reflexivity|].
  all: split; [intros n flag perm fd0 H; ev_in H; eexists; simpl; eauto 12|].
  all: split; [intros f c H; ev_in H; eexists _, _; simpl; eauto 12|].
  all: intros f e' H; ev_in H; discriminate.
Qed.

(** Closing the private key file fails (call number 5): [SaveAccount]
    returns no error all the same, and both files are written. *)
Example SaveAccount_alice_close_fails :
  let w' := final posix (SaveAccount Sample.base58 "alice" Sample.alice)
                  (Sample.machine (Sample.full_at 5)) in
  result posix (SaveAccount Sample.base58 "alice" Sample.alice)
         (Sample.machine (Sample.full_at 5)) = None
  /\ In (ev (sys_close {| f_name := "/home/u/.iwallet/alice_ed25519"; f_fd := 4 |}) (Some 28))
        (trace posix (SaveAccount Sample.base58 "alice" Sample.alice)
               (Sample.machine (Sample.full_at 5)))
  /\ files w' !! "/home/u/.iwallet/alice_ed25519"
     = Some {| isdir := false; mode := octal [4;0;0]; data := "ab" |}.
Proof. vm_compute. split; [reflexivity|]. split; [|reflexivity]. do 7 right. now left. Qed.

Lemma SaveAccount_then_loadAccountByName_witness :
  let w' := final posix (SaveAccount Sample.base58 "bob" Sample.bob)
                  (Sample.machine_with ["/home/u/.iwallet/bob_ed25519"] Sample.no_fault) in
  let dir := "/home/u" +:+ "/.iwallet" in
  exists_file w' (sec_of "/home/u" "bob" Sample.bob) = true
  /\ result posix (loadAccountByName "bob" true) w'
     = (if exists_file w' (dir +:+ "/" +:+ "bob" +:+ ".json")
        then keystores
               (Sample.machine_with ["/home/u/.iwallet/bob_ed25519"] Sample.no_fault)
               (dir +:+ "/" +:+ "bob" +:+ ".json") true
        else if exists_file w' (dir +:+ "/" +:+ "bob" +:+ "_ed25519")
        then keypairfiles
               (Sample.machine_with ["/home/u/.iwallet/bob_ed25519"] Sample.no_fault)
               (dir +:+ "/" +:+ "bob" +:+ "_ed25519")
        else keypairfiles
               (Sample.machine_with ["/home/u/.iwallet/bob_ed25519"] Sample.no_fault)
               (sec_of "/home/u" "bob" Sample.bob))
  /\ (exists_file w' (dir +:+ "/" +:+ "bob" +:+ ".json") = false ->
      Algorithm_ Sample.bob = Ed25519
      \/ exists_file w' (dir +:+ "/" +:+ "bob" +:+ "_ed25519") = false ->
      result posix (loadAccountByName "bob" true) w'
      = keypairfiles
          (Sample.machine_with ["/home/u/.iwallet/bob_ed25519"] Sample.no_fault)
          (sec_of "/home/u" "bob" Sample.bob)).
Proof.
  apply (SaveAccount_then_loadAccountByName Sample.base58 "bob" Sample.bob true
           (Sample.machine_with ["/home/u/.iwallet/bob_ed25519"] Sample.no_fault) "/home/u").
  - reflexivity.
  - intros k. reflexivity.
  - vm_compute. reflexivity.
Defined.

(** The secp256k1 key of [bob] is saved next to an ed25519 key file of the
    same account: [loadAccountByName] reads the ed25519 file. *)
Example SaveAccount_then_loadAccountByName_other_key :
  result posix (loadAccountByName "bob" true)
    (final posix (SaveAccount Sample.base58 "bob" Sample.bob)
       (Sample.machine_with ["/home/u/.iwallet/bob_ed25519"] Sample.no_fault))
  = inl {| Name := "key file /home/u/.iwallet/bob_ed25519"; Keypairs := ∅ |}.
Proof. vm_compute. reflexivity. Qed.

Lemma SaveAccount_keeps_store_witness :
  let w := Sample.machine_with ["/home/u/.iwallet/alice_ed25519"; "/home/u/notes"]
             Sample.no_fault in
  ((exists i',
      files (final posix (SaveAccount Sample.base58 "alice" Sample.alice) w)
        !! "/home/u/.iwallet/alice_ed25519" = Some i'
      /\ isdir i' = isdir {| isdir := false; mode := octal [6;0;0]; data := "" |}
      /\ mode i' = mode {| isdir := false; mode := octal [6;0;0]; data := "" |})
   /\ ("/home/u/.iwallet/alice_ed25519" <> pub_of "/home/u" "alice" Sample.alice ->
       "/home/u/.iwallet/alice_ed25519" <> sec_of "/home/u" "alice" Sample.alice ->
       files (final posix (SaveAccount Sample.base58 "alice" Sample.alice) w)
         !! "/home/u/.iwallet/alice_ed25519"
       = Some {| isdir := false; mode := octal [6;0;0]; data := "" |}))
  /\ ((exists i',
         files (final posix (SaveAccount Sample.base58 "alice" Sample.alice) w)
           !! "/home/u/notes" = Some i'
         /\ isdir i' = isdir {| isdir := false; mode := octal [6;0;0]; data := "" |}
         /\ mode i' = mode {| isdir := false; mode := octal [6;0;0]; data := "" |})
      /\ ("/home/u/notes" <> pub_of "/home/u" "alice" Sample.alice ->
          "/home/u/notes" <> sec_of "/home/u" "alice" Sample.alice ->
          files (final posix (SaveAccount Sample.base58 "alice" Sample.alice) w)
            !! "/home/u/notes"
          = Some {| isdir := false; mode := octal [6;0;0]; data := "" |})).
Proof.
  intros w. split.
  - apply (SaveAccount_keeps_store Sample.base58 "alice" Sample.alice w "/home/u");
      vm_compute; reflexivity.
  - apply (SaveAccount_keeps_store Sample.base58 "alice" Sample.alice w "/home/u");
      vm_compute; reflexivity.
Defined.

(** The key file of [alice] was there with mode 0600: after [SaveAccount]
    it holds the new key and still has mode 0600, not 0400. *)
Example SaveAccount_existing_key_file :
  files (final posix (SaveAccount Sample.base58 "alice" Sample.alice)
           (Sample.machine_with ["/home/u/.iwallet/alice_ed25519"] Sample.no_fault))
    !! "/home/u/.iwallet/alice_ed25519"
  = Some {| isdir := false; mode := octal [6;0;0]; data := "ab" |}.
Proof. vm_compute. reflexivity. Qed.

(** X21.  A key that [SaveAccount] saved is the key [LoadKeyPair] asks
    for.  Every key pair has exactly one algorithm name among
    [ValidSignAlgos] that [GetSignAlgoByName] maps to its algorithm.  On
    the file store, after [SaveAccount] returned no error for an account
    name that is not empty, [LoadKeyPair] under that algorithm name
    returns what [sdk.LoadKeyPair] answers for the private key file just
    written, which holds the encoded private key; and it changes
    nothing. *)
Theorem SaveAccount_then_LoadKeyPair (Base58Encode : bytes -> string) (name : string)
    (kp : KeyPair) :
  (exists signAlgo,
     In signAlgo ValidSignAlgos /\ GetSignAlgoByName signAlgo = Algorithm_ kp
     /\ algo_suffix kp = "_" +:+ signAlgo
     /\ forall other, In other ValidSignAlgos ->
          GetSignAlgoByName other = Algorithm_ kp -> other = signAlgo)
  /\ (forall (w : World) (home signAlgo : string),
        Posix.home w = inl home -> name <> "" ->
        result posix (SaveAccount Base58Encode name kp) w = None ->
        In signAlgo ValidSignAlgos -> GetSignAlgoByName signAlgo = Algorithm_ kp ->
        let w' := final posix (SaveAccount Base58Encode name kp) w in
        run posix (LoadKeyPair signAlgo name) w'
        = (keypairs w (sec_of home name kp) signAlgo, w',
           [ev homedir_Dir (inl home);
            ev (sdk_LoadKeyPair (sec_of home name kp) signAlgo)
               (keypairs w (sec_of home name kp) signAlgo)])
        /\ holds (sec_of home name kp) (Base58Encode (Seckey kp)) w').
Proof.
  split.
  - destruct (Algorithm_ kp) eqn:A.
    + exists "secp256k1". unfold algo_suffix. rewrite A.
      repeat split; [right; now left|].
      intros other [<-|[<-|[]]]; [discriminate|reflexivity].
    + exists "ed25519". unfold algo_suffix. rewrite A.
      repeat split; [now left|].
      intros other [<-|[<-|[]]]; [reflexivity|discriminate].
  - intros w home signAlgo Hh Hn Hr V A w'.
    split; [|now apply SaveAccount_done_sec].
    pose proof (run_keeps_setting (SaveAccount Base58Encode name kp) w) as K.
    fold w' in K. destruct K as (Kh & _ & _ & _ & _ & Kk & _).
    assert (P : (home +:+ "/.iwallet") +:+ "/" +:+ name +:+ "_" +:+ signAlgo
                = sec_of home name kp).
    { rewrite sec_of_algo. unfold algo_suffix. rewrite <- A.
      destruct V as [<-|[<-|[]]]; reflexivity. }
    unfold LoadKeyPair. destruct (String.eqb_spec name ""); [contradiction|].
    unfold getAccountDir, perform. simpl. rewrite Kh, Hh. simpl.
    rewrite P, Kk. reflexivity.
Qed.

Lemma SaveAccount_then_LoadKeyPair_witness :
  let w := Sample.machine Sample.no_fault in
  let w' := final posix (SaveAccount Sample.base58 "alice" Sample.alice) w in
  run posix (LoadKeyPair "ed25519" "alice") w'
  = (keypairs w (sec_of "/home/u" "alice" Sample.alice) "ed25519", w',
     [ev homedir_Dir (inl "/home/u");
      ev (sdk_LoadKeyPair (sec_of "/home/u" "alice" Sample.alice) "ed25519")
         (keypairs w (sec_of "/home/u" "alice" Sample.alice) "ed25519")])
  /\ holds (sec_of "/home/u" "alice" Sample.alice)
           (Sample.base58 (Seckey Sample.alice)) w'.
Proof.
  intros w w'.
  apply (proj2 (SaveAccount_then_LoadKeyPair Sample.base58 "alice" Sample.alice)
           w "/home/u" "ed25519").
  - reflexivity.
  - discriminate.
  - vm_compute. reflexivity.
  - now left.
  - reflexivity.
Defined.

(** X22.  Loading changes nothing.  On every machine, the calls of
    [loadAccountByName], of [LoadKeyPair] and of [LoadAndSetAccountForSDK]
    only ask and read: the home directory, whether a file exists, and the
    readers of key files; none makes a directory, opens or writes a file,
    or prints.  So on the file store they leave the files and standard
    output as they were. *)
Theorem loading_reads_only (name signAlgo signPerm : string) (ensureDecrypt : bool)
    (SDK : Type) (SetAccount : SDK -> string -> KeyPair -> SDK)
    (toKeyPair : KeyPair -> KeyPair + error) (s : SDK) :
  (forall (W : Type) (os : OS W) (w : W),
     Forall (fun e => reads (projT1 e)) (trace os (loadAccountByName name ensureDecrypt) w)
     /\ Forall (fun e => reads (projT1 e)) (trace os (LoadKeyPair signAlgo name) w)
     /\ Forall (fun e => reads (projT1 e))
          (trace os (LoadAndSetAccountForSDK SDK SetAccount toKeyPair name signPerm s) w))
  /\ (forall w : World,
        (files (final posix (loadAccountByName name ensureDecrypt) w) = files w
         /\ stdout (final posix (loadAccountByName name ensureDecrypt) w) = stdout w)
        /\ (files (final posix (LoadKeyPair signAlgo name) w) = files w
            /\ stdout (final posix (LoadKeyPair signAlgo name) w) = stdout w)
        /\ (files (final posix
                     (LoadAndSetAccountForSDK SDK SetAccount toKeyPair name signPerm s) w)
            = files w
            /\ stdout (final posix
                         (LoadAndSetAccountForSDK SDK SetAccount toKeyPair name signPerm s) w)
               = stdout w)).
Proof.
  assert (A : forall (W : Type) (os : OS W) (w : W) d,
            Forall (fun e => reads (projT1 e)) (trace os (loadAccountByName name d) w)).
  { intros W os w d.
    unfold trace, loadAccountByName, getAccountDir, os_Stat, perform. simpl.
    repeat (answer_next os; repeat constructor). }
  assert (B : forall (W : Type) (os : OS W) (w : W),
            Forall (fun e => reads (projT1 e)) (trace os (LoadKeyPair signAlgo name) w)).
  { intros W os w. unfold trace, LoadKeyPair.
    destruct (String.eqb name ""); [constructor|].
    unfold getAccountDir, perform. simpl.
    repeat (answer_next os; repeat constructor). }
  assert (C : forall (W : Type) (os : OS W) (w : W),
            Forall (fun e => reads (projT1 e))
              (trace os (LoadAndSetAccountForSDK SDK SetAccount toKeyPair name signPerm s) w)).
  { intros W os w. unfold trace, LoadAndSetAccountForSDK. rewrite run_bind.
    specialize (A W os w true). unfold trace in A.
    destruct (run os (loadAccountByName name true) w) as [[r w1] tr].
    destruct r as [a|err]; simpl;
      [destruct (Keypairs a !! signPerm) as [kp|]; simpl;
         [destruct (toKeyPair kp); simpl|]|];
      now rewrite app_nil_r. }
  split; [auto|].
  assert (K : forall (R : Type) (p : IO R) (w : World),
            Forall (fun e => reads (projT1 e)) (trace posix p w) ->
            files (final posix p w) = files w /\ stdout (final posix p w) = stdout w).
  { intros R p w F.
    refine (steps_preserve posix
              (fun w1 => files w1 = files w /\ stdout w1 = stdout w) reads
              _ _ _ _ F (run_steps posix p w) _); [|auto].
    intros c w1 Hc [Hf Ho]. destruct c; simpl in *; try contradiction; auto.
    destruct (faults w1 (clock w1)); [auto|].
    destruct (files w1 !! name0); auto. }
  intros w. auto.
Qed.

(* ===================================================================== *)
(** ** LoadAndSetAccountForSDK and InitAccount *)
(* ===================================================================== *)

Section SDKFacts.

Context {SDK : Type} (SetAccount : SDK -> string -> KeyPair -> SDK).
Context (toKeyPair : KeyPair -> KeyPair + error).
Context (accountName signPerm : string).

(** X15.  On every machine, [LoadAndSetAccountForSDK] makes the calls of
    [loadAccountByName] for the account name, with decryption asked for,
    and no other.  It returns no error exactly when the account loads,
    holds a key pair under the permission [signPerm] and that key pair
    converts; the SDK then has that key set for the account.  In every
    other case the SDK is left as it was; an account without the
    permission gives the error that names the permission.  [InitAccount]
    is the same on the SDK of the package. *)
Theorem LoadAndSetAccountForSDK_sets_or_leaves (s : SDK) (W : Type) (os : OS W) (w : W) :
  let p := LoadAndSetAccountForSDK SDK SetAccount toKeyPair accountName signPerm s in
  let load := loadAccountByName accountName true in
  trace os p w = trace os load w
  /\ final os p w = final os load w
  /\ (snd (result os p w) = None <->
      exists a kp keyPair,
        result os load w = inl a /\ Keypairs a !! signPerm = Some kp
        /\ toKeyPair kp = inl keyPair)
  /\ (forall a kp keyPair,
        result os load w = inl a -> Keypairs a !! signPerm = Some kp ->
        toKeyPair kp = inl keyPair ->
        result os p w = (SetAccount s accountName keyPair, None))
  /\ (snd (result os p w) <> None -> fst (result os p w) = s)
  /\ (forall a,
        result os load w = inl a -> Keypairs a !! signPerm = None ->
        result os p w = (s, Some (Errorf "invalid permission %v" [VString signPerm]))
        /\ names (Errorf "invalid permission %v" [VString signPerm]) signPerm)
  /\ (forall err, result os load w = inr err -> result os p w = (s, Some err))
  /\ InitAccount SDK SetAccount toKeyPair accountName signPerm s = p.
Proof.
  cbv zeta. unfold InitAccount, LoadAndSetAccountForSDK, result, final, trace.
  rewrite run_bind.
  destruct (run os (loadAccountByName accountName true) w) as [[r w1] tr].
  destruct r as [a|err]; simpl;
    [destruct (Keypairs a !! signPerm) as [kp|] eqn:K; simpl;
       [destruct (toKeyPair kp) as [keyPair|err] eqn:T; simpl|]|];
    rewrite app_nil_r.
  all: split; [reflexivity|split; [reflexivity|]].
  all: split; [split; [first [discriminate
                             |intros _; eexists _, _, _; split;
                              [reflexivity|split; eassumption]]
                      |intros (a0 & kp0 & keyPair0 & E & K0 & T0);
                                               simplify_eq; try first [reflexivity|congruence]]|].
  all: split; [intros a0 kp0 keyPair0 E K0 T0; simplify_eq;
               try first [reflexivity|congruence]|].
  all: split; [try congruence; reflexivity|].
  all: split; [intros a0 E K0; simplify_eq;
               try (split; [first [reflexivity|congruence]|now left])|].
  all: split; [intros err0 E; simplify_eq; try reflexivity|reflexivity].
Qed.

End SDKFacts.

(* ===================================================================== *)
(** ** More on checkSigners, ParseAmountLimit and the checks of arguments *)
(* ===================================================================== *)

(** X16.  Checking a list of signers made of two lists is checking the
    first and then, when it passes, the second: the error is that of the
    first list when it has one. *)
Theorem checkSigners_app (a b : list string) :
  checkSigners (a ++ b)
  = match checkSigners a with
    | Some err => Some err
    | None => checkSigners b
    end.
Proof.
  induction a as [|s a IH]; [reflexivity|].
  simpl app. rewrite !checkSigners_cons.
  now destruct (Nat.eqb (Count s "@") 1).
Qed.

Lemma concat_Split (s : string) (sep : ascii) :
  String.concat (String sep EmptyString) (Split s sep) = s.
Proof.
  induction s as [|c s IH]; [reflexivity|]. simpl Split.
  pose proof (Split_length s sep) as L.
  destruct (Split s sep) as [|x xs] eqn:E; [discriminate|].
  destruct (Ascii.eqb_spec c sep) as [->|N].
  - simpl. simpl in IH. now rewrite IH.
  - simpl in *. destruct xs; simpl in *; now rewrite <- IH.
Qed.

Section AmountLimitsMore.

Variable pf : string -> Z -> float64 * option error.

Lemma ParseAmountLimit_loop_error_empty (splits : list string) (acc : list AmountLimit) :
  snd (ParseAmountLimit_loop pf splits acc) <> None ->
  fst (ParseAmountLimit_loop pf splits acc) = [].
Proof.
  revert acc. induction splits as [|gram rest IH]; intros acc.
  - simpl. congruence.
  - rewrite ParseAmountLimit_loop_cons.
    destruct (parse_group pf gram); [apply IH|reflexivity].
Qed.

Lemma ParseAmountLimit_loop_app (a b : list string) (acc : list AmountLimit) :
  ParseAmountLimit_loop pf (a ++ b) acc
  = match ParseAmountLimit_loop pf a acc with
    | (res, None) => ParseAmountLimit_loop pf b res
    | (res, Some err) => (res, Some err)
    end.
Proof.
  revert acc. induction a as [|gram a IH]; intros acc; [reflexivity|].
  simpl app. rewrite !ParseAmountLimit_loop_cons.
  destruct (parse_group pf gram); [apply IH|reflexivity].
Qed.

Lemma ParseAmountLimit_loop_acc (a : list string) (acc : list AmountLimit) :
  ParseAmountLimit_loop pf a acc
  = match ParseAmountLimit_loop pf a [] with
    | (res, None) => (acc ++ res, None)
    | (res, Some err) => (res, Some err)
    end.
Proof.
  destruct (ParseAmountLimit_loop pf a []) as [res [err|]] eqn:E.
  - pose proof (ParseAmountLimit_loop_error_empty a [] ) as Z0.
    rewrite E in Z0. simpl in Z0. rewrite Z0 by discriminate.
    revert acc E. generalize (@nil AmountLimit) at 1.
    induction a as [|gram a IH]; intros acc0 acc E; [discriminate|].
    rewrite ParseAmountLimit_loop_cons in *.
    destruct (parse_group pf gram); [|congruence]. now apply (IH (acc0 ++ [a0])).
  - apply ParseAmountLimit_loop_ok in E. destruct E as (lims & F & ->).
    apply ParseAmountLimit_loop_ok. exists lims. auto.
Qed.

Lemma ParseAmountLimit_error_empty (limitStr : string) :
  snd (ParseAmountLimit pf limitStr) <> None -> fst (ParseAmountLimit pf limitStr) = [].
Proof.
  unfold ParseAmountLimit. destruct (String.eqb limitStr ""); [reflexivity|].
  apply ParseAmountLimit_loop_error_empty.
Qed.

(** X17.  What [ParseAmountLimit] returns can be written back: without
    error, the string is the entries' tokens and values, each pair joined
    by a colon and the pairs by [|], and a string that is not empty gives
    one entry more than it holds [|]; with an error, the list returned is
    empty. *)
Theorem ParseAmountLimit_written_back (limitStr : string) :
  (forall result,
     ParseAmountLimit pf limitStr = (result, None) ->
     limitStr = String.concat "|" (map group_text result)
     /\ (limitStr <> "" -> List.length result = S (Count limitStr "|")))
  /\ (snd (ParseAmountLimit pf limitStr) <> None ->
      fst (ParseAmountLimit pf limitStr) = []).
Proof.
  split.
  - intros result H. destruct (String.eqb_spec limitStr "") as [->|Hne].
    + injection H as <-. split; [reflexivity|congruence].
    + rewrite (ParseAmountLimit_nonempty pf _ Hne) in H.
      apply ParseAmountLimit_loop_ok in H. destruct H as (lims & F & ->). simpl.
      split.
      * rewrite <- (concat_Split limitStr "|") at 1. f_equal.
        induction F as [|g l gs ls [[Hg _] _] _ IH]; [reflexivity|].
        simpl. now rewrite IH, Hg.
      * intros _. rewrite <- Split_length. symmetry. eapply Forall2_length, F.
  - apply ParseAmountLimit_error_empty.
Qed.

(** X18.  Amount limit strings are joined with [|]: for two strings that
    are not empty, the joined string is accepted exactly when both are,
    with the entries of the first followed by those of the second; when
    the first is refused, the joined string is refused with the same
    error.  An empty string on either side makes an empty group, which is
    refused. *)
Theorem ParseAmountLimit_joined (a b : string) :
  a <> "" -> b <> "" ->
  (forall result,
     ParseAmountLimit pf (a +:+ "|" +:+ b) = (result, None) <->
     exists ra rb, ParseAmountLimit pf a = (ra, None)
                   /\ ParseAmountLimit pf b = (rb, None) /\ result = ra ++ rb)
  /\ (forall err, snd (ParseAmountLimit pf a) = Some err ->
        ParseAmountLimit pf (a +:+ "|" +:+ b) = ([], Some err))
  /\ snd (ParseAmountLimit pf (a +:+ "|")) <> None
  /\ snd (ParseAmountLimit pf ("|" +:+ b)) <> None.
Proof.
  intros Ha Hb.
  assert (Hab : forall x y, x +:+ "|" +:+ y <> "") by (intros [|? ?] y; discriminate).
  assert (J : ParseAmountLimit pf (a +:+ "|" +:+ b)
              = match ParseAmountLimit pf a with
                | (res, None) => ParseAmountLimit_loop pf (Split b "|") res
                | (res, Some err) => (res, Some err)
                end).
  { rewrite !ParseAmountLimit_nonempty by auto.
    change (a +:+ "|" +:+ b) with (a +:+ String "|" b).
    now rewrite Split_append, ParseAmountLimit_loop_app. }
  assert (E : forall x, snd (ParseAmountLimit pf x) = None ->
              forall g, In g (Split x "|") -> x <> "" -> g <> "").
  { intros x Hx g Hg Hxne ->. rewrite ParseAmountLimit_nonempty in Hx by assumption.
    destruct (ParseAmountLimit_loop pf (Split x "|") []) as [res [e|]] eqn:L;
      [discriminate|].
    apply ParseAmountLimit_loop_ok in L. destruct L as (lims & F & _).
    clear -F Hg. induction F as [|g l gs ls [[Hgr _] _] _ IH]; [destruct Hg|].
    destruct Hg as [->|Hg]; [|auto].
    destruct (Token l); discriminate. }
  split; [|split; [|split]].
  - intros result. rewrite J. split.
    + destruct (ParseAmountLimit pf a) as [ra [e|]] eqn:A; [discriminate|].
      rewrite ParseAmountLimit_loop_acc.
      destruct (ParseAmountLimit_loop pf (Split b "|") []) as [rb [e|]] eqn:B;
        [discriminate|].
      intros [= <-]. exists ra, rb. rewrite (ParseAmountLimit_nonempty pf b Hb). auto.
    + intros (ra & rb & A & B & ->). rewrite A, ParseAmountLimit_loop_acc.
      rewrite (ParseAmountLimit_nonempty pf b Hb) in B. now rewrite B.
  - intros err A. rewrite J.
    pose proof (ParseAmountLimit_error_empty a) as Z0.
    destruct (ParseAmountLimit pf a) as [ra [e|]]; simpl in *; [|discriminate].
    injection A as ->. rewrite Z0 by discriminate. reflexivity.
  - intros H. apply (E _ H ""); [|apply Hab|reflexivity].
    change (a +:+ "|") with (a +:+ String "|" ""). rewrite Split_append.
    apply in_or_app. right. now left.
  - intros H. apply (E _ H ""); [now left|apply (Hab "")|reflexivity].
Qed.

(** X19.  [checkFloat] and [ParseAmountLimit] agree on numbers: a value
    that is not the word [unlimited] and holds no colon and no [|] is
    accepted as the limit of a token exactly when [checkFloat] accepts
    it.  [checkFloat] writes the help text exactly when it refuses. *)
Theorem checkFloat_agrees_with_ParseAmountLimit (token value argName : string) :
  Count token ":" = 0%nat -> Count token "|" = 0%nat ->
  Count value ":" = 0%nat -> Count value "|" = 0%nat ->
  value <> "unlimited" ->
  (snd (checkFloat pf value argName) = None
   <-> ParseAmountLimit pf (token +:+ ":" +:+ value)
       = ([{| Token := token; Value := value |}], None))
  /\ (snd (checkFloat pf value argName) = None
      <-> snd (ParseAmountLimit pf (token +:+ ":" +:+ value)) = None)
  /\ (snd (checkFloat pf value argName) = None
      <-> fst (checkFloat pf value argName) = []).
Proof.
  intros Ct Bt Cv Bv N.
  assert (Hne : token +:+ ":" +:+ value <> "") by (destruct token; discriminate).
  assert (B : Count (token +:+ ":" +:+ value) "|" = 0%nat).
  { change (token +:+ ":" +:+ value) with (token +:+ String ":" value).
    rewrite Count_append. simpl. lia. }
  rewrite (ParseAmountLimit_nonempty pf _ Hne), (Split_of_Count_0 _ _ B).
  rewrite ParseAmountLimit_loop_cons. unfold checkFloat.
  destruct (snd (pf value 64)) as [err|] eqn:P.
  - rewrite (parse_group_value pf token value err Ct Cv N P). simpl.
    repeat split; discriminate.
  - assert (G : parse_group pf (token +:+ ":" +:+ value)
                = inl {| Token := token; Value := value |}).
    { apply parse_group_inl. repeat split; simpl; auto. }
    rewrite G. simpl. repeat split; reflexivity.
Qed.

End AmountLimitsMore.

(** X20.  [checkArgsNumber] never panics.  It returns no error, and
    writes nothing, exactly when there are at least as many arguments as
    names; otherwise it writes the help text and an empty line, and its
    error lists the names that have no argument: those after the first
    [len(args)] names, which are at least one. *)
Theorem checkArgsNumber_missing (args argNames : list string) :
  checkArgsNumber args argNames <> Panics
  /\ (checkArgsNumber args argNames = Returns ([], None)
      <-> (List.length argNames <= List.length args)%nat)
  /\ ((List.length args < List.length argNames)%nat ->
      exists given missing,
        argNames = given ++ missing
        /\ List.length given = List.length args /\ missing <> []
        /\ checkArgsNumber args argNames
           = Returns ([cmd_Help; Println []],
                      Some (Errorf "missing positional argument: %v"
                              [VString (fmt_v_strings missing)]))).
Proof.
  unfold checkArgsNumber, slice_from.
  destruct (Nat.ltb_spec (List.length args) (List.length argNames)) as [L|L].
  - destruct (Nat.leb_spec (List.length args) (List.length argNames)) as [_|L']; [|lia].
    split; [discriminate|]. split; [split; [discriminate|lia]|].
    intros _. exists (firstn (List.length args) argNames), (skipn (List.length args) argNames).
    split; [now rewrite firstn_skipn|]. split; [rewrite length_firstn; lia|].
    split; [|reflexivity].
    intros E. apply (f_equal (@List.length string)) in E.
    rewrite length_skipn in E. simpl in E. lia.
  - split; [discriminate|]. split; [split; [lia|reflexivity]|lia].
Qed.

Lemma ParseAmountLimit_joined_witness :
  (forall result,
     ParseAmountLimit ParseFloat ("iost:10.5" +:+ "|" +:+ "ram:unlimited") = (result, None) <->
     exists ra rb, ParseAmountLimit ParseFloat "iost:10.5" = (ra, None)
                   /\ ParseAmountLimit ParseFloat "ram:unlimited" = (rb, None)
                   /\ result = ra ++ rb)
  /\ (forall err, snd (ParseAmountLimit ParseFloat "iost:10.5") = Some err ->
        ParseAmountLimit ParseFloat ("iost:10.5" +:+ "|" +:+ "ram:unlimited")
        = ([], Some err))
  /\ snd (ParseAmountLimit ParseFloat ("iost:10.5" +:+ "|")) <> None
  /\ snd (ParseAmountLimit ParseFloat ("|" +:+ "ram:unlimited")) <> None.
Proof.
  apply (ParseAmountLimit_joined ParseFloat "iost:10.5" "ram:unlimited"); discriminate.
Defined.

Lemma checkFloat_agrees_with_ParseAmountLimit_witness :
  (snd (checkFloat ParseFloat "10.5" "amount") = None
   <-> ParseAmountLimit ParseFloat ("iost" +:+ ":" +:+ "10.5")
       = ([{| Token := "iost"; Value := "10.5" |}], None))
  /\ (snd (checkFloat ParseFloat "10.5" "amount") = None
      <-> snd (ParseAmountLimit ParseFloat ("iost" +:+ ":" +:+ "10.5")) = None)
  /\ (snd (checkFloat ParseFloat "10.5" "amount") = None
      <-> fst (checkFloat ParseFloat "10.5" "amount") = []).
Proof.
  apply (checkFloat_agrees_with_ParseAmountLimit ParseFloat "iost" "10.5" "amount");
    first [reflexivity|discriminate].
Defined.

(* ===================================================================== *)
(** ** More on handleMultiSig *)
(* ===================================================================== *)

Section MultiSigMore.

Context {W : Type} (os : OS W).
Context {Payload : Type} (signAlgo : string).
Context (GetSignatureOfTx : TransactionRequest Payload -> KeyPair -> Signature).
Context (VerifySigForTx : TransactionRequest Payload -> Signature -> bool).

Lemma key_loaded_In (fs : list string) (kps : list KeyPair) (e : event) :
  In e (zip_with (key_loaded signAlgo) fs kps) ->
  exists f kp, In f fs /\ e = ev (sdk_LoadKeyPair f signAlgo) (inl kp).
Proof.
  revert kps. induction fs as [|f fs IH]; intros [|kp kps]; simpl; try tauto.
  intros [<-|H].
  - exists f, kp. auto.
  - destruct (IH _ H) as (f' & kp' & I & ->). exists f', kp'. auto.
Qed.

Lemma sig_loaded_In (fs : list string) (ss : list Signature) (e : event) :
  In e (zip_with sig_loaded fs ss) ->
  exists f sig, In f fs /\ e = ev (sdk_LoadProtoStructFromJSONFile f) (inl sig).
Proof.
  revert ss. induction fs as [|f fs IH]; intros [|sig ss]; simpl; try tauto.
  intros [<-|H].
  - exists f, sig. auto.
  - destruct (IH _ H) as (f' & sig' & I & ->). exists f', sig'. auto.
Qed.

Lemma length_zip_with_le {A B C : Type} (g : A -> B -> C) (l : list A) (k : list B) :
  (List.length (zip_with g l k) <= List.length l)%nat.
Proof.
  revert k. induction l as [|a l IH]; intros [|b k]; simpl; try lia.
  specialize (IH k). lia.
Qed.

(** X23.  On every machine and in every mode, [handleMultiSig] only
    reads the files it is given: each of its calls is [sdk.LoadKeyPair],
    with the algorithm [signAlgo], on an entry of [signKeys], or
    [sdk.LoadProtoStructFromJSONFile] on an entry of [withSigns]; it makes
    at most one call per entry, and none of one kind when it made one of
    the other.  The content of the transaction is never changed.  With no
    file of either kind the call makes no call and returns no error, and
    the transaction comes back with an empty list of signatures: the
    signatures it carried are dropped. *)
Theorem handleMultiSig_reads_given_files (t : TransactionRequest Payload)
    (withSigns signKeys : list string) (w : W) :
  match run os (handleMultiSig Payload signAlgo GetSignatureOfTx VerifySigForTx
                  t withSigns signKeys) w with
  | ((t', err), _, tr) =>
      ((forall e, In e tr ->
          exists f r, In f signKeys /\ e = ev (sdk_LoadKeyPair f signAlgo) r)
       \/ (forall e, In e tr ->
             exists f r, In f withSigns /\ e = ev (sdk_LoadProtoStructFromJSONFile f) r))
      /\ (List.length tr <= List.length signKeys + List.length withSigns)%nat
      /\ Content t' = Content t
      /\ (withSigns = [] -> signKeys = [] ->
          t' = {| Content := Content t; Signatures := [] |} /\ err = None /\ tr = [])
  end.
Proof.
  rewrite handleMultiSig_unfold.
  destruct withSigns as [|s0 ss0], signKeys as [|k0 ks0].
  - simpl. split; [left; intros e []|]. split; [lia|]. auto.
  - rewrite run_bind.
    pose proof (handleMultiSig_sign_run os signAlgo GetSignatureOfTx t (k0 :: ks0) [] w) as R.
    destruct (run os (Iwallet.handleMultiSig_sign Payload signAlgo GetSignatureOfTx
                        t (k0 :: ks0) []) w) as [[[sigs|err] w1] tr].
    + destruct R as (kps & L & -> & ->). cbn [run]. rewrite app_nil_r.
      split; [left|split; [|split; [reflexivity|discriminate]]].
      * intros e H. destruct (key_loaded_In _ _ _ H) as (f & kp & I & ->). eauto.
      * pose proof (length_zip_with_le (key_loaded signAlgo) (k0 :: ks0) kps). lia.
    + destruct R as (pre & f & post & kps & e & E & L & -> & ->). cbn [run].
      rewrite app_nil_r.
      split; [left|split; [|split; [reflexivity|discriminate]]].
      * intros e' H. apply in_app_or in H. destruct H as [H|[<-|[]]].
        -- destruct (key_loaded_In _ _ _ H) as (f' & kp & I & ->).
           exists f', (inl kp). split; [|reflexivity].
           rewrite E. apply in_or_app. now left.
        -- exists f, (inr e). split; [|reflexivity].
           rewrite E. apply in_or_app. right. now left.
      * pose proof (length_zip_with_le (key_loaded signAlgo) pre kps) as Z0.
        rewrite E, length_app, !length_app. simpl. lia.
  - rewrite run_bind.
    pose proof (handleMultiSig_attach_run os VerifySigForTx t (s0 :: ss0) [] w) as R.
    destruct (run os (Iwallet.handleMultiSig_attach Payload VerifySigForTx
                        t (s0 :: ss0) []) w) as [[[sigs|err] w1] tr].
    + destruct R as (ss & L & -> & F & ->). cbn [run]. rewrite app_nil_r.
      split; [right|split; [|split; [reflexivity|discriminate]]].
      * intros e H. destruct (sig_loaded_In _ _ _ H) as (f & sig & I & ->). eauto.
      * pose proof (length_zip_with_le sig_loaded (s0 :: ss0) ss). simpl in *. lia.
    + destruct R as (pre & f & post & ss & E & L & F & R). cbn [run].
      rewrite app_nil_r.
      assert (Hin : forall f', In f' pre \/ f' = f -> In f' (s0 :: ss0)).
      { intros f' [I| ->]; rewrite E; apply in_or_app; [now left|right; now left]. }
      assert (Hlen : (List.length pre + 1 <= List.length (s0 :: ss0))%nat).
      { rewrite E, length_app. simpl. lia. }
      destruct R as [(e & -> & ->)|(sig & -> & V & ->)].
      * split; [right|split; [|split; [reflexivity|discriminate]]].
        -- intros e' H. apply in_app_or in H. destruct H as [H|[<-|[]]].
           ++ destruct (sig_loaded_In _ _ _ H) as (f' & sig & I & ->).
              exists f', (inl sig). auto.
           ++ exists f, (inr e). auto.
        -- pose proof (length_zip_with_le sig_loaded pre ss).
           rewrite length_app. simpl in *. lia.
      * split; [right|split; [|split; [reflexivity|discriminate]]].
        -- intros e' H. apply in_app_or in H. destruct H as [H|[<-|[]]].
           ++ destruct (sig_loaded_In _ _ _ H) as (f' & sig' & I & ->).
              exists f', (inl sig'). auto.
           ++ exists f, (inl sig). auto.
        -- pose proof (length_zip_with_le sig_loaded pre ss).
           rewrite length_app. simpl in *. lia.
  - simpl. split; [left; intros e []|]. split; [lia|]. split; [reflexivity|discriminate].
Qed.

End MultiSigMore.

(* ===================================================================== *)
(** ** SaveAccount: the private key file and its directory *)
(* ===================================================================== *)

(** *** Directories on the way to a path *)

Lemma dirs_of_length (s pre d : string) :
  In d (dirs_of pre s) ->
  (String.length d <= String.length pre + String.length s)%nat.
Proof.
  revert pre. induction s as [|c s IH]; intros pre; simpl.
  - destruct (String.eqb pre ""); simpl; [tauto|]. intros [<-|[]]. lia.
  - destruct (Ascii.eqb c "/").
    + intros H. apply in_app_or in H. destruct H as [H|H].
      * destruct (String.eqb pre ""); simpl in H; [tauto|]. destruct H as [<-|[]]. lia.
      * apply IH in H. rewrite length_append in H. simpl in H. lia.
    + intros H. apply IH in H. rewrite length_append in H. simpl in H. lia.
Qed.

Lemma append_nonempty (a : string) (c : ascii) (b : string) : a +:+ String c b <> "".
Proof. destruct a; discriminate. Qed.

(** The account directory is the last directory [MkdirAll] goes to. *)
Lemma dirs_of_account_dir (h pre : string) :
  In (pre +:+ h +:+ "/.iwallet") (dirs_of pre (h +:+ "/.iwallet")).
Proof.
  revert pre. induction h as [|c h IH]; intros pre.
  - change ("" +:+ "/.iwallet") with "/.iwallet". simpl.
    apply in_or_app. right.
    match goal with
    | |- context [String.eqb ?x ""] => destruct (String.eqb_spec x "") as [E|_]
    end.
    + exfalso. revert E. apply append_nonempty.
    + left. now rewrite !append_assoc.
  - change (String c h +:+ "/.iwallet") with (String c (h +:+ "/.iwallet")).
    cbn [dirs_of]. destruct (Ascii.eqb c "/") eqn:E.
    + apply Ascii.eqb_eq in E. subst c. apply in_or_app. right.
      specialize (IH (pre +:+ "/")). now rewrite append_assoc in IH.
    + specialize (IH (pre +:+ String c "")). now rewrite append_assoc in IH.
Qed.

(** [mkdirs] succeeds when no file is in the way, makes every directory
    of the list, and touches no other entry. *)
Lemma mkdirs_clear (ds : list string) (m : FileMode) (fs : gmap string inode) :
  (forall d i, In d ds -> fs !! d = Some i -> isdir i = true) ->
  snd (mkdirs fs m ds) = None.
Proof.
  revert fs. induction ds as [|d ds IH]; intros fs H; simpl; [reflexivity|].
  destruct (fs !! d) as [i|] eqn:E.
  - rewrite (H d i (or_introl eq_refl) E). apply IH. intros d' i' I. apply H. now right.
  - apply IH. intros d' i' I. destruct (decide (d = d')) as [->|N].
    + rewrite lookup_insert_eq. now intros [= <-].
    + rewrite lookup_insert_ne by assumption. apply H. now right.
Qed.

Lemma mkdirs_made (ds : list string) (m : FileMode) (fs : gmap string inode) :
  snd (mkdirs fs m ds) = None ->
  forall d, In d ds -> exists i, fst (mkdirs fs m ds) !! d = Some i /\ isdir i = true.
Proof.
  revert fs. induction ds as [|d ds IH]; intros fs H d' []; simpl in *.
  - subst d'. destruct (fs !! d) as [i|] eqn:E.
    + destruct (isdir i) eqn:D; [|discriminate].
      destruct (mkdirs_lookup ds m fs d) as [L|[L _]]; [|congruence].
      exists i. rewrite L. auto.
    + destruct (mkdirs_lookup ds m (<[d := {| isdir := true; mode := m; data := "" |}]> fs) d)
        as [L|[L _]].
      * rewrite lookup_insert_eq in L. eexists. split; [exact L|reflexivity].
      * rewrite lookup_insert_eq in L. discriminate.
  - destruct (fs !! d) as [i|] eqn:E.
    + destruct (isdir i); [now apply IH|discriminate].
    + now apply IH.
Qed.

Lemma mkdirs_notin (ds : list string) (m : FileMode) (fs : gmap string inode) (p : string) :
  ~ In p ds -> fst (mkdirs fs m ds) !! p = fs !! p.
Proof.
  revert fs. induction ds as [|d ds IH]; intros fs N; simpl; [reflexivity|].
  assert (d <> p) by (intros ->; apply N; now left).
  assert (~ In p ds) by (intros I; apply N; now right).
  destruct (fs !! d) as [i|] eqn:E.
  - destruct (isdir i); [now apply IH|reflexivity].
  - rewrite IH by assumption. now rewrite lookup_insert_ne.
Qed.

(** *** The file store, call by call *)

Lemma posix_faults (c : call) (w : World) : faults (snd (answer posix c w)) = faults w.
Proof. apply (posix_keeps_setting w c w). unfold same_setting. repeat split. Qed.

Lemma posix_leaves (p : string) (c : call) (w : World) :
  leaves p c -> files (snd (answer posix c w)) !! p = files w !! p.
Proof.
  intros L. destruct c; simpl in *; try reflexivity.
  - destruct (faults w (clock w)); [reflexivity|].
    pose proof (mkdirs_notin (dirs_of "" path) (created_mode w perm) (files w) p L) as M.
    now destruct (mkdirs (files w) (created_mode w perm) (dirs_of "" path)).
  - destruct (faults w (clock w)); [reflexivity|].
    destruct (files w !! name) as [i|].
    + destruct (isdir i); [reflexivity|]. simpl. now rewrite lookup_insert_ne.
    + destruct (has_flag flag O_CREATE); [|reflexivity]. simpl. now rewrite lookup_insert_ne.
  - destruct (faults w (clock w)); [reflexivity|].
    destruct (files w !! f_name f); [|reflexivity]. simpl. now rewrite lookup_insert_ne.
  - now destruct (faults w (clock w)).
  - destruct (faults w (clock w)); [reflexivity|]. now destruct (files w !! name).
Qed.

Lemma mkdirall_ok (path : string) (perm : FileMode) (w : World) :
  faults w (clock w) = None ->
  (forall d i, In d (dirs_of "" path) -> files w !! d = Some i -> isdir i = true) ->
  fst (answer posix (sys_mkdirall path perm) w) = None.
Proof.
  intros F H. simpl. rewrite F.
  pose proof (mkdirs_clear (dirs_of "" path) (created_mode w perm) (files w) H) as M.
  now destruct (mkdirs (files w) (created_mode w perm) (dirs_of "" path)).
Qed.

Lemma mkdirall_made (path : string) (perm : FileMode) (w : World) (d : string) :
  fst (answer posix (sys_mkdirall path perm) w) = None ->
  In d (dirs_of "" path) ->
  exists i, files (snd (answer posix (sys_mkdirall path perm) w)) !! d = Some i
            /\ isdir i = true.
Proof.
  simpl. destruct (faults w (clock w)); [discriminate|].
  pose proof (mkdirs_made (dirs_of "" path) (created_mode w perm) (files w)) as M.
  destruct (mkdirs (files w) (created_mode w perm) (dirs_of "" path)) as [fs r].
  simpl in *. intros ->. now apply M.
Qed.

Lemma open_ok (n : string) (flag : Z) (perm : FileMode) (w : World) :
  faults w (clock w) = None ->
  (forall i, files w !! n = Some i -> isdir i = false) ->
  has_flag flag O_CREATE = true ->
  exists fd, fst (answer posix (sys_open n flag perm) w) = inl fd.
Proof.
  intros F H C. simpl. rewrite F. destruct (files w !! n) as [i|].
  - rewrite (H i eq_refl). eexists. reflexivity.
  - rewrite C. eexists. reflexivity.
Qed.

Lemma open_exists (n : string) (flag : Z) (perm : FileMode) (w : World) (fd : Z) :
  fst (answer posix (sys_open n flag perm) w) = inl fd ->
  exists i, files (snd (answer posix (sys_open n flag perm) w)) !! n = Some i.
Proof.
  simpl. destruct (faults w (clock w)); [discriminate|].
  destruct (files w !! n) as [i|].
  - destruct (isdir i); [discriminate|]. simpl. rewrite lookup_insert_eq. eauto.
  - destruct (has_flag flag O_CREATE); [|discriminate]. simpl.
    rewrite lookup_insert_eq. eauto.
Qed.

Lemma write_ok (f : File) (b : string) (w : World) (i : inode) :
  faults w (clock w) = None -> files w !! f_name f = Some i ->
  fst (answer posix (sys_write f b) w) = None.
Proof. intros F H. simpl. now rewrite F, H. Qed.

(** *** Runs of SaveAccount *)

Section SavingFacts.

Variable Base58Encode : bytes -> string.
Variable name : string.
Variable kp : KeyPair.

Lemma sec_not_dir_of (home : string) :
  ~ In (sec_of home name kp) (dirs_of "" (home +:+ "/.iwallet")).
Proof.
  intros I. apply dirs_of_length in I. rewrite sec_of_algo in I.
  rewrite !length_append in I. simpl in I. lia.
Qed.

Lemma pub_not_dir_of (home : string) :
  ~ In (pub_of home name kp) (dirs_of "" (home +:+ "/.iwallet")).
Proof.
  intros I. apply dirs_of_length in I. unfold pub_of in I. rewrite sec_of_algo in I.
  rewrite !length_append in I. simpl in I. lia.
Qed.

(** The modes of what a run of [SaveAccount] adds to the store. *)
Lemma SaveAccount_new_modes (w : World) (home : string) :
  Posix.home w = inl home ->
  new_modes_ok (files w) (umask w) (sec_of home name kp)
    (final posix (SaveAccount Base58Encode name kp) w).
Proof.
  intros Hh.
  pose proof (SaveAccount_run Base58Encode name kp posix w) as O.
  pose proof (run_steps posix (SaveAccount Base58Encode name kp) w) as S.
  refine (steps_preserve posix _ (save_call (sec_of home name kp))
            (save_call_keeps _ _ _) _ _ _ _ S _).
  - revert S. destruct O; cbv zeta; intros [S0 _]; simpl in S0; rewrite Hh in S0;
      first [discriminate S0 | injection S0 as ->];
      repeat constructor; simpl; try reflexivity;
      intros E; exfalso; eapply pub_ne_sec; exact E.
  - split; [reflexivity|]. intros p i H0 H1. congruence.
Qed.

(** Every run of [SaveAccount], on every machine: which calls, on which
    files, with which flags, modes and bytes, and in which order. *)
Lemma SaveAccount_calls {W : Type} (os : OS W) (w : W) :
  (exists err,
     trace os (SaveAccount Base58Encode name kp) w = [ev homedir_Dir (inr err)]
     /\ result os (SaveAccount Base58Encode name kp) w = Some err)
  \/ exists home r rest,
       trace os (SaveAccount Base58Encode name kp) w
       = ev homedir_Dir (inl home)
           :: ev (sys_mkdirall (home +:+ "/.iwallet") (octal [7;0;0])) r :: rest
       /\ (rest <> [] -> r = None)
       /\ (forall n flag perm x,
             In (ev (sys_open n flag perm) x) rest ->
             flag = create_flags
             /\ ((n = pub_of home name kp /\ perm = octal [6;6;6])
                 \/ (n = sec_of home name kp /\ perm = octal [4;0;0])))
       /\ (forall f b x,
             In (ev (sys_write f b) x) rest ->
             (f_name f = pub_of home name kp /\ b = Base58Encode (Pubkey kp)
              /\ In (ev (sys_open (pub_of home name kp) create_flags (octal [6;6;6]))
                        (inl (f_fd f))) rest)
             \/ (f_name f = sec_of home name kp /\ b = Base58Encode (Seckey kp)
                 /\ In (ev (sys_open (sec_of home name kp) create_flags (octal [4;0;0]))
                           (inl (f_fd f))) rest))
       /\ (forall path perm x, ~ In (ev (sys_mkdirall path perm) x) rest)
       /\ (result os (SaveAccount Base58Encode name kp) w = None ->
           exists fd fd' cl cl',
             r = None
             /\ rest
                = [ev (sys_open (pub_of home name kp) create_flags (octal [6;6;6])) (inl fd);
                   ev (sys_write {| f_name := pub_of home name kp; f_fd := fd |}
                         (Base58Encode (Pubkey kp))) None;
                   ev (sys_open (sec_of home name kp) create_flags (octal [4;0;0])) (inl fd');
                   ev (sys_write {| f_name := sec_of home name kp; f_fd := fd' |}
                         (Base58Encode (Seckey kp))) None;
                   ev (fmt_Println ["Your account private key is saved at:";
                                    sec_of home name kp]) tt;
                   ev (sys_close {| f_name := sec_of home name kp; f_fd := fd' |}) cl';
                   ev (sys_close {| f_name := pub_of home name kp; f_fd := fd |}) cl]).
Proof.
  pose proof (SaveAccount_run Base58Encode name kp os w) as O.
  unfold pub_of, sec_of.
  destruct O; cbv zeta in *; unlet; [left; eauto|right..].
  all: eexists _, _, _; split; [reflexivity|].
  all: split; [intros N; first [reflexivity|now destruct N]|].
  all: split; [intros n flag perm x H; ev_in H; (split; [reflexivity|]);
               first [left; split; reflexivity|right; split; reflexivity]|].
  all: split; [intros f b x H; ev_in H;
               first [left; split; [reflexivity|split; [reflexivity|simpl; eauto 10]]
                     |right; split; [reflexivity|split; [reflexivity|simpl; eauto 10]]]|].
  all: split; [intros path perm x H; ev_in H|].
  all: try discriminate.
  intros _. eexists _, _, _, _. split; reflexivity.
Qed.

(** After a call that returned no error, the account directory is there,
    and it is a directory. *)
Lemma SaveAccount_done_dir (w : World) (home : string) :
  Posix.home w = inl home ->
  result posix (SaveAccount Base58Encode name kp) w = None ->
  exists d, files (final posix (SaveAccount Base58Encode name kp) w)
              !! (home +:+ "/.iwallet") = Some d
            /\ isdir d = true.
Proof.
  intros Hh Hr.
  pose proof (SaveAccount_run Base58Encode name kp posix w) as O.
  pose proof (run_steps posix (SaveAccount Base58Encode name kp) w) as S.
  revert S Hr. destruct O; cbv zeta; intros S Hr; try discriminate Hr; unlet.
  destruct S as (S0 & S1 & S). simpl in S0. rewrite Hh in S0. injection S0 as <-.
  cbn [projT1 projT2 ev] in S1, S.
  destruct (mkdirall_made _ _ _ (home +:+ "/.iwallet") S1) as (d & Hd & Dd).
  { apply (dirs_of_account_dir home ""). }
  assert (K : same_meta (home +:+ "/.iwallet") d
                (final posix (SaveAccount Base58Encode name kp) w)).
  { refine (steps_preserve posix (same_meta (home +:+ "/.iwallet") d) (fun _ => True)
              (fun c w1 _ => posix_keeps_meta _ d c w1) _ _ _ _ S _).
    - apply Forall_forall. intros; exact I.
    - exists d. auto. }
  destruct K as (d' & H' & D' & _). exists d'. split; [exact H'|congruence].
Qed.

(** On a store where no call fails for a reason of its own and nothing is
    in the way (no file where a directory has to be, no directory where a
    key file has to be), [SaveAccount] returns no error. *)
Lemma SaveAccount_succeeds (w : World) (home : string) :
  Posix.home w = inl home -> (forall k, faults w k = None) ->
  (forall d i, In d (dirs_of "" (home +:+ "/.iwallet")) ->
               files w !! d = Some i -> isdir i = true) ->
  (forall i, files w !! pub_of home name kp = Some i -> isdir i = false) ->
  (forall i, files w !! sec_of home name kp = Some i -> isdir i = false) ->
  result posix (SaveAccount Base58Encode name kp) w = None.
Proof.
  intros Hh Hf Hd Hp Hs.
  pose proof (SaveAccount_run Base58Encode name kp posix w) as O.
  pose proof (run_steps posix (SaveAccount Base58Encode name kp) w) as S.
  assert (F : forall w1 : World, faults w1 = faults w -> faults w1 (clock w1) = None)
    by (intros w1 ->; apply Hf).
  pose proof (pub_not_dir_of home) as NP. pose proof (sec_not_dir_of home) as NS.
  pose proof (pub_ne_sec home name kp) as PS.
  unfold pub_of, sec_of in *.
  revert S. destruct O; cbv zeta; intros S; unlet; [exfalso..|reflexivity].
  all: destruct S as (S0 & S); simpl in S0; rewrite Hh in S0;
    first [discriminate S0|injection S0 as <-].
  all: cbn [steps projT1 projT2 ev] in S.
  - (* MkdirAll *)
    destruct S as (S1 & _). rewrite mkdirall_ok in S1; [discriminate| |assumption].
    apply F. reflexivity.
  - (* creating the public key file *)
    destruct S as (_ & S2 & _).
    destruct (open_ok (keyFileName (home +:+ "/.iwallet") name kp +:+ ".pub") create_flags
                (octal [6;6;6])
                (snd (answer posix (sys_mkdirall (home +:+ "/.iwallet") (octal [7;0;0]))
                        (snd (answer posix homedir_Dir w))))) as (fd & E).
    + apply F. now rewrite !posix_faults.
    + rewrite !posix_leaves by (simpl; auto). exact Hp.
    + reflexivity.
    + congruence.
  - (* writing the public key *)
    destruct S as (_ & S2 & S3 & _).
    destruct (open_exists _ _ _ _ _ S2) as (i & Hi).
    rewrite (write_ok _ _ _ i) in S3; [discriminate| |exact Hi].
    apply F. now rewrite !posix_faults.
  - (* creating the private key file *)
    destruct S as (_ & _ & _ & S4 & _).
    match type of S4 with
    | fst (answer posix ?c ?w4) = _ =>
        destruct (open_ok (keyFileName (home +:+ "/.iwallet") name kp) create_flags
                    (octal [4;0;0]) w4) as (fd' & E)
    end.
    + apply F. now rewrite !posix_faults.
    + rewrite !posix_leaves by (simpl; auto). exact Hs.
    + reflexivity.
    + congruence.
  - (* writing the private key *)
    destruct S as (_ & _ & _ & S4 & S5 & _).
    destruct (open_exists _ _ _ _ _ S4) as (i & Hi).
    rewrite (write_ok _ _ _ i) in S5; [discriminate| |exact Hi].
    apply F. now rewrite !posix_faults.
Qed.

End SavingFacts.

(** C2.  On every machine, [SaveAccount] asks for the home directory and
    then, before anything else, makes the account directory, with
    [MkdirAll] and mode 0700; it calls the file system again only when that
    worked, and never makes another directory.  It opens two files only,
    both with the creating flags: the public key file with mode 0666 and
    the private key file with mode 0400, so the private key file gets its
    mode in the call that creates it.  It writes the encoded private key
    to the private key file only, through the descriptor that opening it
    with mode 0400 gave, and the encoded public key to the public key file.
    Neither 0400 nor 0700 has a group or other bit.  A call that returns
    no error made exactly these calls, all of which worked.  On the file
    store: a private key file that was not there before the call has no
    group or other bit whatever the umask and whatever fails, and so has
    every directory the call made; after a call that returned no error
    the private key file is there, a regular file that holds the encoded
    private key, and the account directory is there; and the call does
    return no error when no call fails for a reason of its own and
    nothing is in the way. *)
Theorem SaveAccount_owner_only (Base58Encode : bytes -> string) (name : string) (kp : KeyPair) :
  (forall (W : Type) (os : OS W) (w : W) (home : string),
     In (ev homedir_Dir (inl home)) (trace os (SaveAccount Base58Encode name kp) w) ->
     (exists r rest,
        trace os (SaveAccount Base58Encode name kp) w
        = ev homedir_Dir (inl home)
            :: ev (sys_mkdirall (home +:+ "/.iwallet") (octal [7;0;0])) r :: rest
        /\ (rest <> [] -> r = None))
     /\ (forall flag perm r,
          In (ev (sys_open (sec_of home name kp) flag perm) r)
             (trace os (SaveAccount Base58Encode name kp) w) ->
          perm = octal [4;0;0] /\ flag = create_flags /\ has_flag flag O_CREATE = true))
  /\ Z.land (octal [4;0;0]) (octal [0;7;7]) = 0
  /\ Z.land (octal [7;0;0]) (octal [0;7;7]) = 0
  /\ (forall (w : World) (home : string),
        Posix.home w = inl home ->
        (forall i,
           files w !! sec_of home name kp = None ->
           files (final posix (SaveAccount Base58Encode name kp) w) !! sec_of home name kp
           = Some i ->
           Z.land (mode i) (octal [0;7;7]) = 0
           /\ (isdir i = false -> mode i = Z.land (octal [4;0;0]) (Z.lnot (umask w))))
        /\ (forall d i,
              files w !! d = None ->
              files (final posix (SaveAccount Base58Encode name kp) w) !! d = Some i ->
              isdir i = true ->
              mode i = Z.land (octal [7;0;0]) (Z.lnot (umask w))
              /\ Z.land (mode i) (octal [0;7;7]) = 0))
  /\ (forall (W : Type) (os : OS W) (w : W),
        (exists err,
           trace os (SaveAccount Base58Encode name kp) w = [ev homedir_Dir (inr err)]
           /\ result os (SaveAccount Base58Encode name kp) w = Some err)
        \/ exists home r rest,
             trace os (SaveAccount Base58Encode name kp) w
             = ev homedir_Dir (inl home)
                 :: ev (sys_mkdirall (home +:+ "/.iwallet") (octal [7;0;0])) r :: rest
             /\ (rest <> [] -> r = None)
             /\ (forall n flag perm x,
                   In (ev (sys_open n flag perm) x) rest ->
                   flag = create_flags
                   /\ ((n = pub_of home name kp /\ perm = octal [6;6;6])
                       \/ (n = sec_of home name kp /\ perm = octal [4;0;0])))
             /\ (forall f b x,
                   In (ev (sys_write f b) x) rest ->
                   (f_name f = pub_of home name kp /\ b = Base58Encode (Pubkey kp)
                    /\ In (ev (sys_open (pub_of home name kp) create_flags (octal [6;6;6]))
                              (inl (f_fd f))) rest)
                   \/ (f_name f = sec_of home name kp /\ b = Base58Encode (Seckey kp)
                       /\ In (ev (sys_open (sec_of home name kp) create_flags
                                    (octal [4;0;0])) (inl (f_fd f))) rest))
             /\ (forall path perm x, ~ In (ev (sys_mkdirall path perm) x) rest)
             /\ (result os (SaveAccount Base58Encode name kp) w = None ->
                 exists fd fd' cl cl',
                   r = None
                   /\ rest
                      = [ev (sys_open (pub_of home name kp) create_flags (octal [6;6;6]))
                            (inl fd);
                         ev (sys_write {| f_name := pub_of home name kp; f_fd := fd |}
                               (Base58Encode (Pubkey kp))) None;
                         ev (sys_open (sec_of home name kp) create_flags (octal [4;0;0]))
                            (inl fd');
                         ev (sys_write {| f_name := sec_of home name kp; f_fd := fd' |}
                               (Base58Encode (Seckey kp))) None;
                         ev (fmt_Println ["Your account private key is saved at:";
                                          sec_of home name kp]) tt;
                         ev (sys_close {| f_name := sec_of home name kp; f_fd := fd' |}) cl';
                         ev (sys_close {| f_name := pub_of home name kp; f_fd := fd |}) cl]))
  /\ (forall (w : World) (home : string),
        Posix.home w = inl home ->
        (result posix (SaveAccount Base58Encode name kp) w = None ->
         (exists i,
            files (final posix (SaveAccount Base58Encode name kp) w) !! sec_of home name kp
            = Some i
            /\ isdir i = false /\ data i = Base58Encode (Seckey kp)
            /\ (files w !! sec_of home name kp = None ->
                mode i = Z.land (octal [4;0;0]) (Z.lnot (umask w))
                /\ Z.land (mode i) (octal [0;7;7]) = 0))
         /\ (exists d,
               files (final posix (SaveAccount Base58Encode name kp) w)
                 !! (home +:+ "/.iwallet") = Some d
               /\ isdir d = true
               /\ (files w !! (home +:+ "/.iwallet") = None ->
                   mode d = Z.land (octal [7;0;0]) (Z.lnot (umask w))
                   /\ Z.land (mode d) (octal [0;7;7]) = 0)))
        /\ ((forall k, faults w k = None) ->
            (forall d i, In d (dirs_of "" (home +:+ "/.iwallet")) ->
                         files w !! d = Some i -> isdir i = true) ->
            (forall i, files w !! pub_of home name kp = Some i -> isdir i = false) ->
            (forall i, files w !! sec_of home name kp = Some i -> isdir i = false) ->
            result posix (SaveAccount Base58Encode name kp) w = None)).
Proof.
  split; [|split; [reflexivity|split; [reflexivity|split; [|split]]]].
  - intros W os w home Hh.
    pose proof (SaveAccount_run Base58Encode name kp os w) as O.
    destruct O; cbv zeta in *; ev_in Hh; unlet.
    all: split;
      [ eexists _, _; split; [reflexivity|]; intros N; first [reflexivity|now destruct N]
      | intros flag perm r H; ev_in H; try (now repeat split);
        exfalso; eapply pub_ne_sec; unfold pub_of, sec_of; eassumption ].
  - intros w home Hh.
    destruct (SaveAccount_new_modes Base58Encode name kp w home Hh) as [_ I]. split.
    + intros i H0 H1. specialize (I _ _ H0 H1). destruct (isdir i).
      * rewrite I. split; [now apply land_owner_only|discriminate].
      * specialize (I eq_refl). rewrite I. split; [now apply land_owner_only|reflexivity].
    + intros d i H0 H1 D. specialize (I _ _ H0 H1). rewrite D in I. rewrite I.
      split; [reflexivity|now apply land_owner_only].
  - intros W os w. apply SaveAccount_calls.
  - intros w home Hh. split; [|now apply SaveAccount_succeeds].
    intros Hr.
    destruct (SaveAccount_new_modes Base58Encode name kp w home Hh) as [_ I].
    destruct (SaveAccount_done_sec Base58Encode name kp w home Hh Hr) as (i & Hi & Di & Fi).
    destruct (SaveAccount_done_dir Base58Encode name kp w home Hh Hr) as (d & Hd & Dd).
    split.
    + exists i. split; [exact Hi|]. split; [exact Fi|]. split; [exact Di|].
      intros H0. specialize (I _ _ H0 Hi). rewrite Fi in I. specialize (I eq_refl).
      rewrite I. split; [reflexivity|now apply land_owner_only].
    + exists d. split; [exact Hd|]. split; [exact Dd|].
      intros H0. specialize (I _ _ H0 Hd). rewrite Dd in I.
      rewrite I. split; [reflexivity|now apply land_owner_only].
Qed.
